(** * Verification of the pipeline tools (Maya / Houdini plugins)

    A shallow embedding of the decision logic of

    - [src/pipeline/ala_dagRenamer.py]       (special rename, undo commands),
    - [src/pipeline/ala_curveExtraction.py]  (locator extraction),
    - [src/pipeline/ala_rigColor.py]         (colour bookmarks, joint layers),
    - [src/pipeline/importassetscatalogue.py] (asset scan and import).

    Host behaviour (Qt signals, Maya commands, the Houdini data source, the
    file system, Python's [re] and [json]) is modelled at the boundary the
    source calls it through; each such model says what it stands for. *)

From Stdlib Require Import List Ascii String ZArith NArith QArith Lia Bool.
From Stdlib Require Import Permutation Sorting.Sorted.
From stdpp Require Import gmap strings list.

Set Warnings "-register-all".
Set Warnings "-notation-overridden".
Set Warnings "-ambiguous-paths".
Local Open Scope Z_scope.

(** ** Python strings

    A Python [str] is modelled as the list of its code points, restricted
    to the code points 0..255 ([ascii]). *)

Module PyStr.

Abbreviation str := (list ascii).

(** String literals of the source are written [py "..."]. *)
Definition py (s : string) : str := list_ascii_of_string s.

(** [str.isspace] on one code point below 256: TAB..CR, FS..US, SPACE,
    NEL and NBSP. *)
Definition isspace (c : ascii) : bool :=
  let n := N_of_ascii c in
  ((9 <=? n) && (n <=? 13) || (28 <=? n) && (n <=? 32)
   || (n =? 133) || (n =? 160))%N.

(** [s.lstrip()], [s.rstrip()], [s.strip()]. *)
Fixpoint lstrip (s : str) : str :=
  match s with
  | c :: s' => if isspace c then lstrip s' else s
  | [] => []
  end.

Definition rstrip (s : str) : str := rev (lstrip (rev s)).

Definition strip (s : str) : str := rstrip (lstrip s).

(** [s.split("\n")[0]]: the text before the first line feed. *)
Definition LF : ascii := ascii_of_nat 10.

Fixpoint first_line (s : str) : str :=
  match s with
  | c :: s' => if Ascii.eqb c LF then [] else c :: first_line s'
  | [] => []
  end.

(** [c.lower()] on one code point below 256: the letters A..Z and the
    Latin-1 capitals 0xC0..0xDE other than the multiplication sign. *)
Definition lower_char (c : ascii) : ascii :=
  let n := N_of_ascii c in
  if ((65 <=? n) && (n <=? 90)
      || (192 <=? n) && (n <=? 222) && negb (n =? 215))%N
  then ascii_of_N (n + 32) else c.

Definition lower (s : str) : str := map lower_char s.

(** [str(n)] for a non-negative integer. *)
Definition digit (d : N) : ascii := ascii_of_N (48 + d).

Fixpoint str_of_N_aux (fuel : nat) (n : N) (acc : str) : str :=
  match fuel with
  | O => acc
  | S fuel' =>
      let acc' := digit (n mod 10) :: acc in
      if (n / 10 =? 0)%N then acc' else str_of_N_aux fuel' (n / 10) acc'
  end.

Definition str_of_N (n : N) : str := str_of_N_aux (S (N.to_nat n)) n [].

(** [f"{n:0{w}d}"] for a non-negative [n]: decimal, padded on the left with
    zeros up to a minimum width of [w]. *)
Definition format_0d (n : N) (w : nat) : str :=
  let d := str_of_N n in
  repeat "0"%char (w - length d)%nat ++ d.

(** Python compares strings code point by code point. *)
Fixpoint str_ltb (a b : str) : bool :=
  match a, b with
  | [], [] => false
  | [], _ :: _ => true
  | _ :: _, [] => false
  | x :: a', y :: b' =>
      if (N_of_ascii x <? N_of_ascii y)%N then true
      else if (N_of_ascii y <? N_of_ascii x)%N then false
      else str_ltb a' b'
  end.

Definition str_leb (a b : str) : bool := negb (str_ltb b a).

End PyStr.
Export PyStr.

(** ** Python exceptions

    A call either returns a value or raises.  [is_Exception] tells the
    classes that derive from [Exception], the ones an [except Exception]
    clause catches, from [KeyboardInterrupt], which derives from
    [BaseException] only. *)

Module PyExn.

Inductive exn : Type :=
| AssertionError
| IndexError
| TypeError
| ValueError
| OSError
| RuntimeError
| KeyboardInterrupt.

Definition is_Exception (e : exn) : bool :=
  match e with
  | KeyboardInterrupt => false
  | _ => true
  end.

Inductive res (A : Type) : Type :=
| Ok (a : A)
| Raise (e : exn).
Arguments Ok {A} a.
Arguments Raise {A} e.

Definition bind {A B} (m : res A) (k : A -> res B) : res B :=
  match m with
  | Ok a => k a
  | Raise e => Raise e
  end.

Definition res_map {A B} (f : A -> B) (m : res A) : res B :=
  bind m (fun a => Ok (f a)).

End PyExn.
Export PyExn.

(** [x ← m; k] runs [m] and, unless it raised, goes on with [k]. *)
#[global] Instance res_bind : MBind res := fun A B k m => bind m k.
#[global] Instance res_ret : MRet res := fun A a => Ok a.

(** ** Python's [re] on the patterns of the source

    A backtracking matcher in the order Python's engine explores: the left
    alternative first, a greedy repetition taking one more round before it
    stops.  [ends r s] lists, in that order, the suffixes of [s] left after
    each way [r] can match at the start of [s]; the engine takes the first. *)

Module Re.

Inductive regex : Type :=
| Lit (c : ascii)               (* one literal character *)
| Cls (cs : list ascii)         (* [...]: one character of the class *)
| Seq (a b : regex)             (* ab *)
| Alt (a b : regex)             (* a|b *)
| Opt (a : regex)               (* a? *)
| Plus (a : regex).             (* a+ *)

Definition in_class (cs : list ascii) (c : ascii) : bool :=
  existsb (Ascii.eqb c) cs.
Arguments in_class : simpl never.

(** One or more greedy rounds of a matcher [f]; a round that consumes
    nothing ends the repetition, as in Python. *)
Fixpoint plus_ends (f : str -> list str) (fuel : nat) (s : str) : list str :=
  match fuel with
  | O => []
  | S fuel' =>
      flat_map (fun s' =>
        (if (length s' <? length s)%nat then plus_ends f fuel' s' else [])
        ++ [s']) (f s)
  end.

Fixpoint ends (r : regex) (s : str) : list str :=
  match r with
  | Lit c =>
      match s with
      | x :: s' => if Ascii.eqb x c then [s'] else []
      | [] => []
      end
  | Cls cs =>
      match s with
      | x :: s' => if in_class cs x then [s'] else []
      | [] => []
      end
  | Seq a b => flat_map (ends b) (ends a s)
  | Alt a b => ends a s ++ ends b s
  | Opt a => ends a s ++ [s]
  | Plus a => plus_ends (ends a) (S (length s)) s
  end.

(** [pattern.match(s)]: the matched text ([match.group(0)]) and the rest. *)
Definition re_match (r : regex) (s : str) : option (str * str) :=
  match ends r s with
  | rest :: _ => Some (take (length s - length rest)%nat s, rest)
  | [] => None
  end.

(** [re.search(r, s)] as a truth value: a match at some position. *)
Fixpoint re_search (r : regex) (s : str) : bool :=
  match re_match r s with
  | Some _ => true
  | None =>
      match s with
      | _ :: s' => re_search r s'
      | [] => false
      end
  end.

(** [re.sub(r, repl, s)] with a callable [repl] that may raise:
    left to right, non-overlapping matches replaced, other characters
    copied; an empty match is replaced and one character is copied. *)
Fixpoint re_sub_aux (fuel : nat) (r : regex) (repl : str -> res str)
    (s : str) : res str :=
  match fuel with
  | O => Ok s
  | S fuel' =>
      let copy_one :=
        match s with
        | c :: s' => res_map (cons c) (re_sub_aux fuel' r repl s')
        | [] => Ok []
        end in
      match re_match r s with
      | Some (m, rest) =>
          out ← repl m;
          match m with
          | [] => res_map (app out) copy_one
          | _ :: _ => res_map (app out) (re_sub_aux fuel' r repl rest)
          end
      | None => copy_one
      end
  end.

Definition re_sub (r : regex) (repl : str -> res str) (s : str) : res str :=
  re_sub_aux (S (length s)) r repl s.

End Re.
Export Re.

(** ** The DAG renamer ([ala_dagRenamer.py]) *)

Module DagRenamer.

(** *** The tree widget *)

(** A [QTreeWidgetItem] is identified by a number; the widget keeps the
    items in a forest. *)
Inductive QTreeWidgetItem : Type :=
| TreeItem (id : nat) (children : list QTreeWidgetItem).

Definition item_id (t : QTreeWidgetItem) : nat :=
  match t with TreeItem i _ => i end.

(** [QTreeWidgetTraverser]: the generators, as the lists they yield. *)
Fixpoint traversePostOrderItem (item : QTreeWidgetItem) : list nat :=
  match item with
  | TreeItem i children => flat_map traversePostOrderItem children ++ [i]
  end.

Definition traversePostOrder (top : list QTreeWidgetItem) : list nat :=
  flat_map traversePostOrderItem top.

Fixpoint traversePreOrderItem (item : QTreeWidgetItem) : list nat :=
  match item with
  | TreeItem i children => i :: flat_map traversePreOrderItem children
  end.

Definition traversePreOrder (top : list QTreeWidgetItem) : list nat :=
  flat_map traversePreOrderItem top.

(** [item.parent()]: the item directly above, [None] for a top-level item.
    [find_parent par t i] searches [t], whose own parent is [par]. *)
Fixpoint find_parent (par : option nat) (t : QTreeWidgetItem) (i : nat)
  : option (option nat) :=
  match t with
  | TreeItem j children =>
      if (j =? i)%nat then Some par
      else
        (fix go (ks : list QTreeWidgetItem) : option (option nat) :=
           match ks with
           | [] => None
           | k :: ks' =>
               match find_parent (Some j) k i with
               | Some r => Some r
               | None => go ks'
               end
           end) children
  end.

Fixpoint find_parent_top (top : list QTreeWidgetItem) (i : nat)
  : option (option nat) :=
  match top with
  | [] => None
  | t :: top' =>
      match find_parent None t i with
      | Some r => Some r
      | None => find_parent_top top' i
      end
  end.

Definition item_parent (top : list QTreeWidgetItem) (i : nat) : option nat :=
  match find_parent_top top i with
  | Some r => r
  | None => None
  end.

(** *** Undo commands *)

(** One entry of [MultiRenameCommand.changes]. *)
Record Change : Type := mkChange {
  ch_item : nat;
  ch_oldName : str;
  ch_newName : str
}.

Inductive Command : Type :=
| RenameCommand (item : nat) (newName oldName : str)
| MultiRenameCommand (changes : list Change).

(** [MultiRenameCommand.__init__]: [zip(items, newNames, oldNames)] stops at
    the shortest of the three lists. *)
Fixpoint zip_changes (items : list nat) (newNames oldNames : list str)
  : list Change :=
  match items, newNames, oldNames with
  | i :: items', n :: newNames', o :: oldNames' =>
      mkChange i o n :: zip_changes items' newNames' oldNames'
  | _, _, _ => []
  end.

Definition mkMultiRenameCommand (items : list nat)
    (newNames oldNames : list str) : Command :=
  MultiRenameCommand (zip_changes items newNames oldNames).

(** *** The state of the window

    The editable tree with what its items carry, the flags of
    [DagRenamerTreeWidget], and the undo stack of [DagRenamer]. *)
Record Ui : Type := mkUi {
  topLevel : list QTreeWidgetItem;  (* the items of the editable tree *)
  selected : list nat;              (* editableTree.selectedItems() *)
  text : gmap nat str;              (* item.text(0) *)
  oldNameData : gmap nat str;       (* item.data(0, UserRole)["oldName"] *)
  origText : gmap nat str;          (* text(0) of the linked original item *)
  changedColour : gmap nat bool;    (* background is [changedColour] *)
  programmaticTextChange : bool;
  signalsBlocked : bool;
  undoStack : list Command          (* pushed commands, latest first *)
}.

Definition item_text (u : Ui) (i : nat) : str := default [] (text u !! i).
Definition item_oldName (u : Ui) (i : nat) : str :=
  default [] (oldNameData u !! i).
Definition item_origText (u : Ui) (i : nat) : str :=
  default [] (origText u !! i).

Definition set_text (i : nat) (t : str) (u : Ui) : Ui :=
  mkUi (topLevel u) (selected u) (<[i:=t]> (text u)) (oldNameData u)
       (origText u) (changedColour u) (programmaticTextChange u)
       (signalsBlocked u) (undoStack u).

Definition set_oldName (i : nat) (t : str) (u : Ui) : Ui :=
  mkUi (topLevel u) (selected u) (text u) (<[i:=t]> (oldNameData u))
       (origText u) (changedColour u) (programmaticTextChange u)
       (signalsBlocked u) (undoStack u).

Definition set_colour (i : nat) (c : bool) (u : Ui) : Ui :=
  mkUi (topLevel u) (selected u) (text u) (oldNameData u)
       (origText u) (<[i:=c]> (changedColour u)) (programmaticTextChange u)
       (signalsBlocked u) (undoStack u).

Definition set_programmatic (b : bool) (u : Ui) : Ui :=
  mkUi (topLevel u) (selected u) (text u) (oldNameData u)
       (origText u) (changedColour u) b (signalsBlocked u) (undoStack u).

Definition blockSignals (b : bool) (u : Ui) : Ui :=
  mkUi (topLevel u) (selected u) (text u) (oldNameData u)
       (origText u) (changedColour u) (programmaticTextChange u) b
       (undoStack u).

Definition stack_push (c : Command) (u : Ui) : Ui :=
  mkUi (topLevel u) (selected u) (text u) (oldNameData u)
       (origText u) (changedColour u) (programmaticTextChange u)
       (signalsBlocked u) (c :: undoStack u).

(** [item.setText(0, t)]: Qt stores the text and, when the text changed and
    the widget's signals are not blocked, emits [itemChanged], which the
    editable tree has connected to [_onItemChanged] (the [handler]). *)
Definition item_setText (handler : Ui -> nat -> Ui) (u : Ui) (i : nat)
    (t : str) : Ui :=
  let changed := negb (bool_decide (item_text u i = t)) in
  let u' := set_text i t u in
  if changed && negb (signalsBlocked u) then handler u' i else u'.

(** [DagRenamerTreeWidget.setTextProgrammatic]. *)
Definition setTextProgrammatic (handler : Ui -> nat -> Ui) (u : Ui) (i : nat)
    (t : str) : Ui :=
  let u := set_programmatic true u in
  let u := item_setText handler u i t in
  set_programmatic false u.

(** [RenameCommand.redo]/[undo] and [MultiRenameCommand.redo]/[undo]. *)
Definition cmd_redo (handler : Ui -> nat -> Ui) (c : Command) (u : Ui) : Ui :=
  match c with
  | RenameCommand item newName _ => setTextProgrammatic handler u item newName
  | MultiRenameCommand changes =>
      fold_left (fun u ch =>
        setTextProgrammatic handler u (ch_item ch) (ch_newName ch)) changes u
  end.

Definition cmd_undo (handler : Ui -> nat -> Ui) (c : Command) (u : Ui) : Ui :=
  match c with
  | RenameCommand item _ oldName => setTextProgrammatic handler u item oldName
  | MultiRenameCommand changes =>
      fold_left (fun u ch =>
        setTextProgrammatic handler u (ch_item ch) (ch_oldName ch)) changes u
  end.

(** [QUndoStack.push]: the command is put on the stack and its [redo] runs. *)
Definition stack_push_redo (handler : Ui -> nat -> Ui) (c : Command) (u : Ui)
  : Ui :=
  cmd_redo handler c (stack_push c u).

(** [DagRenamerTreeWidget._onItemChanged].  [inner] is the handler a nested
    [setText] would reach; the body blocks the signals first, so it never
    runs ([onItemChanged_body_inner]). *)
Definition onItemChanged_body (inner : Ui -> nat -> Ui) (u : Ui) (item : nat)
  : Ui :=
  let editableNewText := strip (item_text u item) in
  let editableOldText := item_oldName u item in
  let originalText := strip (item_origText u item) in
  let u := blockSignals true u in
  if bool_decide (editableNewText = []) then
    (* the early return: the signals stay blocked *)
    item_setText inner u item editableOldText
  else
    let u := set_colour item
               (negb (bool_decide (editableNewText = originalText))) u in
    let u := set_oldName item editableNewText u in
    let u :=
      if programmaticTextChange u then u
      else stack_push_redo inner
             (RenameCommand item editableNewText editableOldText) u in
    blockSignals false u.

Definition onItemChanged : Ui -> nat -> Ui :=
  onItemChanged_body (fun u _ => u).

Definition redo : Command -> Ui -> Ui := cmd_redo onItemChanged.
Definition undo : Command -> Ui -> Ui := cmd_undo onItemChanged.
Definition push : Command -> Ui -> Ui := stack_push_redo onItemChanged.

(** *** Special rename *)

(** [r"((?:[#\$])+|[!@])"]. *)
Definition SPECIAL_RE : regex :=
  Alt (Plus (Cls ["#"; "$"]%char)) (Cls ["!"; "@"]%char).

(** [chr(n)] for [0 <= n < 256]. *)
Definition chr (n : Z) : ascii := ascii_of_N (Z.to_N n).

(** [intToLetters(num, width)]. *)
Fixpoint intToLetters_loop (width : nat) (num : Z) (result : str) : str :=
  match width with
  | O => result
  | S width' =>
      intToLetters_loop width' (num / 26) (result ++ [chr (num mod 26 + 65)])
  end.

Definition intToLetters (num : Z) (width : nat) : str :=
  rev (intToLetters_loop width (num - 1) []).

(** [replacer(match)] inside [computeNewNameForItem(item, seq)];
    [token[0]] of an empty token raises [IndexError]. *)
Definition replacer (u : Ui) (item : nat) (seq : Z) (token : str) : res str :=
  match token with
  | [] => Raise IndexError
  | c :: _ =>
      if Ascii.eqb c "#" then Ok (format_0d (Z.to_N seq) (length token))
      else if Ascii.eqb c "$" then Ok (intToLetters seq (length token))
      else if Ascii.eqb c "@" then
        match item_parent (topLevel u) item with
        | Some parent => Ok (item_text u parent)
        | None => Ok (item_text u item)
        end
      else if Ascii.eqb c "!" then Ok (item_text u item)
      else Raise AssertionError
  end.

Definition computeNewNameForItem (u : Ui) (specialText : str) (item : nat)
    (seq : Z) : res str :=
  re_sub SPECIAL_RE (replacer u item seq) specialText.

(** [[f(item, i + 1) for i, item in enumerate(items)]], starting at [i]. *)
Fixpoint newNames_from (u : Ui) (specialText : str) (i : Z)
    (items : list nat) : res (list str) :=
  match items with
  | [] => Ok []
  | item :: items' =>
      n ← computeNewNameForItem u specialText item (i + 1);
      ns ← newNames_from u specialText (i + 1) items';
      Ok (n :: ns)
  end.

(** The items of a special rename, in renaming order. *)
Definition preOrderedItems (u : Ui) (selectionOrderReversed : bool)
  : list nat :=
  let allItems := traversePreOrder (topLevel u) in
  let ordered :=
    List.filter (fun item => bool_decide (item ∈ selected u)) allItems in
  if selectionOrderReversed then rev ordered else ordered.

(** [DagRenamer.applySpecialRenameToTree]. *)
Definition applySpecialRenameToTree (u : Ui) (specialText : str)
    (selectionOrderReversed : bool) : res Ui :=
  let specialText := strip (first_line specialText) in
  match selected u with
  | [] => Ok u
  | _ :: _ =>
      let items := preOrderedItems u selectionOrderReversed in
      let oldNames := map (item_text u) items in
      newNames ← newNames_from u specialText 0 items;
      Ok (push (mkMultiRenameCommand items newNames oldNames) u)
  end.

End DagRenamer.

(** ** [list.sort(key=...)]

    Python's sort is stable and compares keys with [<]; a stable sort has one
    result, which insertion from the right computes: [x] goes in front of the
    first element whose key is not below its own. *)

Module PySort.

Section Sort.
Context {A K : Type} (ltb : K -> K -> bool) (key : A -> K).

Fixpoint insert_by (x : A) (l : list A) : list A :=
  match l with
  | [] => [x]
  | y :: l' => if ltb (key y) (key x) then y :: insert_by x l' else x :: l
  end.

Fixpoint sort_by (l : list A) : list A :=
  match l with
  | [] => []
  | x :: l' => insert_by x (sort_by l')
  end.

End Sort.

End PySort.
Export PySort.

(** ** The curve extraction tool ([ala_curveExtraction.py]) *)

Module CurveExtraction.

Section Extract.

(** World positions and curve parameters are the host's floating point
    values; the tool only passes positions on and orders parameters, so both
    are kept abstract, with the comparison [<] on parameters. *)
Context {Point Param : Type} (param_ltb : Param -> Param -> bool).

(** What the Maya session answers to the queries of [_extractCurve]. *)
Record Host : Type := mkHost {
  ls_selection : list str;                 (* cmds.ls(selection=True, flatten=True) *)
  pointPosition : str -> Point;            (* cmds.pointPosition(v, world=True) *)
  listRelatives_shapes : str -> option (list str);
                                           (* cmds.listRelatives(n, shapes=True) *)
  closestPoint : str -> Point -> Param;    (* MFnNurbsCurve(shape).closestPoint *)
  spaceLocator : str -> str;               (* the node made for a requested name *)
  locatorShape : str -> str;               (* the shape node of a new locator *)
  pathAnimation : str -> str -> str        (* the motion path node made *)
}.

(** The calls made into the host, in program order. *)
Inductive Call : Type :=
| ClosestPoint (curveShape : str) (p : Point)
| SpaceLocator (name : str)
| Xform (loc : str) (pos : Point)
| SetLocalScale (locShape : str)
| PathAnimation (loc curve : str)
| SetUValue (motionPath : str) (u : Param)
| DisconnectUValue (motionPath : str).

(** [f"locator_{i+1}"]. *)
Definition locator_name (i : nat) : str :=
  py "locator_" ++ str_of_N (N.of_nat (i + 1)).

(** The body of the last loop, for the [i]-th pair. *)
Definition place_locator (h : Host) (targetCurve : str) (i : nat)
    (pu : Point * Param) : list Call :=
  let loc := spaceLocator h (locator_name i) in
  let motionPathNode := pathAnimation h loc targetCurve in
  [ SpaceLocator (locator_name i);
    Xform loc (fst pu);
    SetLocalScale (locatorShape h loc);
    PathAnimation loc targetCurve;
    SetUValue motionPathNode (snd pu);
    DisconnectUValue motionPathNode ].

(** [for i, x in enumerate(l)], from index [i]. *)
Fixpoint place_locators (h : Host) (targetCurve : str) (i : nat)
    (l : list (Point * Param)) : list Call :=
  match l with
  | [] => []
  | pu :: l' =>
      place_locator h targetCurve i pu ++ place_locators h targetCurve (S i) l'
  end.

(** [CurveExtraction._extractCurve]: the calls it makes, or the error it
    stops with ([cmds.error] raises [RuntimeError]; indexing [None] raises
    [TypeError], indexing an empty list [IndexError]). *)
Definition extractCurve (h : Host) (targetCurve : option str)
  : res (list Call) :=
  match targetCurve with
  | None | Some [] => Raise RuntimeError
  | Some target =>
      let selections := ls_selection h in
      match selections with
      | [] => Raise RuntimeError
      | _ :: _ =>
          let points := map (pointPosition h) selections in
          if (length points <? 2)%nat then Raise RuntimeError
          else
            match listRelatives_shapes h target with
            | None => Raise TypeError
            | Some [] => Raise IndexError
            | Some (curveShape :: _) =>
                let pointsAndUValues :=
                  map (fun pos => (pos, closestPoint h curveShape pos)) points in
                let queries := map (ClosestPoint curveShape) points in
                let sorted := sort_by param_ltb snd pointsAndUValues in
                Ok (queries ++ place_locators h target 0 sorted)
            end
      end
  end.

(** What a list of calls holds of each kind, in order. *)
Definition closest_queries (cs : list Call) : list (str * Point) :=
  flat_map (fun c => match c with ClosestPoint sh p => [(sh, p)] | _ => [] end) cs.

Definition locators_made (cs : list Call) : list str :=
  flat_map (fun c => match c with SpaceLocator n => [n] | _ => [] end) cs.

Definition positions_set (cs : list Call) : list Point :=
  flat_map (fun c => match c with Xform _ p => [p] | _ => [] end) cs.

Definition uvalues_set (cs : list Call) : list Param :=
  flat_map (fun c => match c with SetUValue _ u => [u] | _ => [] end) cs.

(** The same, with the node each call is made on. *)
Definition nodes_moved (cs : list Call) : list (str * Point) :=
  flat_map (fun c => match c with Xform loc p => [(loc, p)] | _ => [] end) cs.

Definition paths_attached (cs : list Call) : list (str * str) :=
  flat_map (fun c => match c with PathAnimation loc c => [(loc, c)] | _ => [] end) cs.

Definition uvalues_on (cs : list Call) : list (str * Param) :=
  flat_map (fun c => match c with SetUValue mp u => [(mp, u)] | _ => [] end) cs.

End Extract.

(** A session with three selected vertices whose parameters on the curve
    are 7, 2 and 5. *)
Definition example_host : Host (Point := Z) (Param := Z) :=
  mkHost [py "v0"; py "v1"; py "v2"]
         (fun v => if bool_decide (v = py "v0") then 10
                   else if bool_decide (v = py "v1") then 20 else 30)
         (fun _ => Some [py "curveShape1"])
         (fun _ p => if p =? 10 then 7 else if p =? 20 then 2 else 5)
         (fun n => n)
         (fun loc => loc ++ py "Shape")
         (fun loc _ => py "motionPath_" ++ loc).

(** The same session after the tool has run once: the scene holds
    [locator_1], [locator_2] and [locator_3], and the host, which gives a
    new node a name no other node has, answers the three requests with
    [locator_4], [locator_5] and [locator_6]. *)
Definition second_run_host : Host (Point := Z) (Param := Z) :=
  mkHost (ls_selection example_host) (pointPosition example_host)
         (listRelatives_shapes example_host) (closestPoint example_host)
         (fun n => if bool_decide (n = py "locator_1") then py "locator_4"
                   else if bool_decide (n = py "locator_2") then py "locator_5"
                   else if bool_decide (n = py "locator_3") then py "locator_6"
                   else n)
         (locatorShape example_host) (pathAnimation example_host).

End CurveExtraction.

(** ** The rig colour tool ([ala_rigColor.py]) *)

Module RigColor.

(** *** Colour bookmarks *)

(** The value [json.loads] returns.  Numbers are kept as rationals. *)
Inductive json : Type :=
| JNull
| JBool (b : bool)
| JNum (q : Q)
| JStr (s : str)
| JArr (l : list json)
| JObj (l : list (str * json)).

(** [len(v)] for a value [json.loads] returned. *)
Definition py_len (v : json) : res nat :=
  match v with
  | JArr l => Ok (length l)
  | JStr s => Ok (length s)
  | JObj l => Ok (length l)
  | JNull | JBool _ | JNum _ => Raise TypeError
  end.

(** The text a string attribute holds, by what [json.loads] makes of it:
    [NoJson s] is a text [s] that is no JSON document ([json.loads] raises
    [JSONDecodeError], a [ValueError]); [JsonText v] is the text of the
    document [v], which is also what [json.dumps(v)] writes. *)
Inductive AttrText : Type :=
| NoJson (s : str)
| JsonText (v : json).

Definition json_loads (t : AttrText) : res json :=
  match t with
  | NoJson _ => Raise ValueError
  | JsonText v => Ok v
  end.

Definition json_dumps (v : json) : AttrText := JsonText v.

(** The part of the Maya scene the bookmark code touches. *)
Record Scene : Type := mkScene {
  nodes : gset str;                       (* cmds.objExists *)
  stringAttrs : gmap (str * str) AttrText;  (* string attributes, by node and name *)
  warnings : list str
}.

Definition objExists (sc : Scene) (n : str) : bool := bool_decide (n ∈ nodes sc).

Definition createNode (n : str) (sc : Scene) : Scene :=
  mkScene ({[n]} ∪ nodes sc) (stringAttrs sc) (warnings sc).

(** [cmds.addAttr(..., dataType="string")]: the new attribute is empty. *)
Definition addAttr (n a : str) (sc : Scene) : Scene :=
  mkScene (nodes sc) (<[(n, a) := NoJson []]> (stringAttrs sc)) (warnings sc).

Definition setAttr (n a : str) (t : AttrText) (sc : Scene) : Scene :=
  mkScene (nodes sc) (<[(n, a) := t]> (stringAttrs sc)) (warnings sc).

Definition attributeQuery_exists (sc : Scene) (n a : str) : bool :=
  bool_decide (is_Some (stringAttrs sc !! (n, a))).

Definition getAttr (sc : Scene) (n a : str) : AttrText :=
  default (NoJson []) (stringAttrs sc !! (n, a)).

Definition warning (msg : str) (sc : Scene) : Scene :=
  mkScene (nodes sc) (stringAttrs sc) (msg :: warnings sc).

Definition MSG_MISMATCH : str :=
  py "Mismatch in number of color entries. Using default colors.".
Definition MSG_NO_JSON : str :=
  py "Could not recognise JSON. Using default colors.".

(** [ColorBookmarkSaver.loadOrCreateColorBookmarks]: the value returned (or
    the exception) and the scene afterwards.  The [try] catches
    [ValueError] only. *)
Definition loadOrCreateColorBookmarks (sc : Scene)
    (dataNodeName dataNodeAttrName : str) (defaultColors : list json)
  : res json * Scene :=
  if negb (objExists sc dataNodeName) then
    let sc := createNode dataNodeName sc in
    let sc := addAttr dataNodeName dataNodeAttrName sc in
    let sc := setAttr dataNodeName dataNodeAttrName
                (json_dumps (JArr defaultColors)) sc in
    (Ok (JArr defaultColors), sc)
  else if negb (attributeQuery_exists sc dataNodeName dataNodeAttrName) then
    let sc := addAttr dataNodeName dataNodeAttrName sc in
    let sc := setAttr dataNodeName dataNodeAttrName
                (json_dumps (JArr defaultColors)) sc in
    (Ok (JArr defaultColors), sc)
  else
    match json_loads (getAttr sc dataNodeName dataNodeAttrName) with
    | Ok colors =>
        match py_len colors with
        | Ok n =>
            if negb (n =? length defaultColors)%nat then
              let sc := warning MSG_MISMATCH sc in
              let sc := setAttr dataNodeName dataNodeAttrName
                          (json_dumps (JArr defaultColors)) sc in
              (Ok (JArr defaultColors), sc)
            else (Ok colors, sc)
        | Raise e =>
            (* [len] raised inside the [try]: caught only if a ValueError *)
            (Raise e, sc)
        end
    | Raise ValueError =>
        let sc := warning MSG_NO_JSON sc in
        let sc := setAttr dataNodeName dataNodeAttrName
                    (json_dumps (JArr defaultColors)) sc in
        (Ok (JArr defaultColors), sc)
    | Raise e => (Raise e, sc)
    end.

(** [ColorBookmarkSaver.saveColorBookmarks]. *)
Definition saveColorBookmarks (sc : Scene)
    (dataNodeName dataNodeAttrName : str) (bookmarklist : list json)
  : res unit * Scene :=
  match loadOrCreateColorBookmarks sc dataNodeName dataNodeAttrName
          bookmarklist with
  | (Ok _, sc) =>
      (Ok tt, setAttr dataNodeName dataNodeAttrName
                (json_dumps (JArr bookmarklist)) sc)
  | (Raise e, sc) => (Raise e, sc)
  end.

(** *** Joints into display layers *)

Definition LAYER_NAME_JNT_BS : str := py "BS".
Definition LAYER_NAME_JNT_FK : str := py "FK".
Definition LAYER_NAME_JNT_IK : str := py "IK".

(** [r"JNT[E]?_XY"] for the two letters [x], [y]. *)
Definition jnt_pattern (x y : ascii) : regex :=
  Seq (Lit "J") (Seq (Lit "N") (Seq (Lit "T")
    (Seq (Opt (Cls ["E"%char])) (Seq (Lit "_") (Seq (Lit x) (Lit y)))))).

Definition REGEX_PATTERN_JNT_BS : regex := jnt_pattern "B" "S".
Definition REGEX_PATTERN_JNT_FK : regex := jnt_pattern "F" "K".
Definition REGEX_PATTERN_JNT_IK : regex := jnt_pattern "I" "K".

Abbreviation Colour := (list Q).

(** The layer bookmark bar: its labels and the colours of its buttons. *)
Record ColorBookmarkBar : Type := mkBar {
  labels : list str;
  colorButtons : list Colour
}.

(** [labels.index(label)]: [ValueError] when the label is absent. *)
Fixpoint list_index (label : str) (l : list str) : res nat :=
  match l with
  | [] => Raise ValueError
  | x :: l' =>
      if bool_decide (x = label) then Ok O
      else i ← list_index label l'; Ok (S i)
  end.

(** [ColorBookmarkBar.getColorFromLabel]. *)
Definition getColorFromLabel (bar : ColorBookmarkBar) (label : str)
  : res Colour :=
  index ← list_index label (labels bar);
  match colorButtons bar !! index with
  | Some c => Ok c
  | None => Raise IndexError
  end.

(** The part of the Maya scene [_categoriseJointsIntoLayers] works on.
    [allDescendents] is [cmds.listRelatives(o, allDescendents=True,
    fullPath=True)], which is [None] when [o] has no descendant. *)
Record Rig : Type := mkRig {
  selection : list str;                    (* cmds.ls(selection=True, long=True) *)
  objects : gset str;                      (* cmds.objExists *)
  allDescendents : str -> option (list str);
  objectType : str -> str;                 (* cmds.objectType *)
  layerOf : gmap str str;                  (* the display layer of a node *)
  layerColour : gmap str Colour;           (* overrideColorRGB of a layer *)
  rig_warnings : list str
}.

Definition rig_warning (msg : str) (r : Rig) : Rig :=
  mkRig (selection r) (objects r) (allDescendents r) (objectType r)
        (layerOf r) (layerColour r) (msg :: rig_warnings r).

(** [cmds.createDisplayLayer(name=..., empty=True)]. *)
Definition createDisplayLayer (name : str) (r : Rig) : Rig :=
  mkRig (selection r) ({[name]} ∪ objects r) (allDescendents r) (objectType r)
        (layerOf r) (layerColour r) (rig_warnings r).

(** [setLayerColor(layerName, color)]. *)
Definition setLayerColor (layerName : str) (color : Colour) (r : Rig) : Rig :=
  mkRig (selection r) (objects r) (allDescendents r) (objectType r)
        (layerOf r) (<[layerName := color]> (layerColour r)) (rig_warnings r).

(** [cmds.editDisplayLayerMembers(layer, joint, noRecurse=True)]. *)
Definition editDisplayLayerMembers (layer joint : str) (r : Rig) : Rig :=
  mkRig (selection r) (objects r) (allDescendents r) (objectType r)
        (<[joint := layer]> (layerOf r)) (layerColour r) (rig_warnings r).

(** [joint.split("|")[-1]]: the text after the last bar. *)
Fixpoint last_segment_aux (s acc : str) : str :=
  match s with
  | [] => rev acc
  | c :: s' =>
      if Ascii.eqb c "|" then last_segment_aux s' []
      else last_segment_aux s' (c :: acc)
  end.

Definition last_segment (s : str) : str := last_segment_aux s [].

Definition MSG_NO_LAYER (joint : str) : str :=
  py "Could not categorise " ++ joint ++ py " into any layer.".

(** [categoriseJoint(joint)]. *)
Definition categoriseJoint (joint : str) (r : Rig) : Rig :=
  let jointShortName := last_segment joint in
  if re_search REGEX_PATTERN_JNT_BS jointShortName then
    editDisplayLayerMembers LAYER_NAME_JNT_BS joint r
  else if re_search REGEX_PATTERN_JNT_FK jointShortName then
    editDisplayLayerMembers LAYER_NAME_JNT_FK joint r
  else if re_search REGEX_PATTERN_JNT_IK jointShortName then
    editDisplayLayerMembers LAYER_NAME_JNT_IK joint r
  else rig_warning (MSG_NO_LAYER joint) r.

Definition JOINT : str := py "joint".

(** The inner loop over the descendants of one object. *)
Definition categoriseDescendents (ds : list str) (r : Rig) : Rig :=
  fold_left (fun r d =>
    if bool_decide (objectType r d = JOINT) then categoriseJoint d r else r)
    ds r.

(** One round of the loop over the selected objects; iterating [None]
    raises [TypeError]. *)
Definition categoriseObject (applyDescendents : bool) (object : str) (r : Rig)
  : res unit * Rig :=
  let step (r : Rig) :=
    if bool_decide (objectType r object = JOINT)
    then categoriseJoint object r else r in
  if applyDescendents then
    match allDescendents r object with
    | None => (Raise TypeError, r)
    | Some ds => (Ok tt, step (categoriseDescendents ds r))
    end
  else (Ok tt, step r).

Fixpoint categoriseObjects (applyDescendents : bool) (objs : list str)
    (r : Rig) : res unit * Rig :=
  match objs with
  | [] => (Ok tt, r)
  | o :: objs' =>
      match categoriseObject applyDescendents o r with
      | (Ok _, r') => categoriseObjects applyDescendents objs' r'
      | (Raise e, r') => (Raise e, r')
      end
  end.

(** Create a layer with its bookmarked colour unless an object of that name
    exists. *)
Definition ensureLayer (bar : ColorBookmarkBar) (name : str) (r : Rig)
  : res unit * Rig :=
  if negb (bool_decide (name ∈ objects r)) then
    let r := createDisplayLayer name r in
    match getColorFromLabel bar name with
    | Ok c => (Ok tt, setLayerColor name c r)
    | Raise e => (Raise e, r)
    end
  else (Ok tt, r).

Definition overwriteColor (bar : ColorBookmarkBar) (name : str) (r : Rig)
  : res unit * Rig :=
  match getColorFromLabel bar name with
  | Ok c => (Ok tt, setLayerColor name c r)
  | Raise e => (Raise e, r)
  end.

(** Sequencing of steps that change the scene and may raise. *)
Definition and_then (m : res unit * Rig) (k : Rig -> res unit * Rig)
  : res unit * Rig :=
  match m with
  | (Ok _, r) => k r
  | (Raise e, r) => (Raise e, r)
  end.

Definition MSG_SELECT : str := py "Please select at least one object.".

(** [RigColor._categoriseJointsIntoLayers]. *)
Definition categoriseJointsIntoLayers (bar : ColorBookmarkBar)
    (applyDescendents overwriteLayerColor : bool) (r : Rig)
  : res unit * Rig :=
  let selectedObjects := selection r in
  match selectedObjects with
  | [] => (Ok tt, rig_warning MSG_SELECT r)
  | _ :: _ =>
      and_then (ensureLayer bar LAYER_NAME_JNT_BS r) (fun r =>
      and_then (ensureLayer bar LAYER_NAME_JNT_FK r) (fun r =>
      and_then (ensureLayer bar LAYER_NAME_JNT_IK r) (fun r =>
      and_then
        (if overwriteLayerColor then
           and_then (overwriteColor bar LAYER_NAME_JNT_BS r) (fun r =>
           and_then (overwriteColor bar LAYER_NAME_JNT_FK r) (fun r =>
           overwriteColor bar LAYER_NAME_JNT_IK r))
         else (Ok tt, r)) (fun r =>
      categoriseObjects applyDescendents selectedObjects r))))
  end.

(** The bar [RigColor._setupUi] builds: three labels, three buttons. *)
Definition layer_bar (bs fk ik : Colour) : ColorBookmarkBar :=
  mkBar [LAYER_NAME_JNT_BS; LAYER_NAME_JNT_FK; LAYER_NAME_JNT_IK] [bs; fk; ik].

(** *** Example scenes *)

Definition DATA_NODE : str := py "colorBookmarksData".
Definition LAYER_ATTR : str := py "layer".

Definition LAYER_DEFAULT_COLOR_JNT_BS : Colour := [1; 1; 0]%Q.
Definition LAYER_DEFAULT_COLOR_JNT_FK : Colour := [0; 0; 1]%Q.
Definition LAYER_DEFAULT_COLOR_JNT_IK : Colour := [1; 0; 0]%Q.

Definition json_colour (c : Colour) : json := JArr (map JNum c).

(** The default colours of the layer bar, as [ColorBookmarkBar] passes
    them to [loadOrCreateColorBookmarks]. *)
Definition layer_defaults : list json :=
  map json_colour [LAYER_DEFAULT_COLOR_JNT_BS; LAYER_DEFAULT_COLOR_JNT_FK;
                   LAYER_DEFAULT_COLOR_JNT_IK].

(** A scene whose bookmark attribute holds the text [7]: a JSON document,
    but no list of colours. *)
Definition number_scene : Scene :=
  mkScene {[DATA_NODE]} {[(DATA_NODE, LAYER_ATTR) := JsonText (JNum 7)]} [].

(** A scene whose bookmark attribute holds the text ["abc"], a JSON string
    of length three. *)
Definition string_scene : Scene :=
  mkScene {[DATA_NODE]} {[(DATA_NODE, LAYER_ATTR) := JsonText (JStr (py "abc"))]} [].

(** A scene whose bookmark attribute holds three stored colours. *)
Definition stored_colours : list json :=
  map json_colour [[0; 1; 0]; [0; 0; 0]; [1; 1; 1]]%Q.

Definition stored_scene : Scene :=
  mkScene {[DATA_NODE]} {[(DATA_NODE, LAYER_ATTR) := JsonText (JArr stored_colours)]} [].

Definition default_bar : ColorBookmarkBar :=
  layer_bar LAYER_DEFAULT_COLOR_JNT_BS LAYER_DEFAULT_COLOR_JNT_FK
    LAYER_DEFAULT_COLOR_JNT_IK.

(** A rig in which the one selected joint, a tip joint, has nothing below
    it: [listRelatives] answers [None]. *)
Definition TIP_JOINT : str := py "|root|JNT_BS_tip".

Definition tip_rig : Rig :=
  mkRig [TIP_JOINT] ∅ (fun _ => None) (fun _ => JOINT) ∅ ∅ [].

(** A rig in which the selected joint has two joints and a locator below. *)
Definition CHAIN_TOP : str := py "|JNTE_FK_arm".
Definition CHAIN_MID : str := py "|JNTE_FK_arm|JNT_IK_elbow".
Definition CHAIN_END : str := py "|JNTE_FK_arm|JNT_IK_elbow|hand_JNT".
Definition CHAIN_LOC : str := py "|JNTE_FK_arm|loc".

Definition chain_rig : Rig :=
  mkRig [CHAIN_TOP] ∅
        (fun o => if bool_decide (o = CHAIN_TOP)
                  then Some [CHAIN_END; CHAIN_MID; CHAIN_LOC] else None)
        (fun o => if bool_decide (o = CHAIN_LOC) then py "transform" else JOINT)
        ∅ ∅ [].

(** The layer a joint name stands for: the first pattern, in the order BS,
    FK, IK, found in its short name. *)
Definition layer_for (joint : str) : option str :=
  let n := last_segment joint in
  if re_search REGEX_PATTERN_JNT_BS n then Some LAYER_NAME_JNT_BS
  else if re_search REGEX_PATTERN_JNT_FK n then Some LAYER_NAME_JNT_FK
  else if re_search REGEX_PATTERN_JNT_IK n then Some LAYER_NAME_JNT_IK
  else None.

(** The joints a run works on: for each selected object its descendant
    joints (when asked for), then the object itself if it is a joint. *)
Definition processed_joints (applyDescendents : bool) (r : Rig) : list str :=
  flat_map (fun o =>
    (if applyDescendents
     then List.filter (fun d => bool_decide (objectType r d = JOINT))
            (default [] (allDescendents r o))
     else [])
    ++ (if bool_decide (objectType r o = JOINT) then [o] else []))
    (selection r).

End RigColor.

(** ** The asset catalogue importer ([importassetscatalogue.py]) *)

Module ImportAssets.

(** *** Scanning the assets directory *)

(** The members of the two extension sets.  A Python [set] of strings is
    iterated in an order that is fixed during a run but not across runs
    (string hashing is seeded per process), so the loops over these sets
    take the order of the run as an argument, a permutation of the list. *)
Definition USD_EXTENSIONS : list str := [py ".usd"; py ".usda"; py ".usdc"].
Definition THUMBNAIL_EXTENSIONS : list str := [py ".jpg"; py ".png"; py ".jpeg"].

Definition in_set (x : str) (s : list str) : bool := bool_decide (x ∈ s).

(** A directory tree on a case-sensitive file system.  The entries of a
    directory are listed in the order [iterdir()] yields them. *)
Inductive node : Type :=
| File
| Dir (entries : list (str * node)).

Definition is_file (n : node) : bool :=
  match n with File => true | Dir _ => false end.

Definition is_dir (n : node) : bool :=
  match n with File => false | Dir _ => true end.

(** [directory / name], when it exists. *)
Fixpoint lookup_entry (name : str) (entries : list (str * node))
  : option node :=
  match entries with
  | [] => None
  | (n, nd) :: entries' =>
      if bool_decide (n = name) then Some nd else lookup_entry name entries'
  end.

(** [p.exists() and p.is_file()] for [p = directory / name]. *)
Definition file_exists (entries : list (str * node)) (name : str) : bool :=
  match lookup_entry name entries with
  | Some File => true
  | _ => false
  end.

(** [name.rfind('.')]. *)
Fixpoint rfind_dot_aux (s : str) (i : nat) (last : option nat) : option nat :=
  match s with
  | [] => last
  | c :: s' =>
      rfind_dot_aux s' (S i) (if Ascii.eqb c "." then Some i else last)
  end.

Definition rfind_dot (s : str) : option nat := rfind_dot_aux s 0 None.

(** [PurePath.suffix] and [PurePath.stem] of a file name: split at the last
    dot unless it is the first or the last character. *)
Definition split_point (name : str) : option nat :=
  match rfind_dot name with
  | Some i => if (0 <? i)%nat && (i <? length name - 1)%nat then Some i else None
  | None => None
  end.

Definition suffix (name : str) : str :=
  match split_point name with
  | Some i => drop i name
  | None => []
  end.

Definition stem (name : str) : str :=
  match split_point name with
  | Some i => take i name
  | None => name
  end.

(** [AssetInfo]; files are named inside the asset directory, variants
    inside its [variants] directory. *)
Record AssetInfo : Type := mkAssetInfo {
  name : str;
  primary_file : str;
  thumbnail : option str;
  variants : list (str * option str)
}.

(** The first entry of a listing that is a file with a wanted name. *)
Definition find_file (wanted : str -> bool) (entries : list (str * node))
  : option str :=
  fst <$> List.find (fun e => is_file (snd e) && wanted (fst e)) entries.

(** [find_thumbnail(directory, base_name, case_insensitive)]. *)
Definition find_thumbnail (thumb_order : list str)
    (entries : list (str * node)) (base_name : str) (case_insensitive : bool)
  : option str :=
  match List.find (fun ext => file_exists entries (base_name ++ ext))
          thumb_order with
  | Some ext => Some (base_name ++ ext)
  | None =>
      if case_insensitive then
        let target_names :=
          map (fun ext => lower (base_name ++ ext)) THUMBNAIL_EXTENSIONS in
        find_file (fun n => in_set (lower n) target_names) entries
      else None
  end.

Definition VARIANTS : str := py "variants".
Definition THUMBNAIL : str := py "thumbnail".
Definition _THUMBNAIL : str := py "_thumbnail".

(** The loop over [variants_dir.iterdir()]. *)
Definition scan_variants (thumb_order : list str)
    (ventries : list (str * node)) (case_insensitive : bool)
  : list (str * option str) :=
  map (fun e =>
         (fst e,
          find_thumbnail thumb_order ventries (stem (fst e) ++ _THUMBNAIL)
            case_insensitive))
      (List.filter (fun e => is_file (snd e) && in_set (suffix (fst e)) USD_EXTENSIONS)
         ventries).

(** [scan_asset_directory(asset_dir, case_insensitive)] for the entry
    [asset_name] of the assets directory. *)
Definition scan_asset_directory (usd_order thumb_order : list str)
    (asset_name : str) (asset_dir : node) (case_insensitive : bool)
  : option AssetInfo :=
  match asset_dir with
  | File => None
  | Dir entries =>
      let exact :=
        (fun ext => asset_name ++ ext) <$>
          List.find (fun ext => file_exists entries (asset_name ++ ext))
            usd_order in
      let primary :=
        match exact with
        | Some f => Some f
        | None =>
            if case_insensitive then
              let target_names :=
                map (fun ext => lower (asset_name ++ ext)) USD_EXTENSIONS in
              find_file (fun n => in_set (lower n) target_names) entries
            else None
        end in
      match primary with
      | None => None
      | Some primary_file =>
          let thumbnail :=
            find_thumbnail thumb_order entries THUMBNAIL case_insensitive in
          let variants :=
            match lookup_entry VARIANTS entries with
            | Some (Dir ventries) =>
                scan_variants thumb_order ventries case_insensitive
            | _ => []
            end in
          Some (mkAssetInfo asset_name primary_file thumbnail variants)
      end
  end.

(** The loop over [assets_dir.iterdir()]. *)
Fixpoint scan_entries (usd_order thumb_order : list str)
    (entries : list (str * node)) (case_insensitive : bool)
  : list AssetInfo :=
  match entries with
  | [] => []
  | (n, nd) :: entries' =>
      let rest := scan_entries usd_order thumb_order entries' case_insensitive in
      if is_dir nd then
        match scan_asset_directory usd_order thumb_order n nd
                case_insensitive with
        | Some asset_info => asset_info :: rest
        | None => rest
        end
      else rest
  end.

(** [scan_assets_directory(assets_dir, case_insensitive)]; [None] is a path
    that does not exist. *)
Definition scan_assets_directory (usd_order thumb_order : list str)
    (assets_dir : option node) (case_insensitive : bool) : list AssetInfo :=
  match assets_dir with
  | None => []
  | Some File => []
  | Some (Dir entries) =>
      sort_by str_ltb name
        (scan_entries usd_order thumb_order entries case_insensitive)
  end.

(** *** Importing into the asset gallery *)

(** An item of the asset gallery database. *)
Record Item : Type := mkItem {
  it_id : nat;
  it_label : str;
  it_path : str
}.

(** The data source, which the host owns.  Its contract, as the importer
    relies on it: [startTransaction] opens a transaction, additions made
    inside it are dropped by [endTransaction(commit=False)] and kept by
    [endTransaction(commit=True)]. *)
Record Db : Type := mkDb {
  items : list Item;
  snapshot : option (list Item)   (* the items when the transaction opened *)
}.

Inductive Metadata : Type :=
| PrimaryMeta (file_size : Z) (extension imported_at : str) (has_variants : bool)
| VariantMeta (file_size : Z) (extension imported_at parent_asset : str).

(** The calls made on the data source, in program order. *)
Inductive DbCall : Type :=
| StartTransaction
| AddItem (label file_path thumbnail : str) (creation_date : Z)
| SetMetadata (id : nat) (m : Metadata)
| AddTag (id : nat) (tag : str)
| EndTransaction (commit : bool).

Record World : Type := mkWorld {
  db : Db;
  calls : list DbCall     (* latest last *)
}.

(** What the operating system and the host answer during a run. *)
Record Env : Type := mkEnv {
  resolve : str -> res str;            (* str(path.resolve()) *)
  abspath : str -> str;                (* os.path.abspath *)
  path_exists : str -> bool;           (* thumbnail_path.exists() *)
  read_bytes : str -> res str;         (* open(path, 'rb').read() *)
  generate_thumbnail_from_usd : str -> res str;
  getctime : str -> res Z;             (* os.path.getctime *)
  getsize : str -> res Z;              (* os.path.getsize *)
  strftime : str;                      (* time.strftime(...) *)
  itemIds_error : option exn;          (* datasource.itemIds() raising *)
  filePath_error : nat -> option exn;  (* datasource.filePath(id) raising *)
  addItem_result : str -> str -> res (option nat);
                                       (* by label and path: the new id, a
                                          false value, or an exception *)
  setMetadata_error : nat -> option exn;
  addTag_error : nat -> str -> option exn;
  endTransaction_error : bool -> option exn;
  opens : bool;                        (* create_or_open_database succeeds *)
  isReadOnly : bool
}.

(** Code that changes the world and may raise; the changes made before an
    exception stay. *)
Definition M (A : Type) : Type := World -> res A * World.

#[global] Instance M_ret : MRet M := fun A a w => (Ok a, w).
#[global] Instance M_bind : MBind M := fun A B k m w =>
  match m w with
  | (Ok a, w') => k a w'
  | (Raise e, w') => (Raise e, w')
  end.

Definition lift {A} (r : res A) : M A := fun w => (r, w).

Definition raise_if (e : option exn) : M unit :=
  match e with
  | Some e => lift (Raise e)
  | None => mret tt
  end.

(** [try: m except Exception: h]. *)
Definition try_except {A} (m : M A) (h : exn -> M A) : M A := fun w =>
  match m w with
  | (Raise e, w') => if is_Exception e then h e w' else (Raise e, w')
  | r => r
  end.

Definition log_call (c : DbCall) : M unit := fun w =>
  (Ok tt, mkWorld (db w) (calls w ++ [c])).

Definition update_db (f : Db -> Db) : M unit := fun w =>
  (Ok tt, mkWorld (f (db w)) (calls w)).

Definition startTransaction : M unit :=
  _ ← log_call StartTransaction;
  update_db (fun d => mkDb (items d) (Some (items d))).

Definition endTransaction (env : Env) (commit : bool) : M unit :=
  _ ← log_call (EndTransaction commit);
  _ ← raise_if (endTransaction_error env commit);
  update_db (fun d =>
    if commit then mkDb (items d) None
    else mkDb (default (items d) (snapshot d)) None).

Definition addItem (env : Env) (label file_path thumbnail : str)
    (creation_date : Z) : M (option nat) :=
  _ ← log_call (AddItem label file_path thumbnail creation_date);
  id ← lift (addItem_result env label file_path);
  match id with
  | Some i =>
      _ ← update_db (fun d =>
            mkDb (items d ++ [mkItem i label file_path]) (snapshot d));
      mret (Some i)
  | None => mret None
  end.

Definition setMetadata (env : Env) (id : nat) (m : Metadata) : M unit :=
  _ ← log_call (SetMetadata id m);
  raise_if (setMetadata_error env id).

Definition addTag (env : Env) (id : nat) (tag : str) : M unit :=
  _ ← log_call (AddTag id tag);
  raise_if (addTag_error env id tag).

(** [for tag in tags: datasource.addTag(id, tag)]. *)
Fixpoint addTags (env : Env) (id : nat) (tags : list str) : M unit :=
  match tags with
  | [] => mret tt
  | tag :: tags' => _ ← addTag env id tag; addTags env id tags'
  end.

(** [get_existing_asset_paths(datasource)]; an empty path is skipped. *)
Fixpoint collect_paths (env : Env) (its : list Item) (acc : gset str)
  : res unit * gset str :=
  match its with
  | [] => (Ok tt, acc)
  | it :: its' =>
      match filePath_error env (it_id it) with
      | Some e => (Raise e, acc)
      | None =>
          collect_paths env its'
            (match it_path it with
             | [] => acc
             | _ :: _ => {[abspath env (it_path it)]} ∪ acc
             end)
      end
  end.

Definition get_existing_asset_paths (env : Env) : M (gset str) := fun w =>
  let r :=
    match itemIds_error env with
    | Some e => (Raise e, ∅)
    | None => collect_paths env (items (db w)) ∅
    end in
  match r with
  | (Ok _, acc) => (Ok acc, w)
  | (Raise e, acc) => if is_Exception e then (Ok acc, w) else (Raise e, w)
  end.

(** [load_thumbnail(thumbnail_path, generate_if_missing, usd_file_path)]. *)
Definition load_thumbnail (env : Env) (thumbnail_path : option str)
    (generate_if_missing : bool) (usd_file_path : str) : M str :=
  let otherwise : M str :=
    if generate_if_missing
    then lift (generate_thumbnail_from_usd env usd_file_path)
    else mret [] in
  match thumbnail_path with
  | Some p =>
      if path_exists env p then
        match read_bytes env p with
        | Ok data => mret data
        | Raise e => if is_Exception e then otherwise else lift (Raise e)
        end
      else otherwise
  | None => otherwise
  end.

(** Paths below the assets directory. *)
Definition SLASH : str := py "/".
Definition primary_path_of (a : AssetInfo) : str :=
  name a ++ SLASH ++ primary_file a.
Definition thumbnail_path_of (a : AssetInfo) : option str :=
  (fun t => name a ++ SLASH ++ t) <$> thumbnail a.
Definition variant_path_of (a : AssetInfo) (f : str) : str :=
  name a ++ SLASH ++ VARIANTS ++ SLASH ++ f.

(** The counts [(success, failed, skipped)]. *)
Definition Counts : Type := (nat * nat * nat)%type.

(** One round of the loop over the variants, from the counts so far. *)
Definition import_variant (env : Env) (a : AssetInfo)
    (existing_paths : gset str) (generate_thumbnails : bool)
    (tags : list str) (v : str * option str) (c : Counts) : M Counts :=
  let '(success, failed, skipped) := c in
  let variant_file := variant_path_of a (fst v) in
  variant_path ← lift (resolve env variant_file);
  let variant_name := stem (fst v) in
  if bool_decide (variant_path ∈ existing_paths)
  then mret (success, failed, S skipped)
  else
    variant_thumb_data ←
      load_thumbnail env ((variant_path_of a) <$> snd v) generate_thumbnails
        variant_file;
    let variant_label := name a ++ py " (" ++ variant_name ++ py ")" in
    variant_creation_date ← lift (getctime env variant_path);
    try_except
      (variant_id ← addItem env variant_label variant_path variant_thumb_data
                      variant_creation_date;
       match variant_id with
       | Some id =>
           size ← lift (getsize env variant_path);
           _ ← setMetadata env id
                 (VariantMeta size (suffix (fst v)) (strftime env) (name a));
           _ ← addTags env id tags;
           mret (S success, failed, skipped)
       | None => mret (success, S failed, skipped)
       end)
      (fun _ => mret (success, S failed, skipped)).

Fixpoint import_variants_loop (env : Env) (a : AssetInfo)
    (existing_paths : gset str) (generate_thumbnails : bool)
    (tags : list str) (vs : list (str * option str)) (c : Counts) : M Counts :=
  match vs with
  | [] => mret c
  | v :: vs' =>
      c' ← import_variant env a existing_paths generate_thumbnails tags v c;
      import_variants_loop env a existing_paths generate_thumbnails tags vs' c'
  end.

(** [import_asset(datasource, asset_info, existing_paths, import_variants,
    generate_thumbnails, tags)]. *)
Definition import_asset (env : Env) (a : AssetInfo)
    (existing_paths : gset str) (import_variants generate_thumbnails : bool)
    (tags : list str) : M Counts :=
  primary_path ← lift (resolve env (primary_path_of a));
  if bool_decide (primary_path ∈ existing_paths)
  then mret (O, O, 1%nat)
  else
    thumbnail_data ←
      load_thumbnail env (thumbnail_path_of a) generate_thumbnails
        (primary_path_of a);
    creation_date ← lift (getctime env primary_path);
    added ← try_except
      (item_id ← addItem env (name a) primary_path thumbnail_data creation_date;
       match item_id with
       | Some id =>
           size ← lift (getsize env primary_path);
           _ ← setMetadata env id
                 (PrimaryMeta size (suffix (primary_file a)) (strftime env)
                    (negb (bool_decide (variants a = []))));
           _ ← addTags env id tags;
           mret true
       | None => mret false
       end)
      (fun _ => mret false);
    if added : bool then
      if import_variants && negb (bool_decide (variants a = [])) then
        import_variants_loop env a existing_paths generate_thumbnails tags
          (variants a) (1%nat, O, O)
      else mret (1%nat, O, O)
    else mret (O, 1%nat, O).

(** [stats]: the dictionary [import_assets] fills in place, so the counts
    added before an exception stay. *)
Record Stats : Type := mkStats {
  st_success : nat;
  st_failed : nat;
  st_skipped : nat;
  st_total : nat
}.

Definition stats0 : Stats := mkStats 0 0 0 0.

Definition add_counts (st : Stats) (c : Counts) : Stats :=
  let '(s, f, sk) := c in
  mkStats (st_success st + s) (st_failed st + f) (st_skipped st + sk)
          (st_total st + 1).

(** The loop over the assets: the statistics so far and whether the loop
    ended or an exception left it. *)
Fixpoint import_loop (env : Env) (assets : list AssetInfo)
    (existing_paths : gset str) (import_variants generate_thumbnails : bool)
    (tags : list str) (st : Stats) (w : World) : res unit * Stats * World :=
  match assets with
  | [] => (Ok tt, st, w)
  | a :: assets' =>
      match import_asset env a existing_paths import_variants
              generate_thumbnails tags w with
      | (Ok c, w') =>
          import_loop env assets' existing_paths import_variants
            generate_thumbnails tags (add_counts st c) w'
      | (Raise e, w') => (Raise e, st, w')
      end
  end.

(** [import_assets(...)], from the scanned assets on: the statistics
    returned, or the exception that leaves the function, with the
    statistics at that point. *)
Definition import_assets (env : Env) (assets : list AssetInfo)
    (import_variants generate_thumbnails : bool) (tags : list str)
    (w : World) : res unit * Stats * World :=
  if negb (opens env) then (Ok tt, stats0, w)
  else if isReadOnly env then (Ok tt, stats0, w)
  else
    match assets with
    | [] => (Ok tt, stats0, w)
    | _ :: _ =>
        match get_existing_asset_paths env w with
        | (Raise e, w) => (Raise e, stats0, w)
        | (Ok existing_paths, w) =>
            match startTransaction w with
            | (Raise e, w) => (Raise e, stats0, w)
            | (Ok _, w) =>
                (* the [try] block: the loop, then the commit *)
                let '(r, st, w) :=
                  match import_loop env assets existing_paths import_variants
                          generate_thumbnails tags stats0 w with
                  | (Ok _, st, w) =>
                      let '(r, w) := endTransaction env true w in (r, st, w)
                  | (Raise e, st, w) => (Raise e, st, w)
                  end in
                match r with
                | Ok _ => (Ok tt, st, w)
                | Raise e =>
                    if is_Exception e then
                      (* [except Exception]: roll back *)
                      let '(r, w) := endTransaction env false w in (r, st, w)
                    else (Raise e, st, w)
                end
            end
        end
    end.

(** [import_assets(assets_dir, database_path, ...)]: the scan, then the
    import of what it found. *)
Definition import_assets_dir (env : Env) (usd_order thumb_order : list str)
    (assets_dir : option node)
    (import_variants case_insensitive generate_thumbnails : bool)
    (tags : list str) (w : World) : res unit * Stats * World :=
  import_assets env
    (scan_assets_directory usd_order thumb_order assets_dir case_insensitive)
    import_variants generate_thumbnails tags w.

(** The commit flags of the [endTransaction] calls among [cs]. *)
Definition end_calls (cs : list DbCall) : list bool :=
  flat_map (fun c => match c with EndTransaction b => [b] | _ => [] end) cs.

(** The paths of the [addItem] calls among [cs]. *)
Definition added_paths (cs : list DbCall) : list str :=
  flat_map (fun c => match c with AddItem _ p _ _ => [p] | _ => [] end) cs.

(** The number of [addItem] calls made so far, and of items in the
    database. *)
Definition ncalls (w : World) : nat := length (added_paths (calls w)).
Definition nitems (w : World) : nat := length (items (db w)).

Definition is_txn_call (c : DbCall) : bool :=
  match c with
  | StartTransaction | EndTransaction _ => true
  | _ => false
  end.

(** *** Example runs *)

Definition ABS : str := py "/assets/".

(** A quiet environment: every file is there, every call succeeds, items
    get the ids 1, 2, ... by the length of their label. *)
Definition quiet_env : Env :=
  mkEnv (fun p => Ok (ABS ++ p)) (fun p => p) (fun _ => true)
        (fun _ => Ok (py "jpeg-bytes")) (fun _ => Ok (py "rendered"))
        (fun _ => Ok 1700000000) (fun _ => Ok 2048) (py "2026-01-01 00:00:00")
        None (fun _ => None)
        (fun label _ => Ok (Some (length label)))
        (fun _ => None) (fun _ _ => None) (fun _ => None)
        true false.

(** The same, but the render of a missing thumbnail is interrupted from
    the keyboard. *)
Definition interrupted_env : Env :=
  mkEnv (fun p => Ok (ABS ++ p)) (fun p => p) (fun _ => true)
        (fun _ => Ok (py "jpeg-bytes")) (fun _ => Raise KeyboardInterrupt)
        (fun _ => Ok 1700000000) (fun _ => Ok 2048) (py "2026-01-01 00:00:00")
        None (fun _ => None)
        (fun label _ => Ok (Some (length label)))
        (fun _ => None) (fun _ _ => None) (fun _ => None)
        true false.

(** The same as the quiet one, but the file of the second asset is gone
    when its creation time is read. *)
Definition vanished_env : Env :=
  mkEnv (fun p => Ok (ABS ++ p)) (fun p => p) (fun _ => true)
        (fun _ => Ok (py "jpeg-bytes")) (fun _ => Ok (py "rendered"))
        (fun p => if bool_decide (p = ABS ++ py "lamp/lamp.usdc")
                  then Raise OSError else Ok 1700000000)
        (fun _ => Ok 2048) (py "2026-01-01 00:00:00")
        None (fun _ => None)
        (fun label _ => Ok (Some (length label)))
        (fun _ => None) (fun _ _ => None) (fun _ => None)
        true false.

(** The same as the quiet one, but the commit fails. *)
Definition failing_commit_env : Env :=
  mkEnv (fun p => Ok (ABS ++ p)) (fun p => p) (fun _ => true)
        (fun _ => Ok (py "jpeg-bytes")) (fun _ => Ok (py "rendered"))
        (fun _ => Ok 1700000000) (fun _ => Ok 2048) (py "2026-01-01 00:00:00")
        None (fun _ => None)
        (fun label _ => Ok (Some (length label)))
        (fun _ => None) (fun _ _ => None)
        (fun commit => if commit then Some RuntimeError else None)
        true false.

(** The same as the quiet one, but the metadata of the item with the id 4
    cannot be set. *)
Definition metadata_failing_env : Env :=
  mkEnv (fun p => Ok (ABS ++ p)) (fun p => p) (fun _ => true)
        (fun _ => Ok (py "jpeg-bytes")) (fun _ => Ok (py "rendered"))
        (fun _ => Ok 1700000000) (fun _ => Ok 2048) (py "2026-01-01 00:00:00")
        None (fun _ => None)
        (fun label _ => Ok (Some (length label)))
        (fun id => if (id =? 4)%nat then Some RuntimeError else None)
        (fun _ _ => None) (fun _ => None)
        true false.

Definition book : AssetInfo :=
  mkAssetInfo (py "book") (py "book.usdc") (Some (py "thumbnail.jpg")) [].
Definition lamp : AssetInfo :=
  mkAssetInfo (py "lamp") (py "lamp.usdc") None [].
Definition teapot : AssetInfo :=
  mkAssetInfo (py "teapot") (py "teapot.usd") (Some (py "thumbnail.jpg"))
    [(py "teapot_fancy.usd", Some (py "teapot_fancy_thumbnail.jpg"))].

(** A database that already holds the teapot. *)
Definition world0 : World :=
  mkWorld (mkDb [mkItem 9 (py "teapot") (ABS ++ py "teapot/teapot.usd")] None) [].

(** The existing paths of that database. *)
Definition existing0 : gset str := {[ABS ++ py "teapot/teapot.usd"]} ∪ ∅.

End ImportAssets.

(** ** The special rename, as the documentation words it

    [SPECIAL_RENAME_DETAILED_INSTRUCTIONS] and the specification describe the
    new name by runs of one placeholder character; [spec_rename] follows
    those words, to be compared with [computeNewNameForItem]. *)

Module DagRenamerSpec.
Import DagRenamer.

(** The length of the run of [c] at the start of [s]. *)
Fixpoint run_length (c : ascii) (s : str) : nat :=
  match s with
  | x :: s' => if Ascii.eqb x c then S (run_length c s') else O
  | [] => O
  end.

(** The [m]-letter base-26 rendering of [n], most significant letter first,
    with A = 0. *)
Definition spec_letters (n : Z) (m : nat) : str :=
  map (fun i => chr (65 + (n / 26 ^ Z.of_nat (m - 1 - i)) mod 26)) (seq 0 m).

Fixpoint spec_rename_aux (fuel : nat) (k : Z) (own parent : str) (s : str)
  : str :=
  match fuel with
  | O => []
  | S fuel' =>
      match s with
      | [] => []
      | c :: s' =>
          if Ascii.eqb c "#" then
            let m := run_length "#" s in
            format_0d (Z.to_N k) m ++ spec_rename_aux fuel' k own parent (drop m s)
          else if Ascii.eqb c "$" then
            let m := run_length "$" s in
            spec_letters (k - 1) m ++ spec_rename_aux fuel' k own parent (drop m s)
          else if Ascii.eqb c "!" then
            own ++ spec_rename_aux fuel' k own parent s'
          else if Ascii.eqb c "@" then
            parent ++ spec_rename_aux fuel' k own parent s'
          else c :: spec_rename_aux fuel' k own parent s'
      end
  end.

(** The new name of the [k]-th item for the pattern [s]. *)
Definition spec_rename (k : Z) (own parent : str) (s : str) : str :=
  spec_rename_aux (S (length s)) k own parent s.

(** The name that stands for [@]: the parent's, or the item's own. *)
Definition parent_name (u : Ui) (item : nat) : str :=
  match item_parent (topLevel u) item with
  | Some parent => item_text u parent
  | None => item_text u item
  end.

(** The new names of the items, numbered from [i + 1]. *)
Fixpoint spec_names_from (u : Ui) (pattern : str) (i : Z) (items : list nat)
  : list str :=
  match items with
  | [] => []
  | item :: items' =>
      spec_rename (i + 1) (item_text u item) (parent_name u item) pattern
      :: spec_names_from u pattern (i + 1) items'
  end.

(** The selected items in pre-order, reversed on request. *)
Definition spec_order (u : Ui) (reversed : bool) : list nat :=
  let ordered :=
    List.filter (fun item => bool_decide (item ∈ selected u))
      (traversePreOrder (topLevel u)) in
  if reversed then rev ordered else ordered.

(** No [#] stands next to a [$]: every run of placeholders is made of one
    character. *)
Fixpoint no_mixed_run (s : str) : bool :=
  match s with
  | a :: s' =>
      match s' with
      | b :: _ =>
          negb (Ascii.eqb a "#" && Ascii.eqb b "$"
                || Ascii.eqb a "$" && Ascii.eqb b "#")
          && no_mixed_run s'
      | [] => true
      end
  | [] => true
  end.

(** A name with a character that is not white space. *)
Definition nonblank (s : str) : Prop := strip s <> [].

(** The new (old) name the last entry for [item] records. *)
Fixpoint recorded_new (changes : list Change) (item : nat) : option str :=
  match changes with
  | [] => None
  | ch :: changes' =>
      match recorded_new changes' item with
      | Some n => Some n
      | None => if (ch_item ch =? item)%nat then Some (ch_newName ch) else None
      end
  end.

Fixpoint recorded_old (changes : list Change) (item : nat) : option str :=
  match changes with
  | [] => None
  | ch :: changes' =>
      match recorded_old changes' item with
      | Some n => Some n
      | None => if (ch_item ch =? item)%nat then Some (ch_oldName ch) else None
      end
  end.

(** The entries of a command. *)
Definition changes_of (c : Command) : list Change :=
  match c with
  | RenameCommand item newName oldName => [mkChange item oldName newName]
  | MultiRenameCommand changes => changes
  end.

(** A small editable tree: [root] with the children [a] and [b], [b] with
    the child [d], and a second top-level item [c]; [b], [a], [c] and [d]
    are selected. *)
Definition example_ui : Ui :=
  mkUi [TreeItem 1 [TreeItem 2 []; TreeItem 3 [TreeItem 5 []]]; TreeItem 4 []]
       [3; 2; 4; 5]%nat
       (list_to_map [(1%nat, py "root"); (2%nat, py "a"); (3%nat, py "b");
                     (4%nat, py "c"); (5%nat, py "d")])
       (list_to_map [(1%nat, py "root"); (2%nat, py "a"); (3%nat, py "b");
                     (4%nat, py "c"); (5%nat, py "d")])
       (list_to_map [(1%nat, py "root"); (2%nat, py "a"); (3%nat, py "b");
                     (4%nat, py "c"); (5%nat, py "d")])
       ∅ false false [].

Definition example_command : Command :=
  MultiRenameCommand [mkChange 2 (py "a") (py "x_01"); mkChange 3 (py "b") (py "x_02")].

(** A command whose new name is empty, as a replacement by the empty text
    builds it. *)
Definition blank_command : Command :=
  MultiRenameCommand [mkChange 2 (py "a") []].

End DagRenamerSpec.

(** ** The asset scan, as the documentation words it *)

Module ScanSpec.
Import ImportAssets.

(** A file named [f] is a primary USD file of the asset directory [d]: its
    stem is the directory's name and its extension one of the three, both
    compared case-insensitively in case-insensitive mode. *)
Definition is_primary_name (case_insensitive : bool) (d f : str) : Prop :=
  if case_insensitive
  then lower (stem f) = lower d /\ lower (suffix f) ∈ USD_EXTENSIONS
  else stem f = d /\ suffix f ∈ USD_EXTENSIONS.

(** The directory entry [e] is a subdirectory with a primary USD file. *)
Definition has_primary (case_insensitive : bool) (e : str * node) : Prop :=
  exists es f, snd e = Dir es /\ (f, File) ∈ es /\
               is_primary_name case_insensitive (fst e) f.

(** A file named [f] is a thumbnail image for the base name [base]. *)
Definition is_thumbnail_name (case_insensitive : bool) (base f : str) : Prop :=
  if case_insensitive
  then exists ext, ext ∈ THUMBNAIL_EXTENSIONS /\ lower f = lower (base ++ ext)
  else exists ext, ext ∈ THUMBNAIL_EXTENSIONS /\ f = base ++ ext.

(** The listing of [asset_dir / 'variants'], empty when that is no
    directory. *)
Definition variants_listing (es : list (str * node)) : list (str * node) :=
  match lookup_entry VARIANTS es with
  | Some (Dir ves) => ves
  | _ => []
  end.

(** The USD files of a listing, in listing order. *)
Definition usd_files (es : list (str * node)) : list str :=
  map fst (List.filter
             (fun e => is_file (snd e) && in_set (suffix (fst e)) USD_EXTENSIONS)
             es).

(** A well-formed tree: in every directory the names are not empty and no
    name occurs twice. *)
Fixpoint nodupb (l : list str) : bool :=
  match l with
  | [] => true
  | x :: l' => negb (in_set x l') && nodupb l'
  end.

Fixpoint wf (n : node) : bool :=
  match n with
  | File => true
  | Dir es =>
      nodupb (map fst es)
      && forallb (fun e => negb (bool_decide (fst e = []))) es
      && (fix all (es : list (str * node)) : bool :=
            match es with
            | [] => true
            | (_, nd) :: es' => wf nd && all es'
            end) es
  end.

(** Two trees with the same contents: the same entries in every directory,
    listed in any order. *)
Inductive same_contents : node -> node -> Prop :=
| same_file : same_contents File File
| same_dir (es1 es1' es2 : list (str * node)) :
    Permutation es1 es1' ->
    Forall2 (fun e1 e2 => fst e1 = fst e2 /\ same_contents (snd e1) (snd e2))
      es1' es2 ->
    same_contents (Dir es1) (Dir es2).

(** *** Example trees *)

(** The tree of the module documentation. *)
Definition doc_tree : node :=
  Dir [ (py "teapot", Dir [ (py "teapot.usd", File);
                            (py "thumbnail.jpg", File);
                            (py "variants",
                             Dir [ (py "teapot_fancy.usd", File);
                                   (py "teapot_fancy_thumbnail.jpg", File);
                                   (py "teapot_green.usd", File);
                                   (py "teapot_green_thumbnail.png", File) ]) ]);
        (py "book", Dir [ (py "book.usdc", File); (py "thumbnail.jpg", File) ]);
        (py "notes.txt", File);
        (py "empty", Dir [ (py "readme.md", File) ]);
        (py "lamp", Dir [ (py "lamp.usdc", File); (py "thumbnail.png", File) ]) ].

(** The same contents, the file system listing the directories in another
    order. *)
Definition doc_tree_reordered : node :=
  Dir [ (py "book", Dir [ (py "thumbnail.jpg", File); (py "book.usdc", File) ]);
        (py "teapot", Dir [ (py "variants",
                             Dir [ (py "teapot_green.usd", File);
                                   (py "teapot_fancy.usd", File);
                                   (py "teapot_green_thumbnail.png", File);
                                   (py "teapot_fancy_thumbnail.jpg", File) ]);
                            (py "teapot.usd", File);
                            (py "thumbnail.jpg", File) ]);
        (py "lamp", Dir [ (py "lamp.usdc", File); (py "thumbnail.png", File) ]);
        (py "empty", Dir [ (py "readme.md", File) ]);
        (py "notes.txt", File) ].

(** An asset with two files that match its name case-insensitively and two
    thumbnails that do, listed in two orders. *)
Definition mixed_case_tree : node :=
  Dir [ (py "chair", Dir [ (py "Chair.usd", File); (py "CHAIR.usdc", File);
                           (py "Thumbnail.jpg", File); (py "THUMBNAIL.png", File) ]) ].

Definition mixed_case_tree_reordered : node :=
  Dir [ (py "chair", Dir [ (py "CHAIR.usdc", File); (py "Chair.usd", File);
                           (py "THUMBNAIL.png", File); (py "Thumbnail.jpg", File) ]) ].

(** Two listings of one small tree: the assets, the files of an asset and
    its variants each come in the other order. *)
Definition chair_variants : list (str * node) :=
  [ (py "chair_red.usd", File); (py "chair_oak.usda", File) ].

Definition small_tree : node :=
  Dir [ (py "chair", Dir [ (py "chair.usd", File);
                           (py "variants", Dir chair_variants) ]);
        (py "book", Dir [ (py "book.usdc", File) ]) ].

Definition small_tree_reordered : node :=
  Dir [ (py "book", Dir [ (py "book.usdc", File) ]);
        (py "chair", Dir [ (py "variants", Dir (rev chair_variants));
                           (py "chair.usd", File) ]) ].

(** The record the scan makes of the teapot of [doc_tree]. *)
Definition teapot_record : AssetInfo :=
  mkAssetInfo (py "teapot") (py "teapot.usd") (Some (py "thumbnail.jpg"))
    [ (py "teapot_fancy.usd", Some (py "teapot_fancy_thumbnail.jpg"));
      (py "teapot_green.usd", Some (py "teapot_green_thumbnail.png")) ].

(** The listing [es] holds no two files that qualify as the primary USD
    file of the asset directory [d]. *)
Definition one_primary (case_insensitive : bool) (d : str)
    (es : list (str * node)) : Prop :=
  forall f g, (f, File) ∈ es -> (g, File) ∈ es ->
    is_primary_name case_insensitive d f ->
    is_primary_name case_insensitive d g -> f = g.

(** The listing [es] holds no two files that qualify as the thumbnail for
    the base name [base]. *)
Definition one_thumbnail (case_insensitive : bool) (base : str)
    (es : list (str * node)) : Prop :=
  forall f g, (f, File) ∈ es -> (g, File) ∈ es ->
    is_thumbnail_name case_insensitive base f ->
    is_thumbnail_name case_insensitive base g -> f = g.

(** An asset with two primary files, which differ in their extension
    only. *)
Definition two_formats_tree : node :=
  Dir [ (py "lamp", Dir [ (py "lamp.usd", File); (py "lamp.usdc", File) ]) ].

End ScanSpec.

(** ** More of the DAG renamer *)

Module DagRenamerMore.
Import DagRenamer DagRenamerSpec.

(** The user commits the text [t] in the editor of an item: Qt sets the
    text, which the tree did not ask for ([programmaticTextChange] is
    unset), and emits [itemChanged]. *)
Definition user_edit (u : Ui) (item : nat) (t : str) : Ui :=
  item_setText onItemChanged u item t.

(** [QUndoStack.undo] on the latest command, [None] on an empty stack
    (the stack keeps the command for [redo]; only the texts matter here). *)
Definition undo_last (u : Ui) : option Ui :=
  match undoStack u with
  | c :: _ => Some (undo c u)
  | [] => None
  end.

(** [DagRenamer._populateTree]: where each row of [dagData] ends up.  The
    rows are numbered in order; [stack] maps a depth to the latest item of
    that depth. *)
Inductive Place : Type :=
| TopLevel                 (* tree.addTopLevelItem(item) *)
| ChildOf (parent : nat)   (* parent.addChild(item) *)
| Detached.                (* stack.get(depth - 1) found nothing *)

Fixpoint populate_rows (depths : list Z) (i : nat) (stack : gmap Z nat)
  : list Place :=
  match depths with
  | [] => []
  | depth :: depths' =>
      let place :=
        if depth =? 1 then TopLevel
        else match stack !! (depth - 1) with
             | Some parent => ChildOf parent
             | None => Detached
             end in
      place :: populate_rows depths' (S i) (<[depth := i]> stack)
  end.

Definition populateTree (depths : list Z) : list Place :=
  populate_rows depths 0 ∅.

(** The latest row before row [k] whose depth is [d]. *)
Definition latest_at_depth (depths : list Z) (k : nat) (d : Z) : option nat :=
  last (List.filter (fun j => bool_decide (depths !! j = Some d)) (seq 0 k)).

(** [DagRenamer._resetNodes] on an editable tree (in [u]) and an original
    tree, whose items and texts are [origTop] and [origTexts]: the two
    post-order traversals are zipped. *)
Definition reset_changes (u : Ui) (origTop : list QTreeWidgetItem)
    (origTexts : gmap nat str) : list Change :=
  flat_map (fun p : nat * nat =>
    let (editableItem, originalItem) := p in
    let originalText := default [] (origTexts !! originalItem) in
    if bool_decide (item_text u editableItem <> originalText)
    then [mkChange editableItem (item_text u editableItem) originalText]
    else [])
    (combine (traversePostOrder (topLevel u)) (traversePostOrder origTop)).

Definition resetNodes (u : Ui) (origTop : list QTreeWidgetItem)
    (origTexts : gmap nat str) : Ui :=
  match reset_changes u origTop origTexts with
  | [] => u
  | changes => push (MultiRenameCommand changes) u
  end.

(** All the ids of a forest. *)
Fixpoint item_count (t : QTreeWidgetItem) : nat :=
  match t with
  | TreeItem _ children => S (list_sum (map item_count children))
  end.

End DagRenamerMore.

(** ** More of the rig colour tool *)

Module RigColorMore.
Import RigColor.

(** The checkable buttons of a [ColorBookmarkBar]: which are checked, and
    [selectedColorButton], by index. *)
Record BarState : Type := mkBarState {
  checked : list bool;
  selectedColorButton : option nat
}.

(** [ColorBookmarkBar._selectColorButton(button)] for the button of index
    [i].  The other buttons are unchecked with their signals blocked, so
    the handler is not entered again. *)
Definition selectColorButton (b : BarState) (i : nat) : BarState :=
  if default false (checked b !! i) then
    mkBarState
      (imap (fun j c => if negb (j =? i)%nat && c then false else c) (checked b))
      (Some i)
  else
    mkBarState (checked b)
      (if bool_decide (selectedColorButton b = Some i) then None
       else selectedColorButton b).

(** A click on the checkable button [i]: Qt toggles it and emits
    [toggled], which is connected to [_selectColorButton]. *)
Definition click (b : BarState) (i : nat) : BarState :=
  selectColorButton
    (mkBarState (alter negb i (checked b)) (selectedColorButton b)) i.

(** [ColorBookmarkBar.getSelected]. *)
Definition getSelected (b : BarState) : option nat := selectedColorButton b.

(** The bar [ColorBookmarkBar._setupUi] starts with: nothing checked. *)
Definition initial_bar (numButtons : nat) : BarState :=
  mkBarState (replicate numButtons false) None.

End RigColorMore.

(** * Theorems *)

(** ** Facts about the matcher *)

Module ReFacts.

(** What is left after the characters of a class at the start. *)
Fixpoint skip_class (cs : list ascii) (s : str) : str :=
  match s with
  | x :: s' => if in_class cs x then skip_class cs s' else s
  | [] => []
  end.

Lemma skip_class_length cs s : (length (skip_class cs s) <= length s)%nat.
Proof.
  induction s as [|x s IH]; simpl; [lia|].
  destruct (in_class cs x); simpl; lia.
Qed.

(** A greedy repetition of a class stops after the whole run. *)
Lemma plus_ends_cls cs fuel : forall s,
  (length s < fuel)%nat ->
  plus_ends (ends (Cls cs)) fuel s =
    match s with
    | x :: s' =>
        if in_class cs x
        then plus_ends (ends (Cls cs)) (pred fuel) s' ++ [s']
        else []
    | [] => []
    end.
Proof.
  destruct fuel as [|fuel]; intros s Hlen; [lia|].
  destruct s as [|x s']; simpl; [reflexivity|].
  destruct (in_class cs x); simpl; [|reflexivity].
  rewrite app_nil_r.
  replace (length s' <? S (length s'))%nat with true
    by (symmetry; apply Nat.ltb_lt; lia).
  reflexivity.
Qed.

Lemma plus_ends_cls_hd cs fuel : forall s,
  (length s < fuel)%nat ->
  hd_error (plus_ends (ends (Cls cs)) fuel s) =
    match s with
    | x :: s' => if in_class cs x then Some (skip_class cs s') else None
    | [] => None
    end.
Proof.
  induction fuel as [|fuel IH]; intros s Hlen; [lia|].
  rewrite plus_ends_cls by assumption.
  destruct s as [|x s']; [reflexivity|].
  destruct (in_class cs x) eqn:Hx; [|reflexivity].
  simpl in Hlen. simpl pred.
  specialize (IH s' ltac:(lia)).
  destruct (plus_ends (ends (Cls cs)) fuel s') as [|r l] eqn:Hp; simpl in *.
  - destruct s' as [|y s'']; [reflexivity|].
    simpl. destruct (in_class cs y); [discriminate|reflexivity].
  - destruct s' as [|y s'']; [discriminate|].
    simpl. destruct (in_class cs y); [assumption|discriminate].
Qed.

(** [re.sub] returns when the replacement does on every match. *)
Lemma re_sub_aux_ok r repl :
  (forall s m rest, re_match r s = Some (m, rest) -> exists out, repl m = Ok out) ->
  forall fuel s, exists out, re_sub_aux fuel r repl s = Ok out.
Proof.
  intros Hrepl. induction fuel as [|fuel IH]; intros s; simpl; [eauto|].
  assert (Hcopy : exists out,
    match s with
    | c :: s' => res_map (cons c) (re_sub_aux fuel r repl s')
    | [] => Ok []
    end = Ok out).
  { destruct s as [|c s']; [eauto|].
    destruct (IH s') as [o Ho]. rewrite Ho. simpl. eauto. }
  destruct (re_match r s) as [[m rest]|] eqn:Hm; [|exact Hcopy].
  destruct (Hrepl _ _ _ Hm) as [out Hout]. rewrite Hout.
  change (exists o, match m with
    | [] => res_map (app out) match s with
        | c :: s' => res_map (cons c) (re_sub_aux fuel r repl s')
        | [] => Ok [] end
    | _ :: _ => res_map (app out) (re_sub_aux fuel r repl rest)
    end = Ok o).
  destruct m.
  - destruct Hcopy as [o Ho]. rewrite Ho. simpl. eauto.
  - destruct (IH rest) as [o Ho]. rewrite Ho. simpl. eauto.
Qed.

End ReFacts.

(** ** The DAG renamer *)

Module DagRenamerFacts.
Import DagRenamer DagRenamerSpec ReFacts.

Definition HASH_DOLLAR : list ascii := ["#"; "$"]%char.
Definition BANG_AT : list ascii := ["!"; "@"]%char.

(** The match of the substitution pattern at the start of a text. *)
Lemma re_match_special s :
  re_match SPECIAL_RE s =
    match s with
    | [] => None
    | c :: s' =>
        if in_class HASH_DOLLAR c then
          Some (take (length s - length (skip_class HASH_DOLLAR s'))%nat s,
                skip_class HASH_DOLLAR s')
        else if in_class BANG_AT c then Some ([c], s')
        else None
    end.
Proof.
  unfold re_match, SPECIAL_RE.
  cbn [ends].
  pose proof (plus_ends_cls_hd HASH_DOLLAR (S (length s)) s ltac:(lia)) as Hhd.
  fold HASH_DOLLAR. fold BANG_AT.
  change (fun s0 : str => match s0 with
            | [] => []
            | x :: s'0 => if in_class HASH_DOLLAR x then [s'0] else []
            end) with (ends (Cls HASH_DOLLAR)).
  destruct (plus_ends (ends (Cls HASH_DOLLAR)) (S (length s)) s)
    as [|r l] eqn:Hp; cbn in Hhd.
  - destruct s as [|c s']; [reflexivity|].
    destruct (in_class HASH_DOLLAR c); [discriminate|].
    simpl. destruct (in_class BANG_AT c); [|reflexivity].
    simpl. replace (length s' - length s')%nat with O by lia.
    replace (S (length s') - length s')%nat with 1%nat by lia.
    reflexivity.
  - destruct s as [|c s']; [discriminate|].
    destruct (in_class HASH_DOLLAR c); [|discriminate].
    injection Hhd as ->. reflexivity.
Qed.

(** A match starts with one of the four placeholder characters. *)
Lemma special_token_head s token rest :
  re_match SPECIAL_RE s = Some (token, rest) ->
  exists c t, token = c :: t /\
    (in_class HASH_DOLLAR c = true \/ in_class BANG_AT c = true).
Proof.
  rewrite re_match_special.
  destruct s as [|c s']; [discriminate|].
  destruct (in_class HASH_DOLLAR c) eqn:H1.
  - intros [= <- <-].
    pose proof (skip_class_length HASH_DOLLAR s').
    simpl length.
    replace (S (length s') - length (skip_class HASH_DOLLAR s'))%nat
      with (S (length s' - length (skip_class HASH_DOLLAR s')))%nat by lia.
    simpl. eauto.
  - destruct (in_class BANG_AT c) eqn:H2; [|discriminate].
    intros [= <- <-]. eauto.
Qed.

Lemma in_class_hash_dollar c :
  in_class HASH_DOLLAR c = Ascii.eqb c "#" || Ascii.eqb c "$".
Proof. unfold in_class, HASH_DOLLAR. simpl. rewrite orb_false_r. reflexivity. Qed.

Lemma in_class_bang_at c :
  in_class BANG_AT c = Ascii.eqb c "!" || Ascii.eqb c "@".
Proof. unfold in_class, BANG_AT. simpl. rewrite orb_false_r. reflexivity. Qed.

(** The replacer returns on every text that starts with a placeholder. *)
Lemma replacer_ok u item seq c t :
  in_class HASH_DOLLAR c = true \/ in_class BANG_AT c = true ->
  exists out, replacer u item seq (c :: t) = Ok out.
Proof.
  rewrite in_class_hash_dollar, in_class_bang_at.
  intros H. unfold replacer.
  destruct (Ascii.eqb c "#"); [eauto|].
  destruct (Ascii.eqb c "$"); [eauto|].
  destruct (Ascii.eqb c "@").
  { destruct (item_parent (topLevel u) item); eauto. }
  destruct (Ascii.eqb c "!"); [eauto|].
  simpl in H. destruct H; discriminate.
Qed.

Lemma replacer_ok_on_matches u item seq s token rest :
  re_match SPECIAL_RE s = Some (token, rest) ->
  exists out, replacer u item seq token = Ok out.
Proof.
  intros H. destruct (special_token_head _ _ _ H) as (c & t & -> & Hc).
  apply replacer_ok. exact Hc.
Qed.

(** C8. In the special-rename replacer the assertion is never reached:
    whatever the text, a match of [((?:[#\$])+|[!@])] begins with one of
    [#], [$], [!], [@], the replacer returns a replacement for it, and
    [computeNewNameForItem] returns a name. *)
Theorem replacer_assertion_unreachable :
  (forall s,
     match re_match SPECIAL_RE s with
     | Some (token, _) =>
         (exists c t, token = c :: t /\ c ∈ ["#"; "$"; "!"; "@"]%char) /\
         (forall u item seq, exists out, replacer u item seq token = Ok out)
     | None => True
     end) /\
  (forall u specialText item seq,
     exists newName, computeNewNameForItem u specialText item seq = Ok newName).
Proof.
  split.
  - intros s. destruct (re_match SPECIAL_RE s) as [[token rest]|] eqn:Hm; [|exact I].
    split.
    + destruct (special_token_head _ _ _ Hm) as (c & t & -> & Hc).
      exists c, t. split; [reflexivity|].
      rewrite in_class_hash_dollar, in_class_bang_at in Hc.
      destruct Hc as [Hc|Hc]; apply orb_prop in Hc;
        destruct Hc as [Hc|Hc]; apply Ascii.eqb_eq in Hc; subst c;
        set_solver.
    + intros u item seq. eapply replacer_ok_on_matches; eassumption.
  - intros u specialText item seq. unfold computeNewNameForItem, re_sub.
    apply re_sub_aux_ok. intros s m rest Hm.
    eapply replacer_ok_on_matches; eassumption.
Qed.

(** *** The letters of [$] runs *)

Lemma intToLetters_loop_spec width : forall num acc,
  intToLetters_loop width num acc =
    acc ++ map (fun i => chr ((num / 26 ^ Z.of_nat i) mod 26 + 65)) (seq 0 width).
Proof.
  induction width as [|w IH]; intros num acc; simpl.
  - rewrite app_nil_r. reflexivity.
  - rewrite IH, <- app_assoc. simpl. f_equal.
    rewrite Z.div_1_r. f_equal.
    rewrite <- seq_shift, List.map_map.
    apply List.map_ext. intros i.
    rewrite Nat2Z.inj_succ, Z.pow_succ_r by lia.
    rewrite Z.div_div by lia. reflexivity.
Qed.

Lemma rev_seq m : rev (seq 0 m) = map (fun j => (m - 1 - j)%nat) (seq 0 m).
Proof.
  induction m as [|m IH]; [reflexivity|].
  rewrite (seq_S m 0) at 1. rewrite rev_app_distr.
  cbn [rev app Nat.add seq map]. rewrite IH.
  f_equal; [lia|].
  rewrite <- seq_shift, List.map_map.
  apply List.map_ext. intros j. lia.
Qed.

(** [intToLetters(k, m)] is the [m]-letter base-26 rendering of [k - 1]. *)
Lemma intToLetters_spec k m : intToLetters k m = spec_letters (k - 1) m.
Proof.
  unfold intToLetters, spec_letters.
  rewrite intToLetters_loop_spec. simpl.
  rewrite <- List.map_rev, rev_seq, List.map_map.
  apply List.map_ext. intros j. f_equal. lia.
Qed.

(** *** Runs of one placeholder *)

Lemma skip_class_uniform c s :
  (c = "#" \/ c = "$")%char ->
  no_mixed_run (c :: s) = true ->
  skip_class HASH_DOLLAR s = drop (run_length c s) s /\
  no_mixed_run (drop (run_length c s) s) = true.
Proof.
  intros Hc. revert c Hc. induction s as [|x s IH]; intros c Hc Hm.
  - split; reflexivity.
  - cbn [no_mixed_run] in Hm. apply andb_prop in Hm. destruct Hm as [Hcx Hm].
    cbn [skip_class run_length]. rewrite in_class_hash_dollar.
    destruct (Ascii.eqb x c) eqn:Hxc.
    + apply Ascii.eqb_eq in Hxc. subst x.
      replace (Ascii.eqb c "#" || Ascii.eqb c "$") with true
        by (destruct Hc; subst c; reflexivity).
      cbn [drop]. apply IH; assumption.
    + cbn [drop]. split; [|exact Hm].
      destruct Hc; subst c.
      * rewrite Hxc. simpl.
        destruct (Ascii.eqb x "$") eqn:Hx; [|reflexivity].
        simpl in Hcx. discriminate.
      * rewrite Hxc. rewrite orb_false_r.
        destruct (Ascii.eqb x "#") eqn:Hx; [|reflexivity].
        simpl in Hcx. discriminate.
Qed.

Lemma no_mixed_run_tail c s : no_mixed_run (c :: s) = true -> no_mixed_run s = true.
Proof.
  destruct s as [|b s]; [reflexivity|].
  cbn [no_mixed_run]. intros H. apply andb_prop in H. apply H.
Qed.

Lemma run_length_le c s : (run_length c s <= length s)%nat.
Proof.
  induction s as [|x s IH]; simpl; [lia|].
  destruct (Ascii.eqb x c); simpl; lia.
Qed.

(** On a pattern whose runs are uniform the substitution of the source
    computes the name the documentation describes. *)
Lemma re_sub_special_spec u item k : forall fuel s,
  (length s < fuel)%nat ->
  no_mixed_run s = true ->
  re_sub_aux fuel SPECIAL_RE (replacer u item k) s =
    Ok (spec_rename_aux fuel k (item_text u item) (parent_name u item) s).
Proof.
  induction fuel as [|fuel IH]; intros s Hlen Hm; [lia|].
  cbn [re_sub_aux spec_rename_aux].
  rewrite re_match_special.
  destruct s as [|c s']; [reflexivity|].
  simpl in Hlen.
  rewrite in_class_hash_dollar, in_class_bang_at.
  destruct (Ascii.eqb c "#") eqn:Hh; [|destruct (Ascii.eqb c "$") eqn:Hd].
  - (* a run of # *)
    apply Ascii.eqb_eq in Hh. subst c.
    destruct (skip_class_uniform "#" s' (or_introl eq_refl) Hm) as [Hs Hm'].
    pose proof (run_length_le "#" s') as Hle.
    rewrite Hs. cbn [orb run_length Ascii.eqb]. 
    change (Ascii.eqb "#" "#") with true. cbv iota.
    assert (Hlen' : (length (drop (run_length "#" s') s') < fuel)%nat).
    { rewrite length_drop. lia. }
    rewrite length_drop. simpl length.
    replace (S (length s') - (length s' - run_length "#" s'))%nat
      with (S (run_length "#" s')) by lia.
    cbn [take]. cbn [mbind res_bind bind replacer].
    change (Ascii.eqb "#" "#") with true. cbv iota.
    rewrite (IH _ Hlen' Hm'). cbn [res_map bind drop].
    rewrite length_cons, length_take. 
    replace (run_length "#" s' `min` length s')%nat with (run_length "#" s') by lia.
    reflexivity.
  - (* a run of $ *)
    apply Ascii.eqb_eq in Hd. subst c.
    destruct (skip_class_uniform "$" s' (or_intror eq_refl) Hm) as [Hs Hm'].
    pose proof (run_length_le "$" s') as Hle.
    rewrite Hs. cbn [orb run_length].
    change (Ascii.eqb "$" "$") with true. cbv iota.
    assert (Hlen' : (length (drop (run_length "$" s') s') < fuel)%nat).
    { rewrite length_drop. lia. }
    rewrite length_drop. simpl length.
    replace (S (length s') - (length s' - run_length "$" s'))%nat
      with (S (run_length "$" s')) by lia.
    cbn [take]. cbn [mbind res_bind bind replacer].
    change (Ascii.eqb "$" "#") with false.
    change (Ascii.eqb "$" "$") with true. cbv iota.
    rewrite (IH _ Hlen' Hm'). cbn [res_map bind drop].
    rewrite length_cons, length_take.
    replace (run_length "$" s' `min` length s')%nat with (run_length "$" s') by lia.
    rewrite intToLetters_spec. reflexivity.
  - cbn [orb].
    pose proof (no_mixed_run_tail _ _ Hm) as Hm'.
    assert (Hlen' : (length s' < fuel)%nat) by lia.
    destruct (Ascii.eqb c "!") eqn:Hb.
    + cbn [orb mbind res_bind bind replacer]. rewrite Hh, Hd, Hb.
      destruct (Ascii.eqb c "@") eqn:Ha.
      { apply Ascii.eqb_eq in Hb, Ha. congruence. }
      rewrite (IH _ Hlen' Hm'). reflexivity.
    + destruct (Ascii.eqb c "@") eqn:Ha.
      * cbn [orb mbind res_bind bind replacer]. rewrite Hh, Hd, Ha.
        rewrite (IH _ Hlen' Hm'). unfold parent_name.
        destruct (item_parent (topLevel u) item); reflexivity.
      * cbn [orb]. rewrite (IH _ Hlen' Hm'). reflexivity.
Qed.

Lemma computeNewNameForItem_spec u pattern item k :
  no_mixed_run pattern = true ->
  computeNewNameForItem u pattern item k =
    Ok (spec_rename k (item_text u item) (parent_name u item) pattern).
Proof.
  intros Hm. unfold computeNewNameForItem, re_sub, spec_rename.
  apply re_sub_special_spec; [lia|assumption].
Qed.

Lemma newNames_from_spec u pattern :
  no_mixed_run pattern = true ->
  forall items i,
    newNames_from u pattern i items = Ok (spec_names_from u pattern i items).
Proof.
  intros Hm. induction items as [|item items IH]; intros i; [reflexivity|].
  cbn [newNames_from spec_names_from].
  rewrite computeNewNameForItem_spec by assumption.
  cbn [mbind res_bind bind]. rewrite IH. reflexivity.
Qed.

(** *** The item-changed handler and the commands *)

(** Inside [_onItemChanged] the signals are blocked, so a nested [setText]
    reaches no handler: the body does the same for every inner handler. *)
Lemma onItemChanged_body_inner h1 h2 u item :
  onItemChanged_body h1 u item = onItemChanged_body h2 u item.
Proof.
  unfold onItemChanged_body.
  destruct (bool_decide (strip (item_text u item) = [])).
  - unfold item_setText. cbn [signalsBlocked blockSignals negb].
    rewrite andb_false_r. reflexivity.
  - cbn [programmaticTextChange set_oldName set_colour blockSignals].
    destruct (programmaticTextChange u); [reflexivity|].
    unfold stack_push_redo, cmd_redo, setTextProgrammatic, item_setText.
    cbn [signalsBlocked set_programmatic stack_push negb].
    rewrite !andb_false_r. reflexivity.
Qed.

Lemma item_text_set_text u i t : item_text (set_text i t u) i = t.
Proof. unfold item_text, set_text. cbn [text]. rewrite lookup_insert_eq. reflexivity. Qed.

(** A programmatic change to a name that is not blank sets the text, and
    leaves the undo stack and the signal block as they were. *)
Lemma setTextProgrammatic_nonblank u i t :
  nonblank t ->
  let u' := setTextProgrammatic onItemChanged u i t in
  text u' = <[i:=t]> (text u) /\
  undoStack u' = undoStack u /\
  signalsBlocked u' = signalsBlocked u /\
  programmaticTextChange u' = false.
Proof.
  intros Ht. unfold setTextProgrammatic, item_setText.
  cbn [signalsBlocked set_programmatic].
  destruct (negb (bool_decide (item_text (set_programmatic true u) i = t))
            && negb (signalsBlocked u)) eqn:Hemit.
  - unfold onItemChanged, onItemChanged_body.
    rewrite item_text_set_text.
    rewrite bool_decide_eq_false_2 by exact Ht.
    cbn. apply andb_prop in Hemit. destruct Hemit as [_ Hb].
    destruct (signalsBlocked u); [discriminate|]. repeat split.
  - cbn. repeat split.
Qed.

(** The text of each item after a run of programmatic changes. *)
Lemma fold_setText_nonblank (get : Change -> str) :
  forall changes u,
  (forall ch, ch ∈ changes -> nonblank (get ch)) ->
  let u' := fold_left (fun u ch =>
              setTextProgrammatic onItemChanged u (ch_item ch) (get ch))
              changes u in
  text u' = fold_left (fun m ch => <[ch_item ch := get ch]> m) changes (text u)
  /\ undoStack u' = undoStack u
  /\ signalsBlocked u' = signalsBlocked u.
Proof.
  induction changes as [|ch changes IH]; intros u Hnb; [cbn; auto|].
  cbn [fold_left].
  destruct (setTextProgrammatic_nonblank u (ch_item ch) (get ch)) as (Ht & Hs & Hb & _).
  { apply Hnb, elem_of_cons. left. reflexivity. }
  destruct (IH (setTextProgrammatic onItemChanged u (ch_item ch) (get ch)))
    as (Ht' & Hs' & Hb').
  { intros ch' Hin. apply Hnb, elem_of_cons. right. exact Hin. }
  cbv zeta in *. rewrite Ht', Hs', Hb', Ht, Hs, Hb. auto.
Qed.

Lemma lookup_fold_insert (get : Change -> str)
    (last : list Change -> nat -> option str) :
  (forall i, last [] i = None) ->
  (forall ch cs i, last (ch :: cs) i =
     match last cs i with
     | Some n => Some n
     | None => if (ch_item ch =? i)%nat then Some (get ch) else None
     end) ->
  forall changes (m : gmap nat str) i,
    fold_left (fun m ch => <[ch_item ch := get ch]> m) changes m !! i =
      match last changes i with
      | Some n => Some n
      | None => m !! i
      end.
Proof.
  intros Hnil Hcons. induction changes as [|ch cs IH]; intros m i.
  - cbn. rewrite Hnil. reflexivity.
  - cbn [fold_left]. rewrite IH, Hcons.
    destruct (last cs i); [reflexivity|].
    destruct (Nat.eqb_spec (ch_item ch) i) as [->|Hne].
    + apply lookup_insert_eq.
    + apply lookup_insert_ne. exact Hne.
Qed.

Lemma lookup_fold_new changes (m : gmap nat str) i :
  fold_left (fun m ch => <[ch_item ch := ch_newName ch]> m) changes m !! i =
    match recorded_new changes i with Some n => Some n | None => m !! i end.
Proof. apply (lookup_fold_insert ch_newName recorded_new); reflexivity. Qed.

Lemma lookup_fold_old changes (m : gmap nat str) i :
  fold_left (fun m ch => <[ch_item ch := ch_oldName ch]> m) changes m !! i =
    match recorded_old changes i with Some n => Some n | None => m !! i end.
Proof. apply (lookup_fold_insert ch_oldName recorded_old); reflexivity. Qed.

Lemma redo_as_fold c u :
  redo c u = fold_left (fun u ch =>
    setTextProgrammatic onItemChanged u (ch_item ch) (ch_newName ch))
    (changes_of c) u.
Proof. destruct c; reflexivity. Qed.

Lemma undo_as_fold c u :
  undo c u = fold_left (fun u ch =>
    setTextProgrammatic onItemChanged u (ch_item ch) (ch_oldName ch))
    (changes_of c) u.
Proof. destruct c; reflexivity. Qed.

(** After [redo] the text of an item is its recorded new name, other items
    keep theirs; no command is pushed. *)
Lemma redo_text c u :
  (forall ch, ch ∈ changes_of c -> nonblank (ch_newName ch)) ->
  (forall i, item_text (redo c u) i =
     match recorded_new (changes_of c) i with
     | Some n => n
     | None => item_text u i
     end) /\
  undoStack (redo c u) = undoStack u.
Proof.
  intros Hnb. rewrite redo_as_fold.
  destruct (fold_setText_nonblank ch_newName (changes_of c) u Hnb) as (Ht & Hs & _).
  cbv zeta in *. split; [|exact Hs].
  intros i. unfold item_text. rewrite Ht, lookup_fold_new.
  destruct (recorded_new (changes_of c) i); reflexivity.
Qed.

Lemma undo_text c u :
  (forall ch, ch ∈ changes_of c -> nonblank (ch_oldName ch)) ->
  (forall i, item_text (undo c u) i =
     match recorded_old (changes_of c) i with
     | Some n => n
     | None => item_text u i
     end) /\
  undoStack (undo c u) = undoStack u.
Proof.
  intros Hnb. rewrite undo_as_fold.
  destruct (fold_setText_nonblank ch_oldName (changes_of c) u Hnb) as (Ht & Hs & _).
  cbv zeta in *. split; [|exact Hs].
  intros i. unfold item_text. rewrite Ht, lookup_fold_old.
  destruct (recorded_old (changes_of c) i); reflexivity.
Qed.

Lemma recorded_new_in cs i n :
  recorded_new cs i = Some n -> i ∈ map ch_item cs.
Proof.
  induction cs as [|c cs IH]; [discriminate|].
  cbn [recorded_new map]. intros Hr. apply elem_of_cons.
  destruct (recorded_new cs i); [right; apply IH; exact Hr|].
  destruct (Nat.eqb_spec (ch_item c) i); [|discriminate].
  left. congruence.
Qed.

(** An item of a duplicate-free command has one entry, which is the one
    recorded. *)
Lemma recorded_new_NoDup changes : 
  NoDup (map ch_item changes) ->
  forall ch, ch ∈ changes -> recorded_new changes (ch_item ch) = Some (ch_newName ch).
Proof.
  induction changes as [|c cs IH]; intros Hnd ch Hin.
  { apply elem_of_nil in Hin. destruct Hin. }
  cbn [map] in Hnd. apply NoDup_cons in Hnd. destruct Hnd as [Hnot Hnd].
  cbn [recorded_new]. apply elem_of_cons in Hin. destruct Hin as [->|Hin].
  - destruct (recorded_new cs (ch_item c)) eqn:Hr.
    + exfalso. apply Hnot. eapply recorded_new_in. exact Hr.
    + rewrite Nat.eqb_refl. reflexivity.
  - rewrite (IH Hnd ch Hin). reflexivity.
Qed.

Lemma recorded_old_in cs i n :
  recorded_old cs i = Some n -> i ∈ map ch_item cs.
Proof.
  induction cs as [|c cs IH]; [discriminate|].
  cbn [recorded_old map]. intros Hr. apply elem_of_cons.
  destruct (recorded_old cs i); [right; apply IH; exact Hr|].
  destruct (Nat.eqb_spec (ch_item c) i); [|discriminate].
  left. congruence.
Qed.

Lemma recorded_old_NoDup changes : 
  NoDup (map ch_item changes) ->
  forall ch, ch ∈ changes -> recorded_old changes (ch_item ch) = Some (ch_oldName ch).
Proof.
  induction changes as [|c cs IH]; intros Hnd ch Hin.
  { apply elem_of_nil in Hin. destruct Hin. }
  cbn [map] in Hnd. apply NoDup_cons in Hnd. destruct Hnd as [Hnot Hnd].
  cbn [recorded_old]. apply elem_of_cons in Hin. destruct Hin as [->|Hin].
  - destruct (recorded_old cs (ch_item c)) eqn:Hr.
    + exfalso. apply Hnot. eapply recorded_old_in. exact Hr.
    + rewrite Nat.eqb_refl. reflexivity.
  - rewrite (IH Hnd ch Hin). reflexivity.
Qed.

(** A programmatic change never pushes a command. *)
Lemma setTextProgrammatic_undoStack u i t :
  undoStack (setTextProgrammatic onItemChanged u i t) = undoStack u.
Proof.
  unfold setTextProgrammatic, item_setText.
  cbn [signalsBlocked set_programmatic].
  destruct (negb (bool_decide (item_text (set_programmatic true u) i = t))
            && negb (signalsBlocked u)); [|reflexivity].
  unfold onItemChanged, onItemChanged_body.
  destruct (bool_decide (strip (item_text (set_text i t (set_programmatic true u)) i) = [])).
  - unfold item_setText. cbn [signalsBlocked blockSignals negb].
    rewrite andb_false_r. reflexivity.
  - reflexivity.
Qed.

Lemma redo_undoStack c u : undoStack (redo c u) = undoStack u.
Proof.
  rewrite redo_as_fold. revert u.
  induction (changes_of c) as [|ch cs IH]; intros u; [reflexivity|].
  cbn [fold_left]. rewrite IH. apply setTextProgrammatic_undoStack.
Qed.

Lemma push_undoStack c u : undoStack (push c u) = c :: undoStack u.
Proof. unfold push, stack_push_redo. apply (redo_undoStack c (stack_push c u)). Qed.

Lemma spec_names_from_length u pattern items : forall i,
  length (spec_names_from u pattern i items) = length items.
Proof.
  induction items as [|x l IH]; intros i; [reflexivity|].
  cbn [spec_names_from length]. f_equal. apply IH.
Qed.

Lemma spec_names_from_lookup u pattern : forall items i k item,
  items !! k = Some item ->
  spec_names_from u pattern i items !! k =
    Some (spec_rename (i + Z.of_nat k + 1) (item_text u item)
            (parent_name u item) pattern).
Proof.
  induction items as [|x items IH]; intros i k item Hk; [discriminate|].
  destruct k as [|k]; cbn [spec_names_from].
  - injection Hk as ->.
    replace (i + Z.of_nat 0 + 1) with (i + 1) by lia. reflexivity.
  - change (items !! k = Some item) in Hk.
    change ((spec_rename (i + 1) (item_text u x) (parent_name u x) pattern
             :: spec_names_from u pattern (i + 1) items) !! S k)
      with (spec_names_from u pattern (i + 1) items !! k).
    rewrite (IH (i + 1) k item Hk).
    replace (i + 1 + Z.of_nat k + 1) with (i + Z.of_nat (S k) + 1) by lia.
    reflexivity.
Qed.

(** C1 (as amended). A special rename of a non-empty selection orders the
    selected items by the pre-order traversal of the tree, reversed when the
    reverse option is set, numbers them k = 1..n, and pushes one command
    that records, for the k-th item, its current text as the old name and as
    the new name the pattern with its placeholders replaced: the pattern is
    the first line of the entered text with the white space around it
    removed, and - when no [#] stands next to a [$] in it - each maximal
    run of m [#] becomes k in decimal, zero-padded to m digits, each maximal
    run of m [$] becomes the m-letter base-26 rendering of k-1 (A = 0), each
    [!] the item's current name, each [@] the name of the item's parent, or
    the item's own name when it has no parent. *)
Theorem special_rename_names (u : Ui) (specialText : str) (reversed : bool) :
  selected u <> [] ->
  no_mixed_run (strip (first_line specialText)) = true ->
  let pattern := strip (first_line specialText) in
  let items :=
    (if reversed then @rev nat else id)
      (List.filter (fun item => bool_decide (item ∈ selected u))
         (traversePreOrder (topLevel u))) in
  exists (u' : Ui) (newNames : list str),
    applySpecialRenameToTree u specialText reversed = Ok u' /\
    undoStack u' =
      mkMultiRenameCommand items newNames (map (item_text u) items)
      :: undoStack u /\
    length newNames = length items /\
    forall (k : nat) (item : nat),
      items !! k = Some item ->
      newNames !! k =
        Some (spec_rename (Z.of_nat k + 1) (item_text u item)
                (parent_name u item) pattern).
Proof.
  intros Hsel Hm pattern items.
  exists (push (mkMultiRenameCommand items
                  (spec_names_from u pattern 0 items)
                  (map (item_text u) items)) u),
         (spec_names_from u pattern 0 items).
  assert (Hitems : preOrderedItems u reversed = items).
  { unfold preOrderedItems, items. destruct reversed; reflexivity. }
  repeat split.
  - unfold applySpecialRenameToTree. fold pattern.
    destruct (selected u) as [|x l] eqn:Hs; [congruence|].
    rewrite Hitems. rewrite (newNames_from_spec u pattern Hm). reflexivity.
  - apply push_undoStack.
  - apply spec_names_from_length.
  - intros k item Hk.
    rewrite (spec_names_from_lookup u pattern items 0 k item Hk).
    do 2 f_equal.
Qed.

Lemma special_rename_names_witness :
  exists (u' : Ui) (newNames : list str),
    applySpecialRenameToTree example_ui (py " x_##_$_@_! ") true = Ok u' /\
    undoStack u' =
      mkMultiRenameCommand [4; 5; 3; 2]%nat newNames
        [py "c"; py "d"; py "b"; py "a"] :: [] /\
    length newNames = 4%nat /\
    forall (k : nat) (item : nat),
      [4; 5; 3; 2]%nat !! k = Some item ->
      newNames !! k =
        Some (spec_rename (Z.of_nat k + 1) (item_text example_ui item)
                (parent_name example_ui item) (py "x_##_$_@_!")).
Proof.
  apply (special_rename_names example_ui (py " x_##_$_@_! ") true).
  - vm_compute. discriminate.
  - vm_compute. reflexivity.
Defined.

(** C1, counterexamples.  A run that mixes the two characters is one token,
    rendered by its first character over the length of the whole run: for
    the first item [#$] gives [01], where the runs read one by one give
    [1A].  And the white space around the first line is dropped: [n_# ]
    names the first item [n_1], without the blank. *)
Lemma special_rename_counterexample :
  computeNewNameForItem example_ui (first_line (py "#$")) 2 1 = Ok (py "01") /\
  spec_rename 1 (item_text example_ui 2) (parent_name example_ui 2)
    (first_line (py "#$")) = py "1A" /\
  (exists u', applySpecialRenameToTree example_ui (py "#$") false = Ok u' /\
              item_text u' 2 = py "01") /\
  spec_rename 1 (item_text example_ui 2) (parent_name example_ui 2)
    (first_line (py "n_# ")) = py "n_1 " /\
  (exists u', applySpecialRenameToTree example_ui (py "n_# ") false = Ok u' /\
              item_text u' 2 = py "n_1").
Proof.
  split; [vm_compute; reflexivity|].
  split; [vm_compute; reflexivity|].
  split; [eexists; split; [reflexivity|vm_compute; reflexivity]|].
  split; [vm_compute; reflexivity|].
  eexists; split; [reflexivity|vm_compute; reflexivity].
Qed.

(** C2 (as amended). For a [RenameCommand] and for a [MultiRenameCommand]
    whose recorded names all contain a character that is not white space,
    [redo] sets the text of each affected item to its recorded new name and
    [undo] sets it to its recorded old name (the names of the last entry,
    should an item have several), and the two are inverse on these texts:
    after [redo] then [undo] the text is the old name, after [undo] then
    [redo] it is the new name. *)
Theorem rename_commands_redo_undo (c : Command) (u : Ui) :
  (forall ch, ch ∈ changes_of c ->
     nonblank (ch_newName ch) /\ nonblank (ch_oldName ch)) ->
  forall (item : nat) (newName oldName : str),
    recorded_new (changes_of c) item = Some newName ->
    recorded_old (changes_of c) item = Some oldName ->
    item_text (redo c u) item = newName /\
    item_text (undo c u) item = oldName /\
    item_text (undo c (redo c u)) item = oldName /\
    item_text (redo c (undo c u)) item = newName.
Proof.
  intros Hnb item newName oldName Hnew Hold.
  assert (Hn : forall ch, ch ∈ changes_of c -> nonblank (ch_newName ch))
    by (intros ch Hin; apply (Hnb ch Hin)).
  assert (Ho : forall ch, ch ∈ changes_of c -> nonblank (ch_oldName ch))
    by (intros ch Hin; apply (Hnb ch Hin)).
  repeat split.
  - rewrite (proj1 (redo_text c u Hn)), Hnew. reflexivity.
  - rewrite (proj1 (undo_text c u Ho)), Hold. reflexivity.
  - rewrite (proj1 (undo_text c (redo c u) Ho)), Hold. reflexivity.
  - rewrite (proj1 (redo_text c (undo c u) Hn)), Hnew. reflexivity.
Qed.

Lemma rename_commands_redo_undo_witness :
  item_text (redo example_command example_ui) 3 = py "x_02" /\
  item_text (undo example_command example_ui) 3 = py "b" /\
  item_text (undo example_command (redo example_command example_ui)) 3 = py "b" /\
  item_text (redo example_command (undo example_command example_ui)) 3 = py "x_02".
Proof.
  apply (rename_commands_redo_undo example_command example_ui).
  - intros ch Hin. cbn in Hin.
    apply elem_of_cons in Hin. destruct Hin as [->|Hin].
    { split; vm_compute; discriminate. }
    apply elem_of_cons in Hin. destruct Hin as [->|Hin].
    { split; vm_compute; discriminate. }
    apply elem_of_nil in Hin. destruct Hin.
  - reflexivity.
  - reflexivity.
Defined.

(** C2, counterexample.  The command records the empty text as the new name
    of item 2; [redo] sets it, the item-changed handler of the tree finds
    the text blank and puts the stored previous name back: the text after
    [redo] is [a], not the recorded new name (and the handler returns with
    the signals still blocked). *)
Lemma redo_blank_name_counterexample :
  recorded_new (changes_of blank_command) 2 = Some [] /\
  item_text (redo blank_command example_ui) 2 = py "a" /\
  item_text (redo blank_command example_ui) 2 <> [] /\
  signalsBlocked (redo blank_command example_ui) = true.
Proof.
  split; [reflexivity|].
  split; [vm_compute; reflexivity|].
  split; [vm_compute; discriminate|].
  vm_compute; reflexivity.
Qed.

End DagRenamerFacts.

(** ** Sorting *)

Module PySortFacts.

Section SortFacts.
Context {A K : Type} (ltb : K -> K -> bool) (key : A -> K).

(** [x] comes no later than [y]: the key of [y] is not below the key of [x]. *)
Definition key_le (x y : A) : Prop := ltb (key y) (key x) = false.

Lemma insert_by_perm x l : Permutation (insert_by ltb key x l) (x :: l).
Proof.
  induction l as [|y l IH]; cbn [insert_by]; [reflexivity|].
  destruct (ltb (key y) (key x)); [|reflexivity].
  rewrite IH. apply perm_swap.
Qed.

Lemma sort_by_perm l : Permutation (sort_by ltb key l) l.
Proof.
  induction l as [|x l IH]; cbn [sort_by]; [reflexivity|].
  rewrite insert_by_perm, IH. reflexivity.
Qed.

Lemma sort_by_length l : length (sort_by ltb key l) = length l.
Proof. apply Permutation_length, sort_by_perm. Qed.

Hypothesis ltb_asym : forall a b, ltb a b = true -> ltb b a = false.

Lemma insert_by_hdrel a x l :
  key_le a x -> HdRel key_le a l -> HdRel key_le a (insert_by ltb key x l).
Proof.
  intros Hax Hal. destruct l as [|y l]; cbn [insert_by].
  - constructor. exact Hax.
  - destruct (ltb (key y) (key x)); constructor.
    + inversion Hal; assumption.
    + exact Hax.
Qed.

Lemma insert_by_sorted x l :
  Sorted key_le l -> Sorted key_le (insert_by ltb key x l).
Proof.
  induction 1 as [|y l Hs IH Hhd]; cbn [insert_by].
  - repeat constructor.
  - destruct (ltb (key y) (key x)) eqn:Hyx.
    + constructor; [exact IH|].
      apply insert_by_hdrel; [|exact Hhd].
      unfold key_le. apply ltb_asym. exact Hyx.
    + constructor; [constructor; assumption|].
      constructor. exact Hyx.
Qed.

Lemma sort_by_sorted l : Sorted key_le (sort_by ltb key l).
Proof.
  induction l as [|x l IH]; cbn [sort_by]; [constructor|].
  apply insert_by_sorted. exact IH.
Qed.

Hypothesis le_trans : forall a b c,
  ltb b a = false -> ltb c b = false -> ltb c a = false.

Lemma sort_by_strongly_sorted l : StronglySorted key_le (sort_by ltb key l).
Proof.
  apply Sorted_StronglySorted; [|apply sort_by_sorted].
  intros x y z Hxy Hyz. unfold key_le in *. eapply le_trans; eassumption.
Qed.

End SortFacts.

End PySortFacts.

(** ** The curve extraction tool *)

Module CurveExtractionFacts.
Import CurveExtraction PySortFacts.

Section Facts.
Context {Point Param : Type} (param_ltb : Param -> Param -> bool).

Lemma place_locators_projections (h : Host (Point := Point) (Param := Param))
    target : forall l i,
  closest_queries (place_locators h target i l) = [] /\
  locators_made (place_locators h target i l) =
    map locator_name (seq i (length l)) /\
  positions_set (place_locators h target i l) = map fst l /\
  uvalues_set (place_locators h target i l) = map snd l.
Proof.
  induction l as [|pu l IH]; intros i; [repeat split|].
  destruct (IH (S i)) as (Hq & Hl & Hp & Hu).
  unfold closest_queries, locators_made, positions_set, uvalues_set in *.
  cbn [place_locators]. rewrite !flat_map_app, Hq, Hl, Hp, Hu.
  repeat split.
Qed.

Lemma queries_projections (sh : str) (points : list Point) :
  closest_queries (map (ClosestPoint (Param := Param) sh) points) =
    map (fun p => (sh, p)) points /\
  locators_made (map (ClosestPoint (Param := Param) sh) points) = [] /\
  positions_set (map (ClosestPoint (Param := Param) sh) points) = [] /\
  uvalues_set (map (ClosestPoint (Param := Param) sh) points) = [].
Proof.
  unfold closest_queries, locators_made, positions_set, uvalues_set.
  induction points as [|p points (Hq & Hl & Hp & Hu)]; [repeat split|].
  cbn [map flat_map app]. rewrite Hq, Hl, Hp, Hu. repeat split.
Qed.

(** The six calls for the [k]-th pair stand at the offset [6 * k]. *)
Lemma place_locators_at (h : Host (Point := Point) (Param := Param)) target :
  forall l i k pu,
    l !! k = Some pu ->
    take 6 (drop (6 * k) (place_locators h target i l)) =
      place_locator h target (i + k) pu.
Proof.
  induction l as [|x l IH]; intros i k pu Hk; [discriminate|].
  destruct k as [|k].
  - injection Hk as ->. rewrite Nat.add_0_r. reflexivity.
  - change (l !! k = Some pu) in Hk.
    replace (6 * S k)%nat with (6 + 6 * k)%nat by lia.
    cbn [place_locators].
    rewrite <- drop_drop.
    change (drop 6 (place_locator h target i x ++ place_locators h target (S i) l))
      with (place_locators h target (S i) l).
    rewrite (IH (S i) k pu Hk). f_equal. lia.
Qed.

Lemma place_locators_length (h : Host (Point := Point) (Param := Param)) target :
  forall l i, length (place_locators h target i l) = (6 * length l)%nat.
Proof.
  induction l as [|x l IH]; intros i; [reflexivity|].
  cbn [place_locators]. rewrite length_app, IH. cbn [place_locator length]. lia.
Qed.

(** C3 (as amended). With a target curve set (a curve, so with a shape
    node) and at least two selected vertices, the extract operation first
    queries [closestPoint] on the target's curve function set once for each
    vertex's world position, and makes no other call on it.  It then goes
    through the vertices in nondecreasing order of the parameter found, and
    for the k-th of them makes these six calls, one locator after the
    other and nothing else: it asks the host for a locator of the name
    [locator_k], moves the node the host returns to the vertex's position,
    scales that node's shape, attaches the node to the target curve by a
    motion path, sets the [uValue] of that motion path to the vertex's
    parameter, and disconnects the [uValue] from its animation curve. *)
Theorem extract_curve_locators (h : Host (Point := Point) (Param := Param))
    (target shape : str) (shapes : list str) :
  (forall a b, param_ltb a b = true -> param_ltb b a = false) ->
  (forall a b c, param_ltb b a = false -> param_ltb c b = false ->
                 param_ltb c a = false) ->
  target <> [] ->
  listRelatives_shapes h target = Some (shape :: shapes) ->
  (2 <= length (ls_selection h))%nat ->
  let points := map (pointPosition h) (ls_selection h) in
  let n := length (ls_selection h) in
  exists (calls : list Call) (sorted : list (Point * Param)),
    extractCurve param_ltb h (Some target) = Ok calls /\
    closest_queries calls = map (fun p => (shape, p)) points /\
    Permutation sorted (map (fun p => (p, closestPoint h shape p)) points) /\
    StronglySorted (fun x y => param_ltb (snd y) (snd x) = false) sorted /\
    locators_made calls = map locator_name (seq 0 n) /\
    positions_set calls = map fst sorted /\
    uvalues_set calls = map snd sorted /\
    length calls = (n + 6 * n)%nat /\
    take n calls = map (ClosestPoint shape) points /\
    forall (k : nat) (pos : Point) (u : Param),
      sorted !! k = Some (pos, u) ->
      let loc := spaceLocator h (locator_name k) in
      let motionPathNode := pathAnimation h loc target in
      take 6 (drop (n + 6 * k) calls) =
        [ SpaceLocator (locator_name k);
          Xform loc pos;
          SetLocalScale (locatorShape h loc);
          PathAnimation loc target;
          SetUValue motionPathNode u;
          DisconnectUValue motionPathNode ].
Proof.
  intros Hasym Htrans Htarget Hshape Hlen points n.
  set (pairs := map (fun p => (p, closestPoint h shape p)) points).
  exists (map (ClosestPoint shape) points
          ++ place_locators h target 0 (sort_by param_ltb snd pairs)),
         (sort_by param_ltb snd pairs).
  assert (Hn : length (sort_by param_ltb snd pairs) = n).
  { rewrite sort_by_length. unfold pairs, points. rewrite !length_map. reflexivity. }
  assert (Hq0 : length (map (ClosestPoint (Param := Param) shape) points) = n).
  { unfold points. rewrite !length_map. reflexivity. }
  destruct (place_locators_projections h target (sort_by param_ltb snd pairs) 0)
    as (Hq & Hl & Hp & Hu).
  destruct (queries_projections shape points) as (Hq' & Hl' & Hp' & Hu').
  split; [|split; [|split; [|split; [|split; [|split; [|split; [|split; [|split]]]]]]]].
  - unfold extractCurve.
    destruct target as [|c target]; [congruence|].
    destruct (ls_selection h) as [|v vs] eqn:Hsel; [simpl in Hlen; lia|].
    fold points. rewrite Hshape.
    replace (length points <? 2)%nat with false; [reflexivity|].
    symmetry. apply Nat.ltb_ge. unfold points. rewrite length_map. exact Hlen.
  - unfold closest_queries in *. rewrite flat_map_app, Hq, Hq', app_nil_r. reflexivity.
  - apply sort_by_perm.
  - apply (sort_by_strongly_sorted param_ltb snd Hasym Htrans).
  - unfold locators_made in *. rewrite flat_map_app, Hl, Hl', Hn. reflexivity.
  - unfold positions_set in *. rewrite flat_map_app, Hp, Hp'. reflexivity.
  - unfold uvalues_set in *. rewrite flat_map_app, Hu, Hu'. reflexivity.
  - rewrite length_app, Hq0, place_locators_length, Hn. reflexivity.
  - rewrite <- Hq0 at 1. rewrite take_app_length. reflexivity.
  - intros k pos u Hk loc motionPathNode.
    rewrite <- drop_drop, <- Hq0, drop_app_length.
    rewrite (place_locators_at h target _ 0 k (pos, u) Hk). reflexivity.
Qed.

End Facts.

Lemma extract_curve_locators_witness :
  exists (calls : list Call) (sorted : list (Z * Z)),
    extractCurve Z.ltb example_host (Some (py "curve1")) = Ok calls /\
    closest_queries calls =
      [(py "curveShape1", 10); (py "curveShape1", 20); (py "curveShape1", 30)] /\
    Permutation sorted [(10, 7); (20, 2); (30, 5)] /\
    StronglySorted (fun x y => Z.ltb (snd y) (snd x) = false) sorted /\
    locators_made calls = [py "locator_1"; py "locator_2"; py "locator_3"] /\
    positions_set calls = map fst sorted /\
    uvalues_set calls = map snd sorted /\
    length calls = 21%nat /\
    take 3 calls =
      [ClosestPoint (py "curveShape1") 10; ClosestPoint (py "curveShape1") 20;
       ClosestPoint (py "curveShape1") 30] /\
    forall (k : nat) (pos u : Z),
      sorted !! k = Some (pos, u) ->
      take 6 (drop (3 + 6 * k) calls) =
        [ SpaceLocator (locator_name k);
          Xform (locator_name k) pos;
          SetLocalScale (locator_name k ++ py "Shape");
          PathAnimation (locator_name k) (py "curve1");
          SetUValue (py "motionPath_" ++ locator_name k) u;
          DisconnectUValue (py "motionPath_" ++ locator_name k) ].
Proof.
  apply (extract_curve_locators Z.ltb example_host (py "curve1")
           (py "curveShape1") []).
  - intros a b H. apply Z.ltb_lt in H. apply Z.ltb_ge. lia.
  - intros a b c H1 H2. apply Z.ltb_ge in H1, H2. apply Z.ltb_ge. lia.
  - vm_compute. discriminate.
  - reflexivity.
  - vm_compute. lia.
Defined.

(** C3, counterexample.  In a scene which holds [locator_1] ..
    [locator_3] already (the tool has run once) the locators requested under
    these names are the nodes [locator_4] .. [locator_6]: these are moved,
    attached and given the parameters, and no new locator has a name
    [locator_1] .. [locator_3]. *)
Lemma locator_names_taken_counterexample :
  exists calls : list Call,
    extractCurve Z.ltb second_run_host (Some (py "curve1")) = Ok calls /\
    locators_made calls = [py "locator_1"; py "locator_2"; py "locator_3"] /\
    nodes_moved calls =
      [(py "locator_4", 20); (py "locator_5", 30); (py "locator_6", 10)] /\
    paths_attached calls =
      [(py "locator_4", py "curve1"); (py "locator_5", py "curve1");
       (py "locator_6", py "curve1")] /\
    uvalues_on calls =
      [(py "motionPath_locator_4", 2); (py "motionPath_locator_5", 5);
       (py "motionPath_locator_6", 7)].
Proof.
  eexists. split; [vm_compute; reflexivity|].
  repeat split.
Qed.
End CurveExtractionFacts.

(** ** The rig colour tool *)

Module RigColorFacts.
Import RigColor.

(** *** Colour bookmarks *)

(** When the call returns, the node and the attribute exist, the attribute
    holds the text of the value returned, and the value has as many entries
    as there are default colours. *)
Lemma load_bookmarks_post sc n a defaults v sc' :
  loadOrCreateColorBookmarks sc n a defaults = (Ok v, sc') ->
  objExists sc' n = true /\
  stringAttrs sc' !! (n, a) = Some (JsonText v) /\
  json_loads (getAttr sc' n a) = Ok v /\
  py_len v = Ok (length defaults).
Proof.
  unfold loadOrCreateColorBookmarks.
  assert (Hset : forall s x,
    stringAttrs (setAttr n a (json_dumps x) s) !! (n, a) = Some (JsonText x)).
  { intros s x. cbn. apply lookup_insert_eq. }
  assert (Hget : forall s x,
    json_loads (getAttr (setAttr n a (json_dumps x) s) n a) = Ok x).
  { intros s x. unfold getAttr. rewrite Hset. reflexivity. }
  destruct (objExists sc n) eqn:Hex; cbn [negb].
  2:{ intros [= <- <-]. repeat split; try apply Hset; try apply Hget.
      unfold objExists. cbn. apply bool_decide_eq_true. set_solver. }
  destruct (attributeQuery_exists sc n a) eqn:Hattr; cbn [negb].
  2:{ intros [= <- <-]. repeat split; try apply Hset; try apply Hget.
      exact Hex. }
  unfold attributeQuery_exists in Hattr. apply bool_decide_eq_true in Hattr.
  destruct Hattr as [t Ht]. unfold getAttr. rewrite Ht. cbn [default from_option id].
  destruct t as [s|x]; cbn [json_loads].
  { intros [= <- <-]. repeat split; try apply Hset; try apply Hget.
    exact Hex. }
  destruct (py_len x) as [k|e] eqn:Hlen; [|discriminate].
  destruct (Nat.eqb_spec k (length defaults)) as [->|Hne]; cbn [negb].
  - intros [= <- <-]. repeat split; try assumption.
    unfold getAttr. rewrite Ht. reflexivity.
  - intros [= <- <-]. repeat split; try apply Hset; try apply Hget.
    exact Hex.
Qed.

(** A stored list of the right length is returned, and nothing changes. *)
Lemma load_bookmarks_stored sc n a defaults l :
  objExists sc n = true ->
  stringAttrs sc !! (n, a) = Some (JsonText (JArr l)) ->
  length l = length defaults ->
  loadOrCreateColorBookmarks sc n a defaults = (Ok (JArr l), sc).
Proof.
  intros Hex Ht Hlen. unfold loadOrCreateColorBookmarks.
  rewrite Hex. cbn [negb]. unfold attributeQuery_exists.
  rewrite bool_decide_eq_true_2 by (rewrite Ht; eauto). cbn [negb].
  unfold getAttr. rewrite Ht. cbn. rewrite Hlen, Nat.eqb_refl. reflexivity.
Qed.

(** A missing node, a missing attribute, a text that is no JSON, or a list
    (string, object) of another length: the default colours are written and
    returned. *)
Lemma load_bookmarks_defaults sc n a defaults :
  objExists sc n = false \/
  stringAttrs sc !! (n, a) = None \/
  (exists s, stringAttrs sc !! (n, a) = Some (NoJson s)) \/
  (exists v k, stringAttrs sc !! (n, a) = Some (JsonText v) /\
               py_len v = Ok k /\ k <> length defaults) ->
  exists sc',
    loadOrCreateColorBookmarks sc n a defaults = (Ok (JArr defaults), sc') /\
    stringAttrs sc' !! (n, a) = Some (JsonText (JArr defaults)).
Proof.
  intros H. unfold loadOrCreateColorBookmarks.
  destruct (objExists sc n) eqn:Hex; cbn [negb].
  2:{ eexists. split; [reflexivity|]. cbn. apply lookup_insert_eq. }
  destruct H as [H|[H|[H|H]]]; [discriminate| | |].
  - unfold attributeQuery_exists.
    rewrite bool_decide_eq_false_2
      by (rewrite H; intros [? ?]; discriminate).
    cbn [negb]. eexists. split; [reflexivity|]. cbn. apply lookup_insert_eq.
  - destruct H as [s Hs]. unfold attributeQuery_exists.
    rewrite bool_decide_eq_true_2 by (rewrite Hs; eauto). cbn [negb].
    unfold getAttr. rewrite Hs. cbn [default from_option id json_loads].
    eexists. split; [reflexivity|]. cbn. apply lookup_insert_eq.
  - destruct H as (v & k & Hv & Hk & Hne). unfold attributeQuery_exists.
    rewrite bool_decide_eq_true_2 by (rewrite Hv; eauto). cbn [negb].
    unfold getAttr. rewrite Hv. cbn [default from_option id json_loads]. rewrite Hk.
    destruct (Nat.eqb_spec k (length defaults)); [contradiction|].
    cbn [negb]. eexists. split; [reflexivity|]. cbn. apply lookup_insert_eq.
Qed.

(** C9, the failing input.  The attribute holds the JSON text [7]:
    [json.loads] returns a number, [len] of it raises [TypeError], which
    [except ValueError] does not catch; no colours are returned and the
    attribute keeps the text.  The attribute holding the JSON string
    ["abc"] has length three, passes the length test and is returned as it
    is: a string, not a list of colours. *)
Theorem load_bookmarks_non_list_json :
  loadOrCreateColorBookmarks number_scene DATA_NODE LAYER_ATTR layer_defaults
    = (Raise TypeError, number_scene) /\
  loadOrCreateColorBookmarks string_scene DATA_NODE LAYER_ATTR layer_defaults
    = (Ok (JStr (py "abc")), string_scene) /\
  loadOrCreateColorBookmarks stored_scene DATA_NODE LAYER_ATTR layer_defaults
    = (Ok (JArr stored_colours), stored_scene).
Proof.
  split; [|split].
  - vm_compute. reflexivity.
  - vm_compute. reflexivity.
  - apply load_bookmarks_stored; vm_compute; reflexivity.
Qed.

(** *** Joints into display layers *)

(** One joint: it goes into the layer its name stands for, or a warning is
    given; nothing else changes. *)
Lemma categoriseJoint_effect j r :
  let r' := categoriseJoint j r in
  layerOf r' =
    match layer_for j with
    | Some L => <[j := L]> (layerOf r)
    | None => layerOf r
    end /\
  rig_warnings r' =
    match layer_for j with
    | Some _ => rig_warnings r
    | None => MSG_NO_LAYER j :: rig_warnings r
    end /\
  selection r' = selection r /\ objects r' = objects r /\
  allDescendents r' = allDescendents r /\ objectType r' = objectType r /\
  layerColour r' = layerColour r.
Proof.
  unfold categoriseJoint, layer_for.
  destruct (re_search REGEX_PATTERN_JNT_BS (last_segment j)); [repeat split|].
  destruct (re_search REGEX_PATTERN_JNT_FK (last_segment j)); [repeat split|].
  destruct (re_search REGEX_PATTERN_JNT_IK (last_segment j)); repeat split.
Qed.

(** A run of joints, one after the other. *)
Definition categoriseAll (js : list str) (r : Rig) : Rig :=
  fold_left (fun r j => categoriseJoint j r) js r.

Lemma categoriseAll_frame js : forall r,
  selection (categoriseAll js r) = selection r /\
  objects (categoriseAll js r) = objects r /\
  allDescendents (categoriseAll js r) = allDescendents r /\
  objectType (categoriseAll js r) = objectType r /\
  layerColour (categoriseAll js r) = layerColour r.
Proof.
  induction js as [|j js IH]; intros r; [repeat split|].
  cbn [categoriseAll fold_left]. fold (categoriseAll js (categoriseJoint j r)).
  destruct (IH (categoriseJoint j r)) as (H1 & H2 & H3 & H4 & H5).
  destruct (categoriseJoint_effect j r) as (_ & _ & G1 & G2 & G3 & G4 & G5).
  cbv zeta in *. rewrite H1, H2, H3, H4, H5. auto.
Qed.

Lemma categoriseAll_app js1 js2 r :
  categoriseAll (js1 ++ js2) r = categoriseAll js2 (categoriseAll js1 r).
Proof. apply fold_left_app. Qed.

(** After a run, a joint of the run is in the layer its name stands for;
    a joint whose name stands for none is where it was, and was warned
    about. *)
Lemma categoriseAll_layers js : forall r j,
  j ∈ js ->
  match layer_for j with
  | Some L => layerOf (categoriseAll js r) !! j = Some L
  | None =>
      layerOf (categoriseAll js r) !! j = layerOf r !! j /\
      MSG_NO_LAYER j ∈ rig_warnings (categoriseAll js r)
  end.
Proof.
  assert (Hkeep : forall js r j,
    match layer_for j with
    | Some L => layerOf r !! j = Some L ->
                layerOf (categoriseAll js r) !! j = Some L
    | None => layerOf (categoriseAll js r) !! j = layerOf r !! j /\
              (forall m, m ∈ rig_warnings r ->
                         m ∈ rig_warnings (categoriseAll js r))
    end).
  { induction js0 as [|x js0 IH]; intros r j.
    - destruct (layer_for j); cbn; auto.
    - cbn [categoriseAll fold_left]. fold (categoriseAll js0 (categoriseJoint x r)).
      specialize (IH (categoriseJoint x r) j).
      destruct (categoriseJoint_effect x r) as (Hl & Hw & _). cbv zeta in *.
      destruct (layer_for j) as [L|] eqn:Hj.
      + intros Hr. apply IH. rewrite Hl.
        destruct (layer_for x) as [Lx|] eqn:Hx; [|exact Hr].
        destruct (decide (x = j)) as [->|Hne].
        * rewrite lookup_insert_eq. congruence.
        * rewrite lookup_insert_ne by exact Hne. exact Hr.
      + destruct IH as [IH1 IH2]. split.
        * rewrite IH1, Hl.
          destruct (layer_for x) as [Lx|] eqn:Hx; [|reflexivity].
          apply lookup_insert_ne. congruence.
        * intros m Hm. apply IH2. rewrite Hw.
          destruct (layer_for x); [exact Hm|].
          apply elem_of_cons. right. exact Hm. }
  induction js as [|x js IH]; intros r j Hin.
  { apply elem_of_nil in Hin. destruct Hin. }
  cbn [categoriseAll fold_left]. fold (categoriseAll js (categoriseJoint x r)).
  destruct (categoriseJoint_effect x r) as (Hl & Hw & _). cbv zeta in *.
  apply elem_of_cons in Hin. destruct Hin as [->|Hin].
  - specialize (Hkeep js (categoriseJoint x r) x).
    destruct (layer_for x) as [L|] eqn:Hx.
    + apply Hkeep. rewrite Hl. apply lookup_insert_eq.
    + destruct Hkeep as [H1 H2]. split.
      * rewrite H1, Hl. reflexivity.
      * apply H2. rewrite Hw. apply elem_of_cons. left. reflexivity.
  - specialize (IH (categoriseJoint x r) j Hin).
    destruct (layer_for j) as [L|] eqn:Hj; [exact IH|].
    destruct IH as [IH1 IH2]. split; [|exact IH2].
    rewrite IH1, Hl.
    destruct (layer_for x) as [Lx|] eqn:Hx; [|reflexivity].
    apply lookup_insert_ne. congruence.
Qed.

Lemma categoriseDescendents_as_run ds r :
  categoriseDescendents ds r =
    categoriseAll (List.filter (fun d => bool_decide (objectType r d = JOINT)) ds) r.
Proof.
  unfold categoriseDescendents. revert r.
  induction ds as [|d ds IH]; intros r; [reflexivity|].
  cbn [fold_left List.filter].
  destruct (bool_decide (objectType r d = JOINT)) eqn:Hd.
  - cbn [categoriseAll fold_left]. fold (categoriseAll
      (List.filter (fun d0 => bool_decide (objectType r d0 = JOINT)) ds)
      (categoriseJoint d r)).
    rewrite IH.
    destruct (categoriseJoint_effect d r) as (_ & _ & _ & _ & _ & Ht & _).
    cbv zeta in Ht. rewrite Ht. reflexivity.
  - apply IH.
Qed.

(** The joints the loop works on, object by object, with the types and
    descendants of the rig [r0] the run starts from. *)
Definition joints_of (applyDescendents : bool) (r0 : Rig) (objs : list str)
  : list str :=
  flat_map (fun o =>
    (if applyDescendents
     then List.filter (fun d => bool_decide (objectType r0 d = JOINT))
            (default [] (allDescendents r0 o))
     else [])
    ++ (if bool_decide (objectType r0 o = JOINT) then [o] else [])) objs.

(** When the host lists the descendants of every selected object, the loop
    over the selection is the run over the processed joints. *)
Lemma categoriseObjects_as_run applyDescendents r0 : forall objs r,
  allDescendents r = allDescendents r0 ->
  objectType r = objectType r0 ->
  (applyDescendents = true ->
   forall o, o ∈ objs -> is_Some (allDescendents r0 o)) ->
  categoriseObjects applyDescendents objs r =
    (Ok tt, categoriseAll (joints_of applyDescendents r0 objs) r).
Proof.
  induction objs as [|o objs IH]; intros r Hd Ht Hsome; [reflexivity|].
  cbn [categoriseObjects joints_of flat_map].
  fold (joints_of applyDescendents r0 objs).
  rewrite categoriseAll_app.
  assert (Hstep : forall r1, objectType r1 = objectType r0 ->
    (if bool_decide (objectType r1 o = JOINT) then categoriseJoint o r1 else r1)
    = categoriseAll (if bool_decide (objectType r0 o = JOINT) then [o] else []) r1).
  { intros r1 H1. rewrite H1. destruct (bool_decide (objectType r0 o = JOINT)); reflexivity. }
  unfold categoriseObject. destruct applyDescendents.
  - destruct (Hsome eq_refl o) as [ds Hds]. { apply elem_of_cons. left. reflexivity. }
    rewrite Hd, Hds. cbn [default from_option id].
    rewrite categoriseDescendents_as_run, Ht.
    set (r1 := categoriseAll (List.filter (fun d => bool_decide (objectType r0 d = JOINT)) ds) r).
    destruct (categoriseAll_frame (List.filter (fun d => bool_decide (objectType r0 d = JOINT)) ds) r)
      as (_ & _ & F3 & F4 & _). fold r1 in F3, F4.
    rewrite Hstep by congruence.
    set (r2 := categoriseAll _ r1).
    destruct (categoriseAll_frame (if bool_decide (objectType r0 o = JOINT) then [o] else []) r1)
      as (_ & _ & G3 & G4 & _). fold r2 in G3, G4.
    rewrite categoriseAll_app. fold r1. fold r2.
    apply IH; [congruence|congruence|].
    intros _ o' Ho'. apply (Hsome eq_refl). apply elem_of_cons. right. exact Ho'.
  - rewrite Hstep by exact Ht. cbn [app].
    set (r2 := categoriseAll _ r).
    destruct (categoriseAll_frame (if bool_decide (objectType r0 o = JOINT) then [o] else []) r)
      as (_ & _ & G3 & G4 & _). fold r2 in G3, G4.
    change (categoriseAll [] r) with r. fold r2.
    apply IH; [congruence|congruence|discriminate].
Qed.

Lemma getColorFromLabel_layer_bar bs fk ik :
  getColorFromLabel (layer_bar bs fk ik) LAYER_NAME_JNT_BS = Ok bs /\
  getColorFromLabel (layer_bar bs fk ik) LAYER_NAME_JNT_FK = Ok fk /\
  getColorFromLabel (layer_bar bs fk ik) LAYER_NAME_JNT_IK = Ok ik.
Proof. repeat split. Qed.

(** What one [ensureLayer] step does to the scene. *)
Lemma ensureLayer_effect bar L c r :
  getColorFromLabel bar L = Ok c ->
  exists r1,
    ensureLayer bar L r = (Ok tt, r1) /\
    (selection r1 = selection r /\ allDescendents r1 = allDescendents r /\
     objectType r1 = objectType r /\ layerOf r1 = layerOf r /\
     rig_warnings r1 = rig_warnings r) /\
    L ∈ objects r1 /\
    (forall x, x ∈ objects r -> x ∈ objects r1) /\
    (forall x, x ∈ objects r1 -> x = L \/ x ∈ objects r) /\
    (L ∉ objects r -> layerColour r1 !! L = Some c) /\
    (forall L', L' <> L -> layerColour r1 !! L' = layerColour r !! L').
Proof.
  intros Hc. unfold ensureLayer. rewrite Hc.
  destruct (decide (L ∈ objects r)) as [Hin|Hin].
  - rewrite (bool_decide_eq_true_2 _ Hin). cbn [negb].
    exists r. repeat split; auto. intros Hn. destruct (Hn Hin).
  - rewrite (bool_decide_eq_false_2 _ Hin). cbn [negb].
    eexists. split; [reflexivity|].
    cbn [setLayerColor createDisplayLayer objects selection allDescendents
         objectType layerOf layerColour rig_warnings].
    split; [repeat split|].
    split; [apply elem_of_union; left; apply elem_of_singleton; reflexivity|].
    split; [intros x Hx; apply elem_of_union; right; exact Hx|].
    split.
    { intros x Hx. apply elem_of_union in Hx. destruct Hx as [Hx|Hx]; [|right; exact Hx].
      left. apply elem_of_singleton in Hx. exact Hx. }
    split; [intros _; apply lookup_insert_eq|].
    intros L' Hne. apply lookup_insert_ne. congruence.
Qed.

(** What one [overwriteColor] step does to the scene. *)
Lemma overwriteColor_effect bar L c r :
  getColorFromLabel bar L = Ok c ->
  exists r1,
    overwriteColor bar L r = (Ok tt, r1) /\
    (selection r1 = selection r /\ allDescendents r1 = allDescendents r /\
     objectType r1 = objectType r /\ layerOf r1 = layerOf r /\
     rig_warnings r1 = rig_warnings r) /\
    objects r1 = objects r /\
    layerColour r1 !! L = Some c /\
    (forall L', L' <> L -> layerColour r1 !! L' = layerColour r !! L').
Proof.
  intros Hc. unfold overwriteColor. rewrite Hc.
  eexists. split; [reflexivity|].
  cbn [setLayerColor objects selection allDescendents objectType layerOf
       layerColour rig_warnings].
  split; [repeat split|]. split; [reflexivity|].
  split; [apply lookup_insert_eq|].
  intros L' Hne. apply lookup_insert_ne. congruence.
Qed.

(** The steps before the loop: they return, the three layers exist
    afterwards, a layer made by the run has its bookmarked colour, and the
    joints, their types and the selection are untouched. *)
Lemma layers_ensured bs fk ik overwrite r (k : Rig -> res unit * Rig) :
  exists r1,
    and_then (ensureLayer (layer_bar bs fk ik) LAYER_NAME_JNT_BS r) (fun r =>
    and_then (ensureLayer (layer_bar bs fk ik) LAYER_NAME_JNT_FK r) (fun r =>
    and_then (ensureLayer (layer_bar bs fk ik) LAYER_NAME_JNT_IK r) (fun r =>
    and_then
      (if overwrite : bool then
         and_then (overwriteColor (layer_bar bs fk ik) LAYER_NAME_JNT_BS r) (fun r =>
         and_then (overwriteColor (layer_bar bs fk ik) LAYER_NAME_JNT_FK r) (fun r =>
         overwriteColor (layer_bar bs fk ik) LAYER_NAME_JNT_IK r))
       else (Ok tt, r)) k))) = k r1 /\
    selection r1 = selection r /\ allDescendents r1 = allDescendents r /\
    objectType r1 = objectType r /\ layerOf r1 = layerOf r /\
    rig_warnings r1 = rig_warnings r /\
    LAYER_NAME_JNT_BS ∈ objects r1 /\ LAYER_NAME_JNT_FK ∈ objects r1 /\
    LAYER_NAME_JNT_IK ∈ objects r1 /\
    (LAYER_NAME_JNT_BS ∉ objects r -> layerColour r1 !! LAYER_NAME_JNT_BS = Some bs) /\
    (LAYER_NAME_JNT_FK ∉ objects r -> layerColour r1 !! LAYER_NAME_JNT_FK = Some fk) /\
    (LAYER_NAME_JNT_IK ∉ objects r -> layerColour r1 !! LAYER_NAME_JNT_IK = Some ik).
Proof.
  destruct (getColorFromLabel_layer_bar bs fk ik) as (Cbs & Cfk & Cik).
  assert (Nbf : LAYER_NAME_JNT_BS <> LAYER_NAME_JNT_FK) by (vm_compute; discriminate).
  assert (Nbi : LAYER_NAME_JNT_BS <> LAYER_NAME_JNT_IK) by (vm_compute; discriminate).
  assert (Nfi : LAYER_NAME_JNT_FK <> LAYER_NAME_JNT_IK) by (vm_compute; discriminate).
  destruct (ensureLayer_effect _ _ _ r Cbs)
    as (r1 & E1 & (A1 & A2 & A3 & A4 & A5) & I1 & U1 & D1 & K1 & O1).
  destruct (ensureLayer_effect _ _ _ r1 Cfk)
    as (r2 & E2 & (B1 & B2 & B3 & B4 & B5) & I2 & U2 & D2 & K2 & O2).
  destruct (ensureLayer_effect _ _ _ r2 Cik)
    as (r3 & E3 & (C1 & C2 & C3 & C4 & C5) & I3 & U3 & D3 & K3 & O3).
  rewrite E1. cbn [and_then]. rewrite E2. cbn [and_then]. rewrite E3. cbn [and_then].
  assert (Hf : LAYER_NAME_JNT_FK ∉ objects r -> LAYER_NAME_JNT_FK ∉ objects r1).
  { intros Hn Hin. destruct (D1 _ Hin) as [Heq|Hin']; [|exact (Hn Hin')].
    apply Nbf. symmetry. exact Heq. }
  assert (Hi : LAYER_NAME_JNT_IK ∉ objects r -> LAYER_NAME_JNT_IK ∉ objects r2).
  { intros Hn Hin. destruct (D2 _ Hin) as [Heq|Hin1]; [apply Nfi; symmetry; exact Heq|].
    destruct (D1 _ Hin1) as [Heq|Hin']; [|exact (Hn Hin')].
    apply Nbi. symmetry. exact Heq. }
  destruct overwrite.
  - destruct (overwriteColor_effect _ _ _ r3 Cbs)
      as (r4 & E4 & (F1 & F2 & F3 & F4 & F5) & J4 & K4 & O4).
    destruct (overwriteColor_effect _ _ _ r4 Cfk)
      as (r5 & E5 & (G1 & G2 & G3 & G4 & G5) & J5 & K5 & O5).
    destruct (overwriteColor_effect _ _ _ r5 Cik)
      as (r6 & E6 & (H1 & H2 & H3 & H4 & H5) & J6 & K6 & O6).
    rewrite E4. cbn [and_then]. rewrite E5. cbn [and_then]. rewrite E6. cbn [and_then].
    exists r6. split; [reflexivity|].
    split; [congruence|]. split; [congruence|]. split; [congruence|].
    split; [congruence|]. split; [congruence|].
    rewrite J6, J5, J4.
    split; [apply U3, U2, I1|]. split; [apply U3, I2|]. split; [exact I3|].
    split; [intros _; rewrite O6, O5 by congruence; exact K4|].
    split; [intros _; rewrite O6 by congruence; exact K5|].
    intros _. exact K6.
  - exists r3. split; [reflexivity|].
    split; [congruence|]. split; [congruence|]. split; [congruence|].
    split; [congruence|]. split; [congruence|].
    split; [apply U3, U2, I1|]. split; [apply U3, I2|]. split; [exact I3|].
    split; [intros Hn; rewrite O3, O2 by congruence; exact (K1 Hn)|].
    split; [intros Hn; rewrite O3 by congruence; exact (K2 (Hf Hn))|].
    intros Hn. exact (K3 (Hi Hn)).
Qed.

(** When the host lists the descendants of every selected object (or the
    descendants are not asked for), the run returns, every processed joint
    is in the layer its short name stands for - BS before FK before IK -,
    a joint standing for none is left where it was and warned about, and
    the three layers exist, those made by the run with their bookmarked
    colours. *)
Lemma categorise_when_descendents_listed bs fk ik applyDescendents overwrite r :
  selection r <> [] ->
  (applyDescendents = true ->
   forall o, o ∈ selection r -> is_Some (allDescendents r o)) ->
  exists r',
    categoriseJointsIntoLayers (layer_bar bs fk ik) applyDescendents overwrite r
      = (Ok tt, r') /\
    (forall j, j ∈ processed_joints applyDescendents r ->
       match layer_for j with
       | Some L => layerOf r' !! j = Some L
       | None => layerOf r' !! j = layerOf r !! j /\
                 MSG_NO_LAYER j ∈ rig_warnings r'
       end) /\
    LAYER_NAME_JNT_BS ∈ objects r' /\ LAYER_NAME_JNT_FK ∈ objects r' /\
    LAYER_NAME_JNT_IK ∈ objects r' /\
    (LAYER_NAME_JNT_BS ∉ objects r -> layerColour r' !! LAYER_NAME_JNT_BS = Some bs) /\
    (LAYER_NAME_JNT_FK ∉ objects r -> layerColour r' !! LAYER_NAME_JNT_FK = Some fk) /\
    (LAYER_NAME_JNT_IK ∉ objects r -> layerColour r' !! LAYER_NAME_JNT_IK = Some ik).
Proof.
  intros Hsel Hsome. unfold categoriseJointsIntoLayers.
  destruct (selection r) as [|o objs] eqn:Hs; [congruence|].
  destruct (layers_ensured bs fk ik overwrite r
              (fun r => categoriseObjects applyDescendents (o :: objs) r))
    as (r1 & Hrun & S1 & S2 & S3 & S4 & S5 & Ob & Of & Oi & Cb & Cf & Ci).
  rewrite Hrun.
  rewrite (categoriseObjects_as_run applyDescendents r (o :: objs) r1 S2 S3)
    by exact Hsome.
  set (js := joints_of applyDescendents r (o :: objs)).
  destruct (categoriseAll_frame js r1) as (F1 & F2 & F3 & F4 & F5).
  eexists. split; [reflexivity|].
  split.
  - intros j Hj.
    assert (Hj' : j ∈ js) by (unfold processed_joints in Hj; rewrite Hs in Hj; exact Hj).
    pose proof (categoriseAll_layers js r1 j Hj') as H.
    rewrite S4 in H. exact H.
  - rewrite F2, F5. repeat split; assumption.
Qed.

(** C5, the failing input.  A tip joint is selected and the option to
    apply to all descendants is set (as it is by default):
    [cmds.listRelatives] returns [None] for an object with nothing below
    it, the loop over [None] raises [TypeError], and the selected joint,
    whose name stands for the layer BS, is put into no layer and no warning
    is given.  With the option unset the same joint goes into BS. *)
Theorem categorise_tip_joint_raises :
  (exists r',
     categoriseJointsIntoLayers default_bar true false tip_rig
       = (Raise TypeError, r') /\
     layer_for TIP_JOINT = Some LAYER_NAME_JNT_BS /\
     TIP_JOINT ∈ processed_joints true tip_rig /\
     layerOf r' !! TIP_JOINT = None /\
     rig_warnings r' = []) /\
  (exists r',
     categoriseJointsIntoLayers default_bar false false tip_rig = (Ok tt, r') /\
     layerOf r' !! TIP_JOINT = Some LAYER_NAME_JNT_BS).
Proof.
  split.
  - eexists. split; [vm_compute; reflexivity|].
    split; [vm_compute; reflexivity|].
    split; [|split; vm_compute; reflexivity].
    vm_compute. apply elem_of_cons. left. reflexivity.
  - eexists. split; [vm_compute; reflexivity|].
    vm_compute. reflexivity.
Qed.

End RigColorFacts.

(** ** The importer: the transaction *)

Module ImportFacts.
Import ImportAssets.

(** What the code inside the transaction may do to the world: make calls
    other than [startTransaction] and [endTransaction], and add items. *)
Definition grows (w w' : World) : Prop :=
  exists new added,
    calls w' = calls w ++ new /\
    Forall (fun c => is_txn_call c = false) new /\
    snapshot (db w') = snapshot (db w) /\
    items (db w') = items (db w) ++ added.

Definition step_ok {A} (m : M A) : Prop :=
  forall w r w', m w = (r, w') -> grows w w'.

Lemma grows_refl w : grows w w.
Proof.
  exists [], []. rewrite !app_nil_r. repeat split. constructor.
Qed.

Lemma grows_trans w1 w2 w3 : grows w1 w2 -> grows w2 w3 -> grows w1 w3.
Proof.
  intros (n1 & a1 & C1 & F1 & S1 & I1) (n2 & a2 & C2 & F2 & S2 & I2).
  exists (n1 ++ n2), (a1 ++ a2).
  rewrite C2, C1, S2, S1, I2, I1, !app_assoc. repeat split.
  apply Forall_app. split; assumption.
Qed.

Lemma step_ok_ret {A} (a : A) : step_ok (mret a).
Proof. intros w r w' [= <- <-]. apply grows_refl. Qed.

Lemma step_ok_lift {A} (x : res A) : step_ok (lift x).
Proof. intros w r w' [= <- <-]. apply grows_refl. Qed.

Lemma step_ok_bind {A B} (m : M A) (k : A -> M B) :
  step_ok m -> (forall a, step_ok (k a)) -> step_ok (mbind k m).
Proof.
  intros Hm Hk w r w' H. unfold mbind, M_bind in H.
  destruct (m w) as [[a|e] w1] eqn:Hmw.
  - eapply grows_trans; [eapply Hm; eassumption|eapply Hk; eassumption].
  - injection H as <- <-. eapply Hm; eassumption.
Qed.

Lemma step_ok_try {A} (m : M A) (h : exn -> M A) :
  step_ok m -> (forall e, step_ok (h e)) -> step_ok (try_except m h).
Proof.
  intros Hm Hh w r w' H. unfold try_except in H.
  destruct (m w) as [[a|e] w1] eqn:Hmw.
  - injection H as <- <-. eapply Hm; eassumption.
  - destruct (is_Exception e).
    + eapply grows_trans; [eapply Hm; eassumption|eapply Hh; eassumption].
    + injection H as <- <-. eapply Hm; eassumption.
Qed.

Lemma step_ok_raise_if e : step_ok (raise_if e).
Proof. destruct e; [apply step_ok_lift|apply step_ok_ret]. Qed.

Lemma step_ok_log c : is_txn_call c = false -> step_ok (log_call c).
Proof.
  intros Hc w r w' [= <- <-]. exists [c], []. cbn.
  rewrite app_nil_r. repeat split. constructor; [exact Hc|constructor].
Qed.

Lemma step_ok_addItem env label path thumb date :
  step_ok (addItem env label path thumb date).
Proof.
  unfold addItem. apply step_ok_bind; [apply step_ok_log; reflexivity|].
  intros _. apply step_ok_bind; [apply step_ok_lift|].
  intros [i|]; [|apply step_ok_ret].
  apply step_ok_bind; [|intros _; apply step_ok_ret].
  intros w r w' [= <- <-]. exists [], [mkItem i label path]. cbn.
  rewrite app_nil_r. repeat split. constructor.
Qed.

Lemma step_ok_setMetadata env id m : step_ok (setMetadata env id m).
Proof.
  unfold setMetadata. apply step_ok_bind; [apply step_ok_log; reflexivity|].
  intros _. apply step_ok_raise_if.
Qed.

Lemma step_ok_addTags env id tags : step_ok (addTags env id tags).
Proof.
  induction tags as [|t tags IH]; cbn [addTags]; [apply step_ok_ret|].
  apply step_ok_bind; [|intros _; exact IH].
  unfold addTag. apply step_ok_bind; [apply step_ok_log; reflexivity|].
  intros _. apply step_ok_raise_if.
Qed.

Lemma step_ok_load_thumbnail env p g f : step_ok (load_thumbnail env p g f).
Proof.
  unfold load_thumbnail.
  assert (Ho : step_ok (if g then lift (generate_thumbnail_from_usd env f)
                        else mret [])).
  { destruct g; [apply step_ok_lift|apply step_ok_ret]. }
  destruct p as [p|]; [|exact Ho].
  destruct (path_exists env p); [|exact Ho].
  destruct (read_bytes env p) as [d|e]; [apply step_ok_ret|].
  destruct (is_Exception e); [exact Ho|apply step_ok_lift].
Qed.

Lemma step_ok_import_variant env a existing g tags v c :
  step_ok (import_variant env a existing g tags v c).
Proof.
  unfold import_variant. destruct c as [[s f] sk].
  apply step_ok_bind; [apply step_ok_lift|]. intros vp.
  destruct (bool_decide (vp ∈ existing)); [apply step_ok_ret|].
  apply step_ok_bind; [apply step_ok_load_thumbnail|]. intros td.
  apply step_ok_bind; [apply step_ok_lift|]. intros cd.
  apply step_ok_try; [|intros _; apply step_ok_ret].
  apply step_ok_bind; [apply step_ok_addItem|]. intros [id|]; [|apply step_ok_ret].
  apply step_ok_bind; [apply step_ok_lift|]. intros sz.
  apply step_ok_bind; [apply step_ok_setMetadata|]. intros _.
  apply step_ok_bind; [apply step_ok_addTags|]. intros _. apply step_ok_ret.
Qed.

Lemma step_ok_import_variants_loop env a existing g tags vs : forall c,
  step_ok (import_variants_loop env a existing g tags vs c).
Proof.
  induction vs as [|v vs IH]; intros c; cbn [import_variants_loop];
    [apply step_ok_ret|].
  apply step_ok_bind; [apply step_ok_import_variant|]. intros c'. apply IH.
Qed.

(** Importing one asset neither opens nor closes a transaction. *)
Lemma step_ok_import_asset env a existing iv g tags :
  step_ok (import_asset env a existing iv g tags).
Proof.
  unfold import_asset.
  apply step_ok_bind; [apply step_ok_lift|]. intros pp.
  destruct (bool_decide (pp ∈ existing)); [apply step_ok_ret|].
  apply step_ok_bind; [apply step_ok_load_thumbnail|]. intros td.
  apply step_ok_bind; [apply step_ok_lift|]. intros cd.
  apply step_ok_bind.
  - apply step_ok_try; [|intros _; apply step_ok_ret].
    apply step_ok_bind; [apply step_ok_addItem|]. intros [id|]; [|apply step_ok_ret].
    apply step_ok_bind; [apply step_ok_lift|]. intros sz.
    apply step_ok_bind; [apply step_ok_setMetadata|]. intros _.
    apply step_ok_bind; [apply step_ok_addTags|]. intros _. apply step_ok_ret.
  - intros [|]; [|apply step_ok_ret].
    destruct (iv && negb (bool_decide (variants a = [])));
      [apply step_ok_import_variants_loop|apply step_ok_ret].
Qed.

Lemma import_loop_grows env existing iv g tags : forall assets st w r st' w',
  import_loop env assets existing iv g tags st w = (r, st', w') -> grows w w'.
Proof.
  induction assets as [|a assets IH]; intros st w r st' w' H; cbn [import_loop] in H.
  - injection H as <- <- <-. apply grows_refl.
  - destruct (import_asset env a existing iv g tags w) as [[c|e] w1] eqn:Ha.
    + eapply grows_trans; [eapply step_ok_import_asset; eassumption|].
      eapply IH; eassumption.
    + injection H as <- <- <-. eapply step_ok_import_asset; eassumption.
Qed.

Lemma end_calls_app cs1 cs2 : end_calls (cs1 ++ cs2) = end_calls cs1 ++ end_calls cs2.
Proof. apply flat_map_app. Qed.

Lemma end_calls_no_txn new :
  Forall (fun c => is_txn_call c = false) new -> end_calls new = [].
Proof.
  induction 1 as [|c new Hc _ IH]; [reflexivity|].
  cbn [end_calls flat_map]. fold (end_calls new). rewrite IH.
  destruct c; try reflexivity; discriminate.
Qed.

(** An asset whose resolved path is among the existing paths is skipped:
    one more skipped, no call, no item. *)
Lemma import_asset_skips env a existing iv g tags p w :
  resolve env (primary_path_of a) = Ok p ->
  p ∈ existing ->
  import_asset env a existing iv g tags w = (Ok (O, O, 1%nat), w).
Proof.
  intros Hp Hin. unfold import_asset.
  unfold mbind at 1. unfold M_bind, lift. rewrite Hp.
  rewrite bool_decide_eq_true_2 by exact Hin. reflexivity.
Qed.

(** The paths of the database are among the existing paths when reading
    them does not fail. *)
Lemma collect_paths_covers env : forall its acc,
  (forall it, it ∈ its -> filePath_error env (it_id it) = None) ->
  exists acc',
    collect_paths env its acc = (Ok tt, acc') /\
    acc ⊆ acc' /\
    forall it, it ∈ its -> it_path it <> [] -> abspath env (it_path it) ∈ acc'.
Proof.
  induction its as [|it its IH]; intros acc Hok.
  - exists acc. repeat split; [set_solver|].
    intros it Hin. apply elem_of_nil in Hin. destruct Hin.
  - cbn [collect_paths]. rewrite (Hok it) by (apply elem_of_cons; left; reflexivity).
    destruct (IH (match it_path it with
                  | [] => acc
                  | _ :: _ => {[abspath env (it_path it)]} ∪ acc
                  end)) as (acc' & Hc & Hsub & Hin).
    { intros it' Hin'. apply Hok. apply elem_of_cons. right. exact Hin'. }
    exists acc'. split; [exact Hc|]. split.
    + destruct (it_path it); set_solver.
    + intros it' Hin' Hne. apply elem_of_cons in Hin'. destruct Hin' as [->|Hin'].
      * destruct (it_path it) eqn:Hp; [congruence|]. set_solver.
      * apply Hin; assumption.
Qed.

Lemma existing_paths_cover env w :
  itemIds_error env = None ->
  (forall it, it ∈ items (db w) -> filePath_error env (it_id it) = None) ->
  exists existing,
    get_existing_asset_paths env w = (Ok existing, w) /\
    forall it, it ∈ items (db w) -> it_path it <> [] ->
               abspath env (it_path it) ∈ existing.
Proof.
  intros Hids Hok. unfold get_existing_asset_paths. rewrite Hids.
  destruct (collect_paths_covers env (items (db w)) ∅ Hok) as (acc & Hc & _ & Hin).
  rewrite Hc. exists acc. split; [reflexivity|exact Hin].
Qed.

(** [endTransaction]: the call is made; when it returns, a commit keeps the
    items and a rollback puts back those of the snapshot. *)
Lemma endTransaction_run env commit w :
  exists w',
    endTransaction env commit w =
      (match endTransaction_error env commit with
       | Some e => Raise e
       | None => Ok tt
       end, w') /\
    calls w' = calls w ++ [EndTransaction commit] /\
    (endTransaction_error env commit = None ->
     items (db w') =
       if commit then items (db w) else default (items (db w)) (snapshot (db w))).
Proof.
  unfold endTransaction, mbind, M_bind, log_call, raise_if, update_db.
  destruct (endTransaction_error env commit) as [e|]; cbn.
  - eexists. split; [reflexivity|]. split; [reflexivity|discriminate].
  - eexists. split; [reflexivity|]. split; [reflexivity|].
    intros _. destruct commit; reflexivity.
Qed.




End ImportFacts.

(** ** Strings: order, case, file names *)

Module StrFacts.
Import ImportAssets.

Lemma N_of_ascii_inj x y : N_of_ascii x = N_of_ascii y -> x = y.
Proof.
  intros H. rewrite <- (ascii_N_embedding x), <- (ascii_N_embedding y), H.
  reflexivity.
Qed.

Lemma str_ltb_asym : forall a b, str_ltb a b = true -> str_ltb b a = false.
Proof.
  induction a as [|x a IH]; intros [|y b]; cbn [str_ltb]; try congruence.
  destruct (N.ltb_spec (N_of_ascii x) (N_of_ascii y)),
           (N.ltb_spec (N_of_ascii y) (N_of_ascii x)); try congruence; try lia.
  apply IH.
Qed.

Lemma str_leb_trans : forall a b c,
  str_ltb b a = false -> str_ltb c b = false -> str_ltb c a = false.
Proof.
  induction a as [|x a IH]; intros [|y b] [|z c]; cbn [str_ltb]; try congruence.
  destruct (N.ltb_spec (N_of_ascii y) (N_of_ascii x)),
           (N.ltb_spec (N_of_ascii x) (N_of_ascii y)),
           (N.ltb_spec (N_of_ascii z) (N_of_ascii y)),
           (N.ltb_spec (N_of_ascii y) (N_of_ascii z)),
           (N.ltb_spec (N_of_ascii z) (N_of_ascii x)),
           (N.ltb_spec (N_of_ascii x) (N_of_ascii z));
    try congruence; try lia.
  apply IH.
Qed.

Lemma str_ltb_antisym : forall a b,
  str_ltb a b = false -> str_ltb b a = false -> a = b.
Proof.
  induction a as [|x a IH]; intros [|y b]; cbn [str_ltb]; try congruence.
  destruct (N.ltb_spec (N_of_ascii x) (N_of_ascii y)),
           (N.ltb_spec (N_of_ascii y) (N_of_ascii x)); try congruence; try lia.
  intros H1 H2. f_equal; [|apply IH; assumption].
  apply N_of_ascii_inj. lia.
Qed.

(** *** Lower case *)

Lemma lower_char_dot c : Ascii.eqb (lower_char c) "." = Ascii.eqb c ".".
Proof.
  destruct c as [[] [] [] [] [] [] [] []]; reflexivity.
Qed.

Lemma lower_length s : length (lower s) = length s.
Proof. apply length_map. Qed.

Lemma lower_app a b : lower (a ++ b) = lower a ++ lower b.
Proof. apply map_app. Qed.

Lemma lower_nil s : lower s = [] -> s = [].
Proof. destruct s; [reflexivity|discriminate]. Qed.

(** *** The last dot of a name *)

Lemma rfind_dot_aux_lower s : forall i last,
  rfind_dot_aux (lower s) i last = rfind_dot_aux s i last.
Proof.
  induction s as [|c s IH]; intros i last; [reflexivity|].
  cbn [lower map rfind_dot_aux]. fold (lower s).
  rewrite lower_char_dot. apply IH.
Qed.

(** A text without a dot. *)
Definition dotless (s : str) : Prop := Forall (fun c => Ascii.eqb c "." = false) s.

Lemma rfind_dot_aux_dotless s : dotless s ->
  forall i last, rfind_dot_aux s i last = last.
Proof.
  induction 1 as [|c s Hc _ IH]; intros i last; [reflexivity|].
  cbn [rfind_dot_aux]. rewrite Hc. apply IH.
Qed.

Lemma rfind_dot_aux_app d e : dotless e ->
  forall i last,
    rfind_dot_aux (d ++ "."%char :: e) i last = Some (i + length d)%nat.
Proof.
  intros He. induction d as [|c d IH]; intros i last.
  - cbn [app rfind_dot_aux]. change (Ascii.eqb "." ".") with true.
    rewrite rfind_dot_aux_dotless by exact He. cbn. f_equal. lia.
  - cbn [app rfind_dot_aux]. rewrite IH. cbn. f_equal. lia.
Qed.

(** An extension: a dot and then at least one character, none of them a
    dot. *)
Definition is_extension (ext : str) : Prop :=
  exists c e, ext = "."%char :: c :: e /\ dotless (c :: e).

Lemma split_point_join d ext :
  d <> [] -> is_extension ext -> split_point (d ++ ext) = Some (length d).
Proof.
  intros Hd (c & e & -> & He). unfold split_point, rfind_dot.
  rewrite rfind_dot_aux_app by exact He. cbn [Nat.add].
  rewrite length_app. cbn [length].
  destruct d as [|x d]; [congruence|]. cbn [length].
  replace (0 <? S (length d))%nat with true by (symmetry; apply Nat.ltb_lt; lia).
  replace (S (length d) <? S (length d) + S (S (length e)) - 1)%nat with true
    by (symmetry; apply Nat.ltb_lt; lia).
  reflexivity.
Qed.

(** The stem and the suffix of a name put together from a name and an
    extension. *)
Lemma stem_suffix_join d ext :
  d <> [] -> is_extension ext ->
  stem (d ++ ext) = d /\ suffix (d ++ ext) = ext.
Proof.
  intros Hd He. unfold stem, suffix. rewrite split_point_join by assumption.
  split.
  - rewrite take_app_length. reflexivity.
  - rewrite drop_app_length. reflexivity.
Qed.

(** A name with a suffix is its stem followed by its suffix. *)
Lemma stem_suffix_split f : suffix f <> [] -> f = stem f ++ suffix f.
Proof.
  unfold stem, suffix. destruct (split_point f) as [i|]; [|congruence].
  intros _. symmetry. apply take_drop.
Qed.

Lemma split_point_lower f : split_point (lower f) = split_point f.
Proof.
  unfold split_point, rfind_dot. rewrite rfind_dot_aux_lower, lower_length.
  reflexivity.
Qed.

Lemma stem_lower f : stem (lower f) = lower (stem f).
Proof.
  unfold stem. rewrite split_point_lower.
  destruct (split_point f); [|reflexivity].
  unfold lower. rewrite <- firstn_map. reflexivity.
Qed.

Lemma suffix_lower f : suffix (lower f) = lower (suffix f).
Proof.
  unfold suffix. rewrite split_point_lower.
  destruct (split_point f); [|reflexivity].
  unfold lower. rewrite <- skipn_map. reflexivity.
Qed.

Lemma usd_extension ext :
  ext ∈ USD_EXTENSIONS -> is_extension ext /\ lower ext = ext.
Proof.
  unfold USD_EXTENSIONS. intros H.
  repeat (apply elem_of_cons in H; destruct H as [->|H]);
    try (split; [eexists _, _; split; [reflexivity|repeat constructor]|reflexivity]).
  apply elem_of_nil in H. destruct H.
Qed.

Lemma in_set_spec x l : in_set x l = true <-> x ∈ l.
Proof. unfold in_set. apply bool_decide_eq_true. Qed.

Lemma elem_of_map {A B} (f : A -> B) (y : B) (l : list A) :
  y ∈ map f l <-> exists a, a ∈ l /\ y = f a.
Proof.
  rewrite list_elem_of_In, in_map_iff. split.
  - intros (a & <- & Ha). exists a. rewrite list_elem_of_In. auto.
  - intros (a & Ha & ->). exists a. rewrite list_elem_of_In in Ha. auto.
Qed.

(** The name test of the source and the wording by stem and extension
    agree. *)
Lemma primary_name_exact d f :
  d <> [] ->
  (exists ext, ext ∈ USD_EXTENSIONS /\ f = d ++ ext) <->
  (stem f = d /\ suffix f ∈ USD_EXTENSIONS).
Proof.
  intros Hd. split.
  - intros (ext & Hext & ->).
    destruct (usd_extension ext Hext) as [He _].
    destruct (stem_suffix_join d ext Hd He) as [-> ->]. auto.
  - intros [Hs Hx]. exists (suffix f). split; [exact Hx|].
    rewrite <- Hs. apply stem_suffix_split.
    destruct (usd_extension _ Hx) as [(c & e & -> & _) _]. discriminate.
Qed.

Lemma primary_name_lower d f :
  d <> [] ->
  (exists ext, ext ∈ USD_EXTENSIONS /\ lower f = lower (d ++ ext)) <->
  (lower (stem f) = lower d /\ lower (suffix f) ∈ USD_EXTENSIONS).
Proof.
  intros Hd.
  assert (Hld : lower d <> []) by (intros H; apply Hd, lower_nil, H).
  split.
  - intros (ext & Hext & Hf).
    destruct (usd_extension ext Hext) as [He Hl].
    rewrite lower_app, Hl in Hf.
    destruct (stem_suffix_join (lower d) ext Hld He) as [H1 H2].
    rewrite <- stem_lower, <- suffix_lower, Hf, H1, H2. auto.
  - intros [Hs Hx]. exists (lower (suffix f)). split; [exact Hx|].
    destruct (usd_extension _ Hx) as [(c & e & Hce & _) Hl].
    rewrite lower_app, Hl, <- Hs, <- stem_lower, <- suffix_lower.
    apply stem_suffix_split. rewrite suffix_lower, Hce. discriminate.
Qed.

End StrFacts.

(** ** The asset scan *)

Module ScanFacts.
Import ImportAssets ScanSpec StrFacts PySortFacts.

Lemma nodupb_NoDup l : nodupb l = true -> NoDup l.
Proof.
  induction l as [|x l IH]; cbn [nodupb]; [constructor|].
  intros H. apply andb_prop in H. destruct H as [Hx Hl].
  apply NoDup_cons. split; [|apply IH; exact Hl].
  intros Hin. apply in_set_spec in Hin. rewrite Hin in Hx. discriminate.
Qed.

(** What a well-formed directory gives. *)
Lemma wf_dir es :
  wf (Dir es) = true ->
  NoDup (map fst es) /\
  (forall e, e ∈ es -> fst e <> []) /\
  (forall e, e ∈ es -> wf (snd e) = true).
Proof.
  cbn [wf]. intros H. apply andb_prop in H. destruct H as [H H3].
  apply andb_prop in H. destruct H as [H1 H2].
  split; [apply nodupb_NoDup; exact H1|]. split.
  - intros e He. rewrite forallb_forall in H2.
    specialize (H2 e ltac:(apply list_elem_of_In; exact He)).
    intros Hn. rewrite bool_decide_eq_true_2 in H2 by exact Hn. discriminate.
  - clear H1 H2. induction es as [|[n nd] es IH]; intros e He.
    + apply elem_of_nil in He. destruct He.
    + apply andb_prop in H3. destruct H3 as [Hnd Hes].
      apply elem_of_cons in He. destruct He as [->|He]; [exact Hnd|].
      apply IH; assumption.
Qed.

(** In a directory without repeated names, looking a name up finds the
    entry of that name. *)
Lemma lookup_entry_spec es n nd :
  NoDup (map fst es) -> (lookup_entry n es = Some nd <-> (n, nd) ∈ es).
Proof.
  induction es as [|[m md] es IH]; intros Hnd; cbn [lookup_entry].
  - split; [discriminate|]. intros H. apply elem_of_nil in H. destruct H.
  - cbn [map fst] in Hnd. apply NoDup_cons in Hnd. destruct Hnd as [Hm Hnd].
    rewrite elem_of_cons. destruct (decide (m = n)) as [->|Hne].
    + rewrite bool_decide_eq_true_2 by reflexivity. split.
      * intros [= ->]. left. reflexivity.
      * intros [[= ->]|Hin]; [reflexivity|].
        exfalso. apply Hm. apply elem_of_map. exists (n, nd). auto.
    + rewrite bool_decide_eq_false_2 by exact Hne. rewrite (IH Hnd). split.
      * auto.
      * intros [[= -> _]|Hin]; [congruence|exact Hin].
Qed.

Lemma lookup_entry_in es n nd : lookup_entry n es = Some nd -> (n, nd) ∈ es.
Proof.
  induction es as [|[m md] es IH]; cbn [lookup_entry]; [discriminate|].
  destruct (decide (m = n)) as [->|Hne].
  - rewrite bool_decide_eq_true_2 by reflexivity. intros [= ->].
    apply elem_of_cons. left. reflexivity.
  - rewrite bool_decide_eq_false_2 by exact Hne. intros H.
    apply elem_of_cons. right. apply IH. exact H.
Qed.

Lemma file_exists_in es n : file_exists es n = true -> (n, File) ∈ es.
Proof.
  unfold file_exists. destruct (lookup_entry n es) as [[|]|] eqn:H; try discriminate.
  intros _. apply lookup_entry_in. exact H.
Qed.

Lemma file_exists_spec es n :
  NoDup (map fst es) -> (file_exists es n = true <-> (n, File) ∈ es).
Proof.
  intros Hnd. split; [apply file_exists_in|].
  intros H. apply (lookup_entry_spec es n File Hnd) in H.
  unfold file_exists. rewrite H. reflexivity.
Qed.

Lemma find_file_some wanted es f :
  find_file wanted es = Some f -> (f, File) ∈ es /\ wanted f = true.
Proof.
  unfold find_file.
  destruct (List.find _ es) as [[n nd]|] eqn:H; [|discriminate].
  intros [= <-]. apply find_some in H. destruct H as [Hin Hp].
  cbn [fst snd] in Hp. apply andb_prop in Hp. destruct Hp as [Hf Hw].
  destruct nd; [|discriminate]. split; [apply list_elem_of_In; exact Hin|exact Hw].
Qed.

Lemma find_file_none wanted es :
  find_file wanted es = None ->
  forall f, (f, File) ∈ es -> wanted f = false.
Proof.
  unfold find_file.
  destruct (List.find _ es) as [e|] eqn:H; [discriminate|].
  intros _ f Hin. apply list_elem_of_In in Hin.
  pose proof (find_none _ _ H _ Hin) as Hp. exact Hp.
Qed.

Lemma thumbnail_lower_target base f :
  in_set (lower f) (map (fun ext => lower (base ++ ext)) THUMBNAIL_EXTENSIONS) = true
  <-> exists ext, ext ∈ THUMBNAIL_EXTENSIONS /\ lower f = lower (base ++ ext).
Proof. rewrite in_set_spec. apply elem_of_map. Qed.

(** [find_thumbnail]: what it returns is a file of the directory with a
    thumbnail name, and it returns one whenever there is one. *)
Lemma find_thumbnail_spec thumb_order es base case_insensitive :
  Permutation thumb_order THUMBNAIL_EXTENSIONS ->
  NoDup (map fst es) ->
  match find_thumbnail thumb_order es base case_insensitive with
  | Some f => (f, File) ∈ es /\ is_thumbnail_name case_insensitive base f
  | None => forall f, (f, File) ∈ es ->
                      ~ is_thumbnail_name case_insensitive base f
  end.
Proof.
  intros Hperm Hnd. unfold find_thumbnail.
  destruct (List.find (fun ext => file_exists es (base ++ ext)) thumb_order)
    as [ext|] eqn:Hexact.
  - apply find_some in Hexact. destruct Hexact as [Hin Hf].
    apply list_elem_of_In in Hin. rewrite Hperm in Hin.
    split; [apply file_exists_in; exact Hf|].
    unfold is_thumbnail_name. destruct case_insensitive; exists ext; auto.
  - assert (Hno : forall f ext, (f, File) ∈ es -> ext ∈ THUMBNAIL_EXTENSIONS ->
                                f <> base ++ ext).
    { intros f ext Hf Hext ->. rewrite <- Hperm in Hext.
      apply list_elem_of_In in Hext.
      pose proof (find_none _ _ Hexact _ Hext) as Hp. cbn in Hp.
      apply (file_exists_spec es _ Hnd) in Hf. congruence. }
    destruct case_insensitive.
    + destruct (find_file _ es) as [f|] eqn:Hci.
      * apply find_file_some in Hci. destruct Hci as [Hin Hw].
        split; [exact Hin|]. apply thumbnail_lower_target. exact Hw.
      * intros f Hin Hname. apply thumbnail_lower_target in Hname.
        pose proof (find_file_none _ _ Hci f Hin) as Hw. cbv beta in Hw. congruence.
    + intros f Hin (ext & Hext & Hname). eapply Hno; eassumption.
Qed.

(** An exact name wins over one that only matches case-insensitively. *)
Lemma find_thumbnail_prefers_exact thumb_order es base case_insensitive ext :
  Permutation thumb_order THUMBNAIL_EXTENSIONS ->
  ext ∈ THUMBNAIL_EXTENSIONS ->
  file_exists es (base ++ ext) = true ->
  exists ext', ext' ∈ THUMBNAIL_EXTENSIONS /\
    find_thumbnail thumb_order es base case_insensitive = Some (base ++ ext').
Proof.
  intros Hperm Hext Hf. unfold find_thumbnail.
  destruct (List.find (fun ext => file_exists es (base ++ ext)) thumb_order)
    as [ext'|] eqn:Hexact.
  - apply find_some in Hexact. destruct Hexact as [Hin _].
    apply list_elem_of_In in Hin. rewrite Hperm in Hin. eauto.
  - rewrite <- Hperm in Hext. apply list_elem_of_In in Hext.
    pose proof (find_none _ _ Hexact _ Hext) as Hp. cbn in Hp. congruence.
Qed.

Lemma usd_lower_target d f :
  in_set (lower f) (map (fun ext => lower (d ++ ext)) USD_EXTENSIONS) = true
  <-> exists ext, ext ∈ USD_EXTENSIONS /\ lower f = lower (d ++ ext).
Proof. rewrite in_set_spec. apply elem_of_map. Qed.

(** The name test of the scan, for either mode, is the wording by stem
    and extension. *)
Lemma is_primary_name_exact d f case_insensitive ext :
  d <> [] -> ext ∈ USD_EXTENSIONS -> f = d ++ ext ->
  is_primary_name case_insensitive d f.
Proof.
  intros Hd Hext ->. unfold is_primary_name. destruct case_insensitive.
  - apply primary_name_lower; [exact Hd|]. exists ext. auto.
  - apply primary_name_exact; [exact Hd|]. exists ext. auto.
Qed.

(** [scan_asset_directory] on a directory: the record it returns names a
    primary file of the directory; it returns none exactly when the
    directory has no primary file. *)
Lemma scan_asset_directory_spec usd_order thumb_order d es case_insensitive :
  Permutation usd_order USD_EXTENSIONS ->
  d <> [] ->
  NoDup (map fst es) ->
  match scan_asset_directory usd_order thumb_order d (Dir es) case_insensitive with
  | Some a =>
      name a = d /\
      (primary_file a, File) ∈ es /\
      is_primary_name case_insensitive d (primary_file a) /\
      thumbnail a = find_thumbnail thumb_order es THUMBNAIL case_insensitive /\
      variants a = scan_variants thumb_order (variants_listing es) case_insensitive
  | None =>
      forall f, (f, File) ∈ es -> ~ is_primary_name case_insensitive d f
  end.
Proof.
  intros Hperm Hd Hnd. unfold scan_asset_directory.
  assert (Hvar : match lookup_entry VARIANTS es with
                 | Some (Dir ventries) =>
                     scan_variants thumb_order ventries case_insensitive
                 | _ => []
                 end = scan_variants thumb_order (variants_listing es) case_insensitive).
  { unfold variants_listing. destruct (lookup_entry VARIANTS es) as [[|]|]; reflexivity. }
  destruct (List.find (fun ext => file_exists es (d ++ ext)) usd_order)
    as [ext|] eqn:Hexact; cbn [fmap option_fmap option_map].
  - apply find_some in Hexact. destruct Hexact as [Hin Hf].
    apply list_elem_of_In in Hin. rewrite Hperm in Hin.
    cbn [name primary_file thumbnail variants].
    split; [reflexivity|]. split; [apply file_exists_in; exact Hf|].
    split; [eapply is_primary_name_exact; eauto|].
    split; [reflexivity|exact Hvar].
  - assert (Hno : forall f ext, (f, File) ∈ es -> ext ∈ USD_EXTENSIONS ->
                                f <> d ++ ext).
    { intros f ext Hf Hext ->. rewrite <- Hperm in Hext.
      apply list_elem_of_In in Hext.
      pose proof (find_none _ _ Hexact _ Hext) as Hp. cbv beta in Hp.
      apply (file_exists_spec es _ Hnd) in Hf. congruence. }
    destruct case_insensitive.
    + destruct (find_file _ es) as [f|] eqn:Hci.
      * apply find_file_some in Hci. destruct Hci as [Hin Hw].
        cbn [name primary_file thumbnail variants].
        split; [reflexivity|]. split; [exact Hin|].
        split; [|split; [reflexivity|exact Hvar]].
        apply primary_name_lower; [exact Hd|]. apply usd_lower_target. exact Hw.
      * intros f Hin Hname. unfold is_primary_name in Hname.
        apply primary_name_lower in Hname; [|exact Hd].
        apply usd_lower_target in Hname.
        pose proof (find_file_none _ _ Hci f Hin) as Hw. cbv beta in Hw. congruence.
    + intros f Hin Hname. unfold is_primary_name in Hname.
      apply primary_name_exact in Hname; [|exact Hd].
      destruct Hname as (ext & Hext & Hf). eapply Hno; eassumption.
Qed.

Lemma scan_asset_directory_name usd_order thumb_order d nd case_insensitive a :
  scan_asset_directory usd_order thumb_order d nd case_insensitive = Some a ->
  name a = d /\ is_dir nd = true.
Proof.
  unfold scan_asset_directory. destruct nd as [|es]; [discriminate|].
  destruct (match _ <$> List.find _ usd_order with Some f => Some f | None => _ end);
    [|discriminate].
  intros [= <-]. split; reflexivity.
Qed.

(** The loop over the assets directory: the records found, each from the
    entry of its name. *)
Lemma scan_entries_in usd_order thumb_order case_insensitive es a :
  a ∈ scan_entries usd_order thumb_order es case_insensitive <->
  exists nd, (name a, nd) ∈ es /\
    scan_asset_directory usd_order thumb_order (name a) nd case_insensitive = Some a.
Proof.
  induction es as [|[n nd] es IH]; cbn [scan_entries].
  - split.
    + intros H. apply elem_of_nil in H. destruct H.
    + intros (nd & H & _). apply elem_of_nil in H. destruct H.
  - assert (Hrest : a ∈ scan_entries usd_order thumb_order es case_insensitive ->
      exists nd0, (name a, nd0) ∈ (n, nd) :: es /\
        scan_asset_directory usd_order thumb_order (name a) nd0 case_insensitive = Some a).
    { intros H. apply IH in H. destruct H as (nd0 & Hin & Hs).
      exists nd0. split; [apply elem_of_cons; right; exact Hin|exact Hs]. }
    split.
    + destruct (is_dir nd) eqn:Hdir; [|exact Hrest].
      destruct (scan_asset_directory usd_order thumb_order n nd case_insensitive)
        as [a0|] eqn:Hscan; [|exact Hrest].
      intros H. apply elem_of_cons in H. destruct H as [->|H]; [|apply Hrest; exact H].
      destruct (scan_asset_directory_name _ _ _ _ _ _ Hscan) as [Hn _].
      exists nd. rewrite Hn. split; [apply elem_of_cons; left; reflexivity|exact Hscan].
    + intros (nd0 & Hin & Hs). apply elem_of_cons in Hin.
      destruct Hin as [[= Hn ->]|Hin].
      * destruct (scan_asset_directory_name _ _ _ _ _ _ Hs) as [_ Hdir].
        rewrite Hdir, <- Hn, Hs. apply elem_of_cons. left. reflexivity.
      * assert (a ∈ scan_entries usd_order thumb_order es case_insensitive)
          by (apply IH; eauto).
        destruct (is_dir nd); [|assumption].
        destruct (scan_asset_directory usd_order thumb_order n nd case_insensitive);
          [apply elem_of_cons; right|]; assumption.
Qed.

Lemma scan_entries_names_sub usd_order thumb_order case_insensitive es n :
  n ∈ map name (scan_entries usd_order thumb_order es case_insensitive) ->
  n ∈ map fst es.
Proof.
  intros H. apply elem_of_map in H. destruct H as (a & Ha & ->).
  apply scan_entries_in in Ha. destruct Ha as (nd & Hin & _).
  apply elem_of_map. exists (name a, nd). auto.
Qed.

Lemma scan_entries_NoDup usd_order thumb_order case_insensitive es :
  NoDup (map fst es) ->
  NoDup (map name (scan_entries usd_order thumb_order es case_insensitive)).
Proof.
  induction es as [|[n nd] es IH]; intros Hnd; cbn [scan_entries]; [constructor|].
  cbn [map fst] in Hnd. apply NoDup_cons in Hnd. destruct Hnd as [Hn Hnd].
  destruct (is_dir nd); [|apply IH; exact Hnd].
  destruct (scan_asset_directory usd_order thumb_order n nd case_insensitive)
    as [a|] eqn:Hscan; [|apply IH; exact Hnd].
  cbn [map]. apply NoDup_cons. split; [|apply IH; exact Hnd].
  destruct (scan_asset_directory_name _ _ _ _ _ _ Hscan) as [-> _].
  intros H. apply Hn. eapply scan_entries_names_sub. exact H.
Qed.

(** The result of the scan is in ascending order of the names. *)
Lemma scan_sorted usd_order thumb_order assets_dir case_insensitive :
  StronglySorted (fun a b => str_ltb (name b) (name a) = false)
    (scan_assets_directory usd_order thumb_order assets_dir case_insensitive).
Proof.
  unfold scan_assets_directory.
  destruct assets_dir as [[|es]|]; try constructor.
  apply (sort_by_strongly_sorted str_ltb name str_ltb_asym str_leb_trans).
Qed.

Lemma scan_perm usd_order thumb_order es case_insensitive :
  Permutation
    (scan_assets_directory usd_order thumb_order (Some (Dir es)) case_insensitive)
    (scan_entries usd_order thumb_order es case_insensitive).
Proof. apply sort_by_perm. Qed.

(** The names of the records: ascending, none twice, and those of the
    subdirectories with a primary USD file. *)
Lemma scan_names usd_order thumb_order es case_insensitive :
  Permutation usd_order USD_EXTENSIONS ->
  wf (Dir es) = true ->
  StronglySorted (fun a b => str_ltb (name b) (name a) = false)
    (scan_assets_directory usd_order thumb_order (Some (Dir es)) case_insensitive) /\
  NoDup (map name
    (scan_assets_directory usd_order thumb_order (Some (Dir es)) case_insensitive)) /\
  forall n,
    n ∈ map name
      (scan_assets_directory usd_order thumb_order (Some (Dir es)) case_insensitive) <->
    exists e, e ∈ es /\ fst e = n /\ has_primary case_insensitive e.
Proof.
  intros Hperm Hwf.
  destruct (wf_dir es Hwf) as (Hnd & Hne & Hsub).
  pose proof (scan_perm usd_order thumb_order es case_insensitive) as Hp.
  split; [apply scan_sorted|]. split.
  - rewrite Hp. apply scan_entries_NoDup. exact Hnd.
  - intros n. rewrite Hp. rewrite elem_of_map. split.
    + intros (a & Ha & ->). apply scan_entries_in in Ha.
      destruct Ha as (nd & Hin & Hscan).
      exists (name a, nd). split; [exact Hin|]. split; [reflexivity|].
      destruct (scan_asset_directory_name _ _ _ _ _ _ Hscan) as [_ Hdir].
      destruct nd as [|aes]; [discriminate|].
      destruct (wf_dir aes (Hsub _ Hin)) as (Hnd' & _ & _).
      pose proof (scan_asset_directory_spec usd_order thumb_order (name a) aes
                    case_insensitive Hperm (Hne _ Hin) Hnd') as Hspec.
      rewrite Hscan in Hspec. destruct Hspec as (_ & Hf & Hprim & _).
      exists aes, (primary_file a). auto.
    + intros ([d nd] & Hin & <- & aes & f & Hdir & Hf & Hprim).
      cbn [fst snd] in *. subst nd.
      destruct (wf_dir aes (Hsub _ Hin)) as (Hnd' & _ & _).
      pose proof (scan_asset_directory_spec usd_order thumb_order d aes
                    case_insensitive Hperm (Hne _ Hin) Hnd') as Hspec.
      destruct (scan_asset_directory usd_order thumb_order d (Dir aes) case_insensitive)
        as [a|] eqn:Hscan.
      * destruct Hspec as (Hname & _). exists a. split; [|symmetry; exact Hname].
        apply scan_entries_in. exists (Dir aes). rewrite Hname. auto.
      * exfalso. exact (Hspec f Hf Hprim).
Qed.

(** The scan of a well-formed assets directory returns its records in
    ascending order of their names, one record for each subdirectory that
    holds a primary USD file - a file whose stem is the subdirectory's name
    and whose extension is .usd, .usda or .usdc, compared
    case-insensitively in case-insensitive mode - and none for the others. *)
Theorem scan_one_record_per_asset usd_order thumb_order es case_insensitive :
  Permutation usd_order USD_EXTENSIONS ->
  wf (Dir es) = true ->
  let result :=
    scan_assets_directory usd_order thumb_order (Some (Dir es)) case_insensitive in
  StronglySorted (fun a b => str_ltb (name b) (name a) = false) result /\
  NoDup (map name result) /\
  forall n, n ∈ map name result <->
            exists e, e ∈ es /\ fst e = n /\ has_primary case_insensitive e.
Proof.
  intros Hperm Hwf result.
  destruct (wf_dir es Hwf) as (Hnd & Hne & Hsub).
  pose proof (scan_perm usd_order thumb_order es case_insensitive) as Hp.
  fold result in Hp.
  split; [apply scan_sorted|]. split.
  - rewrite Hp. apply scan_entries_NoDup. exact Hnd.
  - intros n. rewrite Hp. rewrite elem_of_map. split.
    + intros (a & Ha & ->). apply scan_entries_in in Ha.
      destruct Ha as (nd & Hin & Hscan).
      exists (name a, nd). split; [exact Hin|]. split; [reflexivity|].
      destruct (scan_asset_directory_name _ _ _ _ _ _ Hscan) as [_ Hdir].
      destruct nd as [|aes]; [discriminate|].
      destruct (wf_dir aes (Hsub _ Hin)) as (Hnd' & _ & _).
      pose proof (scan_asset_directory_spec usd_order thumb_order (name a) aes
                    case_insensitive Hperm (Hne _ Hin) Hnd') as Hspec.
      rewrite Hscan in Hspec. destruct Hspec as (_ & Hf & Hprim & _).
      exists aes, (primary_file a). auto.
    + intros ([d nd] & Hin & <- & aes & f & Hdir & Hf & Hprim).
      cbn [fst snd] in *. subst nd.
      destruct (wf_dir aes (Hsub _ Hin)) as (Hnd' & _ & _).
      pose proof (scan_asset_directory_spec usd_order thumb_order d aes
                    case_insensitive Hperm (Hne _ Hin) Hnd') as Hspec.
      destruct (scan_asset_directory usd_order thumb_order d (Dir aes) case_insensitive)
        as [a|] eqn:Hscan.
      * destruct Hspec as (Hname & _). exists a. split; [|symmetry; exact Hname].
        apply scan_entries_in. exists (Dir aes). rewrite Hname. auto.
      * exfalso. exact (Hspec f Hf Hprim).
Qed.

Lemma scan_one_record_per_asset_witness :
  let result :=
    scan_assets_directory USD_EXTENSIONS THUMBNAIL_EXTENSIONS (Some doc_tree) true in
  StronglySorted (fun a b => str_ltb (name b) (name a) = false) result /\
  NoDup (map name result) /\
  forall n, n ∈ map name result <->
            exists e, e ∈ (match doc_tree with Dir es => es | File => [] end) /\
                      fst e = n /\ has_primary true e.
Proof.
  apply (scan_one_record_per_asset USD_EXTENSIONS THUMBNAIL_EXTENSIONS).
  - reflexivity.
  - vm_compute. reflexivity.
Defined.

Lemma variants_listing_NoDup aes :
  wf (Dir aes) = true -> NoDup (map fst (variants_listing aes)).
Proof.
  intros Hwf. destruct (wf_dir aes Hwf) as (_ & _ & Hsub).
  unfold variants_listing.
  destruct (lookup_entry VARIANTS aes) as [[|ves]|] eqn:Hl; try constructor.
  apply lookup_entry_in in Hl. apply (wf_dir ves (Hsub _ Hl)).
Qed.

Lemma scan_variants_files thumb_order ves case_insensitive :
  map fst (scan_variants thumb_order ves case_insensitive) = usd_files ves.
Proof.
  unfold scan_variants, usd_files. rewrite List.map_map. reflexivity.
Qed.

Lemma scan_variants_in thumb_order ves case_insensitive v t :
  (v, t) ∈ scan_variants thumb_order ves case_insensitive ->
  (v, File) ∈ ves /\ suffix v ∈ USD_EXTENSIONS /\
  t = find_thumbnail thumb_order ves (stem v ++ _THUMBNAIL) case_insensitive.
Proof.
  unfold scan_variants. intros H. apply elem_of_map in H.
  destruct H as ([n nd] & Hin & [= -> ->]).
  apply list_elem_of_In, filter_In in Hin. destruct Hin as [Hin Hp].
  cbn [fst snd] in *. apply andb_prop in Hp. destruct Hp as [Hf Hs].
  destruct nd; [|discriminate].
  split; [apply list_elem_of_In; exact Hin|].
  split; [apply in_set_spec; exact Hs|reflexivity].
Qed.

(** What a record holds, by the listing of the subdirectory it comes
    from. *)
Lemma scan_records usd_order thumb_order es case_insensitive :
  Permutation usd_order USD_EXTENSIONS ->
  Permutation thumb_order THUMBNAIL_EXTENSIONS ->
  wf (Dir es) = true ->
  forall a,
    a ∈ scan_assets_directory usd_order thumb_order (Some (Dir es)) case_insensitive ->
    exists aes,
      (name a, Dir aes) ∈ es /\
      (primary_file a, File) ∈ aes /\
      is_primary_name case_insensitive (name a) (primary_file a) /\
      match thumbnail a with
      | Some t => (t, File) ∈ aes /\ is_thumbnail_name case_insensitive THUMBNAIL t
      | None => forall f, (f, File) ∈ aes ->
                          ~ is_thumbnail_name case_insensitive THUMBNAIL f
      end /\
      map fst (variants a) = usd_files (variants_listing aes) /\
      forall v t, (v, t) ∈ variants a ->
        match t with
        | Some f => (f, File) ∈ variants_listing aes /\
                    is_thumbnail_name case_insensitive (stem v ++ _THUMBNAIL) f
        | None => forall f, (f, File) ∈ variants_listing aes ->
                    ~ is_thumbnail_name case_insensitive (stem v ++ _THUMBNAIL) f
        end.
Proof.
  intros Hperm Hpermt Hwf a Ha.
  destruct (wf_dir es Hwf) as (Hnd & Hne & Hsub).
  rewrite (scan_perm usd_order thumb_order es case_insensitive) in Ha.
  apply scan_entries_in in Ha. destruct Ha as (nd & Hin & Hscan).
  destruct (scan_asset_directory_name _ _ _ _ _ _ Hscan) as [_ Hdir].
  destruct nd as [|aes]; [discriminate|].
  destruct (wf_dir aes (Hsub _ Hin)) as (Hnd' & _ & _).
  pose proof (scan_asset_directory_spec usd_order thumb_order (name a) aes
                case_insensitive Hperm (Hne _ Hin) Hnd') as Hspec.
  rewrite Hscan in Hspec. destruct Hspec as (_ & Hf & Hprim & Hthumb & Hvar).
  exists aes. split; [exact Hin|]. split; [exact Hf|]. split; [exact Hprim|].
  split; [|split].
  - rewrite Hthumb.
    apply (find_thumbnail_spec thumb_order aes THUMBNAIL case_insensitive Hpermt Hnd').
  - rewrite Hvar. apply scan_variants_files.
  - intros v t Hvt. rewrite Hvar in Hvt. apply scan_variants_in in Hvt.
    destruct Hvt as (_ & _ & ->).
    apply (find_thumbnail_spec thumb_order (variants_listing aes)
             (stem v ++ _THUMBNAIL) case_insensitive Hpermt).
    apply variants_listing_NoDup. apply (Hsub _ Hin).
Qed.

(** Each record of the scan comes from the subdirectory of its name: its
    primary file is a primary USD file of that directory; its thumbnail is
    a file named [thumbnail] with an image extension, present whenever the
    directory has one; its variants are exactly the USD files directly in
    the [variants] subdirectory, in listing order, each paired with a file
    named after the variant with [_thumbnail] and an image extension,
    whenever there is one. *)
Theorem scan_record_contents usd_order thumb_order es case_insensitive :
  Permutation usd_order USD_EXTENSIONS ->
  Permutation thumb_order THUMBNAIL_EXTENSIONS ->
  wf (Dir es) = true ->
  forall a,
    a ∈ scan_assets_directory usd_order thumb_order (Some (Dir es)) case_insensitive ->
    exists aes,
      (name a, Dir aes) ∈ es /\
      (primary_file a, File) ∈ aes /\
      is_primary_name case_insensitive (name a) (primary_file a) /\
      match thumbnail a with
      | Some t => (t, File) ∈ aes /\ is_thumbnail_name case_insensitive THUMBNAIL t
      | None => forall f, (f, File) ∈ aes ->
                          ~ is_thumbnail_name case_insensitive THUMBNAIL f
      end /\
      map fst (variants a) = usd_files (variants_listing aes) /\
      forall v t, (v, t) ∈ variants a ->
        match t with
        | Some f => (f, File) ∈ variants_listing aes /\
                    is_thumbnail_name case_insensitive (stem v ++ _THUMBNAIL) f
        | None => forall f, (f, File) ∈ variants_listing aes ->
                    ~ is_thumbnail_name case_insensitive (stem v ++ _THUMBNAIL) f
        end.
Proof.
  intros Hperm Hpermt Hwf a Ha.
  destruct (wf_dir es Hwf) as (Hnd & Hne & Hsub).
  rewrite (scan_perm usd_order thumb_order es case_insensitive) in Ha.
  apply scan_entries_in in Ha. destruct Ha as (nd & Hin & Hscan).
  destruct (scan_asset_directory_name _ _ _ _ _ _ Hscan) as [_ Hdir].
  destruct nd as [|aes]; [discriminate|].
  destruct (wf_dir aes (Hsub _ Hin)) as (Hnd' & _ & _).
  pose proof (scan_asset_directory_spec usd_order thumb_order (name a) aes
                case_insensitive Hperm (Hne _ Hin) Hnd') as Hspec.
  rewrite Hscan in Hspec. destruct Hspec as (_ & Hf & Hprim & Hthumb & Hvar).
  exists aes. split; [exact Hin|]. split; [exact Hf|]. split; [exact Hprim|].
  split; [|split].
  - rewrite Hthumb.
    apply (find_thumbnail_spec thumb_order aes THUMBNAIL case_insensitive Hpermt Hnd').
  - rewrite Hvar. apply scan_variants_files.
  - intros v t Hvt. rewrite Hvar in Hvt. apply scan_variants_in in Hvt.
    destruct Hvt as (_ & _ & ->).
    apply (find_thumbnail_spec thumb_order (variants_listing aes)
             (stem v ++ _THUMBNAIL) case_insensitive Hpermt).
    apply variants_listing_NoDup. apply (Hsub _ Hin).
Qed.

(** *** The order of a listing *)

Definition same_entry (e1 e2 : str * node) : Prop :=
  fst e1 = fst e2 /\ same_contents (snd e1) (snd e2).

Lemma same_contents_dir_inv es1 es2 :
  same_contents (Dir es1) (Dir es2) ->
  exists es1', Permutation es1 es1' /\ Forall2 same_entry es1' es2.
Proof. inversion 1; subst. eauto. Qed.

Lemma Forall2_in_l {A B} (R : A -> B -> Prop) l1 l2 x :
  Forall2 R l1 l2 -> x ∈ l1 -> exists y, y ∈ l2 /\ R x y.
Proof.
  induction 1 as [|a b l1 l2 Hab _ IH]; intros Hx.
  - apply elem_of_nil in Hx. destruct Hx.
  - apply elem_of_cons in Hx. destruct Hx as [->|Hx].
    + exists b. split; [apply elem_of_cons; left; reflexivity|exact Hab].
    + destruct (IH Hx) as (y & Hy & Hr). exists y.
      split; [apply elem_of_cons; right; exact Hy|exact Hr].
Qed.

Lemma Forall2_in_r {A B} (R : A -> B -> Prop) l1 l2 y :
  Forall2 R l1 l2 -> y ∈ l2 -> exists x, x ∈ l1 /\ R x y.
Proof.
  induction 1 as [|a b l1 l2 Hab _ IH]; intros Hy.
  - apply elem_of_nil in Hy. destruct Hy.
  - apply elem_of_cons in Hy. destruct Hy as [->|Hy].
    + exists a. split; [apply elem_of_cons; left; reflexivity|exact Hab].
    + destruct (IH Hy) as (x & Hx & Hr). exists x.
      split; [apply elem_of_cons; right; exact Hx|exact Hr].
Qed.

(** Directories with the same contents have the same names, with the same
    contents under each name. *)
Lemma same_contents_entry_l es1 es2 n nd1 :
  same_contents (Dir es1) (Dir es2) -> (n, nd1) ∈ es1 ->
  exists nd2, (n, nd2) ∈ es2 /\ same_contents nd1 nd2.
Proof.
  intros Hs Hin. destruct (same_contents_dir_inv _ _ Hs) as (es1' & Hp & Hf).
  rewrite Hp in Hin. destruct (Forall2_in_l _ _ _ _ Hf Hin) as ([m nd2] & Hy & Hn & Hc).
  cbn [fst snd] in *. subst m. eauto.
Qed.

Lemma same_contents_entry_r es1 es2 n nd2 :
  same_contents (Dir es1) (Dir es2) -> (n, nd2) ∈ es2 ->
  exists nd1, (n, nd1) ∈ es1 /\ same_contents nd1 nd2.
Proof.
  intros Hs Hin. destruct (same_contents_dir_inv _ _ Hs) as (es1' & Hp & Hf).
  destruct (Forall2_in_r _ _ _ _ Hf Hin) as ([m nd1] & Hx & Hn & Hc).
  cbn [fst snd] in *. subst m. rewrite <- Hp in Hx. eauto.
Qed.

Lemma same_contents_file_l nd : same_contents File nd -> nd = File.
Proof. inversion 1. reflexivity. Qed.

Lemma same_contents_file_r nd : same_contents nd File -> nd = File.
Proof. inversion 1. reflexivity. Qed.

Lemma same_contents_dir_l es1 nd : same_contents (Dir es1) nd -> exists es2, nd = Dir es2.
Proof. inversion 1. eauto. Qed.

Lemma same_contents_dir_r es2 nd : same_contents nd (Dir es2) -> exists es1, nd = Dir es1.
Proof. inversion 1. eauto. Qed.

Lemma has_primary_same case_insensitive n nd1 nd2 :
  same_contents nd1 nd2 ->
  (has_primary case_insensitive (n, nd1) <-> has_primary case_insensitive (n, nd2)).
Proof.
  intros Hs. unfold has_primary. cbn [fst snd]. split.
  - intros (aes & f & -> & Hf & Hp).
    destruct (same_contents_dir_l _ _ Hs) as (aes2 & ->).
    destruct (same_contents_entry_l _ _ _ _ Hs Hf) as (nd' & Hin & Hc).
    apply same_contents_file_l in Hc. subst nd'. eauto.
  - intros (aes & f & -> & Hf & Hp).
    destruct (same_contents_dir_r _ _ Hs) as (aes1 & ->).
    destruct (same_contents_entry_r _ _ _ _ Hs Hf) as (nd' & Hin & Hc).
    apply same_contents_file_r in Hc. subst nd'. eauto.
Qed.

(** Two ascending lists of names with the same members are the same
    list. *)
Lemma sorted_names_unique : forall l1 l2 : list str,
  StronglySorted (fun x y => str_ltb y x = false) l1 ->
  StronglySorted (fun x y => str_ltb y x = false) l2 ->
  Permutation l1 l2 -> l1 = l2.
Proof.
  induction l1 as [|a l1 IH]; intros l2 H1 H2 Hp.
  - apply Permutation_nil in Hp. congruence.
  - destruct l2 as [|b l2].
    { symmetry in Hp. apply Permutation_nil in Hp. discriminate. }
    apply StronglySorted_inv in H1. destruct H1 as [H1 Ha].
    apply StronglySorted_inv in H2. destruct H2 as [H2 Hb].
    rewrite List.Forall_forall in Ha, Hb.
    assert (Hab : a = b).
    { assert (Hain : a ∈ b :: l2) by (rewrite <- Hp; apply elem_of_cons; auto).
      assert (Hbin : b ∈ a :: l1) by (rewrite Hp; apply elem_of_cons; auto).
      apply elem_of_cons in Hain. destruct Hain as [|Hain]; [assumption|].
      apply elem_of_cons in Hbin. destruct Hbin as [|Hbin]; [congruence|].
      apply list_elem_of_In in Hain, Hbin.
      apply str_ltb_antisym; [apply (Hb _ Hain)|apply (Ha _ Hbin)]. }
    subst b. f_equal. apply IH; try assumption.
    eapply Permutation_cons_inv. exact Hp.
Qed.

Lemma sorted_map_name (l : list AssetInfo) :
  StronglySorted (fun a b => str_ltb (name b) (name a) = false) l ->
  StronglySorted (fun x y => str_ltb y x = false) (map name l).
Proof.
  induction 1 as [|a l _ IH Ha]; cbn [map]; constructor; [exact IH|].
  rewrite List.Forall_forall in *. intros x Hx. apply in_map_iff in Hx.
  destruct Hx as (b & <- & Hb). apply Ha. exact Hb.
Qed.

Lemma filter_perm {A} (p : A -> bool) l l' :
  Permutation l l' -> Permutation (List.filter p l) (List.filter p l').
Proof.
  induction 1 as [|x l l' _ IH|x y l|l l' l'' _ IH1 _ IH2]; cbn [List.filter].
  - reflexivity.
  - destruct (p x); [apply perm_skip|]; exact IH.
  - destruct (p x), (p y); try reflexivity. apply perm_swap.
  - etransitivity; eassumption.
Qed.

(** The USD files of two listings with the same contents are the same, up
    to their order. *)
Lemma usd_files_same ves1 ves2 :
  same_contents (Dir ves1) (Dir ves2) ->
  Permutation (usd_files ves1) (usd_files ves2).
Proof.
  intros Hs. destruct (same_contents_dir_inv _ _ Hs) as (ves1' & Hp & Hf).
  transitivity (usd_files ves1').
  - unfold usd_files. apply Permutation_map, filter_perm. exact Hp.
  - replace (usd_files ves1') with (usd_files ves2); [reflexivity|].
    unfold usd_files. clear Hp Hs.
    induction Hf as [|[n1 nd1] [n2 nd2] l1 l2 [Hn Hc] _ IH]; [reflexivity|].
    cbn [fst snd] in Hn, Hc. subst n2. cbn [List.filter fst snd].
    assert (Hfile : is_file nd1 = is_file nd2).
    { destruct nd1.
      - apply same_contents_file_l in Hc. subst. reflexivity.
      - destruct (same_contents_dir_l _ _ Hc) as (? & ->). reflexivity. }
    rewrite Hfile.
    destruct (is_file nd2 && in_set (suffix n1) USD_EXTENSIONS);
      cbn [map fst]; rewrite IH; reflexivity.
Qed.

(** The [variants] listings of two directories with the same contents
    have the same contents. *)
Lemma variants_listing_same aes1 aes2 :
  NoDup (map fst aes1) -> NoDup (map fst aes2) ->
  same_contents (Dir aes1) (Dir aes2) ->
  same_contents (Dir (variants_listing aes1)) (Dir (variants_listing aes2)).
Proof.
  intros Hn1 Hn2 Hs. unfold variants_listing.
  assert (Hnil : same_contents (Dir []) (Dir [])).
  { apply (same_dir [] [] []); constructor. }
  destruct (lookup_entry VARIANTS aes1) as [nd1|] eqn:H1.
  - apply lookup_entry_in in H1.
    destruct (same_contents_entry_l _ _ _ _ Hs H1) as (nd2 & Hin2 & Hc).
    apply (lookup_entry_spec aes2 VARIANTS nd2 Hn2) in Hin2. rewrite Hin2.
    destruct nd1.
    + apply same_contents_file_l in Hc. subst. exact Hnil.
    + destruct (same_contents_dir_l _ _ Hc) as (? & ->). exact Hc.
  - destruct (lookup_entry VARIANTS aes2) as [nd2|] eqn:H2; [|exact Hnil].
    apply lookup_entry_in in H2.
    destruct (same_contents_entry_r _ _ _ _ Hs H2) as (nd1 & Hin1 & Hc).
    apply (lookup_entry_spec aes1 VARIANTS nd1 Hn1) in Hin1. congruence.
Qed.

(** Two scans of assets directories with the same contents, whatever the
    order in which the file system lists the entries and whatever the
    order in which the run iterates the extension sets, return records
    for the same assets in the same order, each with the same variant
    files up to their order. *)
Theorem scan_independent_of_listing_order
    usd_order1 thumb_order1 usd_order2 thumb_order2 es1 es2 case_insensitive :
  Permutation usd_order1 USD_EXTENSIONS ->
  Permutation usd_order2 USD_EXTENSIONS ->
  wf (Dir es1) = true ->
  wf (Dir es2) = true ->
  same_contents (Dir es1) (Dir es2) ->
  let r1 := scan_assets_directory usd_order1 thumb_order1 (Some (Dir es1))
              case_insensitive in
  let r2 := scan_assets_directory usd_order2 thumb_order2 (Some (Dir es2))
              case_insensitive in
  map name r1 = map name r2 /\
  forall a1 a2, a1 ∈ r1 -> a2 ∈ r2 -> name a1 = name a2 ->
    Permutation (map fst (variants a1)) (map fst (variants a2)).
Proof.
  intros Hp1 Hp2 Hwf1 Hwf2 Hs r1 r2.
  destruct (scan_names usd_order1 thumb_order1 es1 case_insensitive
              Hp1 Hwf1) as (S1 & N1 & M1).
  destruct (scan_names usd_order2 thumb_order2 es2 case_insensitive
              Hp2 Hwf2) as (S2 & N2 & M2).
  fold r1 in S1, N1, M1. fold r2 in S2, N2, M2.
  destruct (wf_dir es1 Hwf1) as (Hnd1 & Hne1 & Hsub1).
  destruct (wf_dir es2 Hwf2) as (Hnd2 & Hne2 & Hsub2).
  split.
  - apply sorted_names_unique; try (apply sorted_map_name; assumption).
    apply NoDup_Permutation; try assumption.
    intros n. rewrite M1, M2. split.
    + intros ([m nd1] & Hin & <- & Hprim). cbn [fst].
      destruct (same_contents_entry_l _ _ _ _ Hs Hin) as (nd2 & Hin2 & Hc).
      exists (m, nd2). split; [exact Hin2|]. split; [reflexivity|].
      apply (has_primary_same case_insensitive m nd1 nd2 Hc). exact Hprim.
    + intros ([m nd2] & Hin & <- & Hprim). cbn [fst].
      destruct (same_contents_entry_r _ _ _ _ Hs Hin) as (nd1 & Hin1 & Hc).
      exists (m, nd1). split; [exact Hin1|]. split; [reflexivity|].
      apply (has_primary_same case_insensitive m nd1 nd2 Hc). exact Hprim.
  - intros a1 a2 Ha1 Ha2 Hname.
    unfold r1 in Ha1. unfold r2 in Ha2.
    rewrite (scan_perm usd_order1 thumb_order1 es1 case_insensitive) in Ha1.
    rewrite (scan_perm usd_order2 thumb_order2 es2 case_insensitive) in Ha2.
    apply scan_entries_in in Ha1, Ha2.
    destruct Ha1 as (nd1 & Hin1 & Hscan1). destruct Ha2 as (nd2 & Hin2 & Hscan2).
    destruct (scan_asset_directory_name _ _ _ _ _ _ Hscan1) as [_ Hd1].
    destruct (scan_asset_directory_name _ _ _ _ _ _ Hscan2) as [_ Hd2].
    destruct nd1 as [|aes1]; [discriminate|]. destruct nd2 as [|aes2]; [discriminate|].
    destruct (wf_dir aes1 (Hsub1 _ Hin1)) as (Hn1' & _ & _).
    destruct (wf_dir aes2 (Hsub2 _ Hin2)) as (Hn2' & _ & _).
    pose proof (scan_asset_directory_spec usd_order1 thumb_order1 (name a1) aes1
                  case_insensitive Hp1 (Hne1 _ Hin1) Hn1') as Hsp1.
    pose proof (scan_asset_directory_spec usd_order2 thumb_order2 (name a2) aes2
                  case_insensitive Hp2 (Hne2 _ Hin2) Hn2') as Hsp2.
    rewrite Hscan1 in Hsp1. rewrite Hscan2 in Hsp2.
    destruct Hsp1 as (_ & _ & _ & _ & Hv1). destruct Hsp2 as (_ & _ & _ & _ & Hv2).
    rewrite Hv1, Hv2, !scan_variants_files.
    apply usd_files_same. apply variants_listing_same; try assumption.
    destruct (same_contents_entry_l _ _ _ _ Hs Hin1) as (nd2 & Hin2' & Hc).
    rewrite Hname in Hin2'.
    apply (lookup_entry_spec es2 _ _ Hnd2) in Hin2', Hin2.
    rewrite Hin2 in Hin2'. injection Hin2' as <-. exact Hc.
Qed.

Lemma scan_record_contents_witness :
  exists aes,
    (py "teapot", Dir aes) ∈ (match doc_tree with Dir es => es | File => [] end) /\
    (py "teapot.usd", File) ∈ aes /\
    is_primary_name true (py "teapot") (py "teapot.usd") /\
    ((py "thumbnail.jpg", File) ∈ aes /\
     is_thumbnail_name true THUMBNAIL (py "thumbnail.jpg")) /\
    map fst (variants teapot_record) = usd_files (variants_listing aes) /\
    forall v t, (v, t) ∈ variants teapot_record ->
      match t with
      | Some f => (f, File) ∈ variants_listing aes /\
                  is_thumbnail_name true (stem v ++ _THUMBNAIL) f
      | None => forall f, (f, File) ∈ variants_listing aes ->
                  ~ is_thumbnail_name true (stem v ++ _THUMBNAIL) f
      end.
Proof.
  apply (scan_record_contents USD_EXTENSIONS THUMBNAIL_EXTENSIONS _ true
           (Permutation_refl _) (Permutation_refl _)
           (eq_refl : wf doc_tree = true) teapot_record).
  vm_compute. do 2 (apply elem_of_cons; right). apply elem_of_cons. left. reflexivity.
Defined.

Lemma small_trees_same_contents : same_contents small_tree small_tree_reordered.
Proof.
  apply (same_dir _ [ (py "book", Dir [ (py "book.usdc", File) ]);
                      (py "chair", Dir [ (py "chair.usd", File);
                                         (py "variants", Dir chair_variants) ]) ]).
  { apply perm_swap. }
  constructor; [|constructor; [|constructor]].
  - split; [reflexivity|]. cbn [snd].
    apply (same_dir _ [ (py "book.usdc", File) ]); [reflexivity|].
    constructor; [split; [reflexivity|apply same_file]|constructor].
  - split; [reflexivity|]. cbn [snd].
    apply (same_dir _ [ (py "variants", Dir chair_variants); (py "chair.usd", File) ]).
    { apply perm_swap. }
    constructor; [|constructor; [split; [reflexivity|apply same_file]|constructor]].
    split; [reflexivity|]. cbn [snd].
    apply (same_dir _ (rev chair_variants)); [apply perm_swap|].
    constructor; [split; [reflexivity|apply same_file]|].
    constructor; [split; [reflexivity|apply same_file]|constructor].
Qed.

Lemma scan_independent_of_listing_order_witness :
  let r1 := scan_assets_directory USD_EXTENSIONS THUMBNAIL_EXTENSIONS
              (Some small_tree) true in
  let r2 := scan_assets_directory (rev USD_EXTENSIONS) THUMBNAIL_EXTENSIONS
              (Some small_tree_reordered) true in
  map name r1 = map name r2 /\
  forall a1 a2, a1 ∈ r1 -> a2 ∈ r2 -> name a1 = name a2 ->
    Permutation (map fst (variants a1)) (map fst (variants a2)).
Proof.
  apply (scan_independent_of_listing_order USD_EXTENSIONS THUMBNAIL_EXTENSIONS
           (rev USD_EXTENSIONS) THUMBNAIL_EXTENSIONS).
  - reflexivity.
  - symmetry. apply Permutation_rev.
  - vm_compute. reflexivity.
  - vm_compute. reflexivity.
  - exact small_trees_same_contents.
Defined.

(** The files of two listings with the same contents are the same. *)
Lemma same_contents_file es1 es2 f :
  same_contents (Dir es1) (Dir es2) ->
  ((f, File) ∈ es1 <-> (f, File) ∈ es2).
Proof.
  intros Hs. split; intros Hin.
  - destruct (same_contents_entry_l _ _ _ _ Hs Hin) as (nd & Hin' & Hc).
    apply same_contents_file_l in Hc. subst nd. exact Hin'.
  - destruct (same_contents_entry_r _ _ _ _ Hs Hin) as (nd & Hin' & Hc).
    apply same_contents_file_r in Hc. subst nd. exact Hin'.
Qed.

(** The thumbnail found in two listings with the same contents is the
    same when no two files qualify. *)
Lemma find_thumbnail_same thumb_order1 thumb_order2 es1 es2 base case_insensitive :
  Permutation thumb_order1 THUMBNAIL_EXTENSIONS ->
  Permutation thumb_order2 THUMBNAIL_EXTENSIONS ->
  NoDup (map fst es1) -> NoDup (map fst es2) ->
  same_contents (Dir es1) (Dir es2) ->
  one_thumbnail case_insensitive base es1 ->
  find_thumbnail thumb_order1 es1 base case_insensitive =
    find_thumbnail thumb_order2 es2 base case_insensitive.
Proof.
  intros Hp1 Hp2 Hn1 Hn2 Hs Hone.
  pose proof (find_thumbnail_spec thumb_order1 es1 base case_insensitive Hp1 Hn1) as H1.
  pose proof (find_thumbnail_spec thumb_order2 es2 base case_insensitive Hp2 Hn2) as H2.
  destruct (find_thumbnail thumb_order1 es1 base case_insensitive) as [t1|],
           (find_thumbnail thumb_order2 es2 base case_insensitive) as [t2|].
  - destruct H1 as [Hin1 Ht1]. destruct H2 as [Hin2 Ht2].
    f_equal. apply Hone; try assumption.
    apply (same_contents_file es1 es2 t2 Hs). exact Hin2.
  - destruct H1 as [Hin1 Ht1]. exfalso. apply (H2 t1); [|exact Ht1].
    apply (same_contents_file es1 es2 t1 Hs). exact Hin1.
  - destruct H2 as [Hin2 Ht2]. exfalso. apply (H1 t2); [|exact Ht2].
    apply (same_contents_file es1 es2 t2 Hs). exact Hin2.
  - reflexivity.
Qed.



(** Two scans of trees with the same contents have the same asset names
    in the same order. *)
Lemma scan_same_names usd_order1 thumb_order1 usd_order2 thumb_order2 es1 es2
    case_insensitive :
  Permutation usd_order1 USD_EXTENSIONS ->
  Permutation usd_order2 USD_EXTENSIONS ->
  wf (Dir es1) = true ->
  wf (Dir es2) = true ->
  same_contents (Dir es1) (Dir es2) ->
  map name (scan_assets_directory usd_order1 thumb_order1 (Some (Dir es1))
              case_insensitive) =
  map name (scan_assets_directory usd_order2 thumb_order2 (Some (Dir es2))
              case_insensitive).
Proof.
  intros Hp1 Hp2 Hwf1 Hwf2 Hs.
  destruct (scan_names usd_order1 thumb_order1 es1 case_insensitive Hp1 Hwf1)
    as (S1 & N1 & M1).
  destruct (scan_names usd_order2 thumb_order2 es2 case_insensitive Hp2 Hwf2)
    as (S2 & N2 & M2).
  apply sorted_names_unique; try (apply sorted_map_name; assumption).
  apply NoDup_Permutation; try assumption.
  intros n. rewrite M1, M2. split.
  - intros ([m nd1] & Hin & <- & Hprim). cbn [fst].
    destruct (same_contents_entry_l _ _ _ _ Hs Hin) as (nd2 & Hin2 & Hc).
    exists (m, nd2). split; [exact Hin2|]. split; [reflexivity|].
    apply (has_primary_same case_insensitive m nd1 nd2 Hc). exact Hprim.
  - intros ([m nd2] & Hin & <- & Hprim). cbn [fst].
    destruct (same_contents_entry_r _ _ _ _ Hs Hin) as (nd1 & Hin1 & Hc).
    exists (m, nd1). split; [exact Hin1|]. split; [reflexivity|].
    apply (has_primary_same case_insensitive m nd1 nd2 Hc). exact Hprim.
Qed.

(** C6 (as amended). Two scans of well-formed assets directories with the
    same contents - whatever the order in which the file system lists the
    entries of a directory, and whatever the order in which each run
    iterates the two extension sets - return records for the same asset
    names in the same order.  The two records of a name have the same
    variant files, up to their order; the same primary file when the asset
    directory holds no two files that qualify as its primary file; the same
    thumbnail when it holds no two files that qualify as its thumbnail; and
    a variant is paired with the same thumbnail in both when the
    [variants] directory holds no two files that qualify as that
    variant's thumbnail. *)
Theorem scan_same_contents usd_order1 thumb_order1 usd_order2 thumb_order2
    es1 es2 case_insensitive :
  Permutation usd_order1 USD_EXTENSIONS ->
  Permutation usd_order2 USD_EXTENSIONS ->
  Permutation thumb_order1 THUMBNAIL_EXTENSIONS ->
  Permutation thumb_order2 THUMBNAIL_EXTENSIONS ->
  wf (Dir es1) = true ->
  wf (Dir es2) = true ->
  same_contents (Dir es1) (Dir es2) ->
  let r1 := scan_assets_directory usd_order1 thumb_order1 (Some (Dir es1))
              case_insensitive in
  let r2 := scan_assets_directory usd_order2 thumb_order2 (Some (Dir es2))
              case_insensitive in
  map name r1 = map name r2 /\
  forall a1 a2, a1 ∈ r1 -> a2 ∈ r2 -> name a1 = name a2 ->
    exists aes1,
      (name a1, Dir aes1) ∈ es1 /\
      Permutation (map fst (variants a1)) (map fst (variants a2)) /\
      (one_primary case_insensitive (name a1) aes1 ->
       primary_file a1 = primary_file a2) /\
      (one_thumbnail case_insensitive THUMBNAIL aes1 ->
       thumbnail a1 = thumbnail a2) /\
      (forall v t1 t2,
         (v, t1) ∈ variants a1 -> (v, t2) ∈ variants a2 ->
         one_thumbnail case_insensitive (stem v ++ _THUMBNAIL)
           (variants_listing aes1) ->
         t1 = t2).
Proof.
  intros Hp1 Hp2 Ht1 Ht2 Hwf1 Hwf2 Hs r1 r2.
  split; [apply scan_same_names; assumption|].
  destruct (wf_dir es1 Hwf1) as (Hnd1 & Hne1 & Hsub1).
  destruct (wf_dir es2 Hwf2) as (Hnd2 & Hne2 & Hsub2).
  intros a1 a2 Ha1 Ha2 Hname.
  unfold r1 in Ha1. unfold r2 in Ha2.
  rewrite (scan_perm usd_order1 thumb_order1 es1 case_insensitive) in Ha1.
  rewrite (scan_perm usd_order2 thumb_order2 es2 case_insensitive) in Ha2.
  apply scan_entries_in in Ha1, Ha2.
  destruct Ha1 as (nd1 & Hin1 & Hscan1). destruct Ha2 as (nd2 & Hin2 & Hscan2).
  destruct (scan_asset_directory_name _ _ _ _ _ _ Hscan1) as [_ Hd1].
  destruct (scan_asset_directory_name _ _ _ _ _ _ Hscan2) as [_ Hd2].
  destruct nd1 as [|aes1]; [discriminate|]. destruct nd2 as [|aes2]; [discriminate|].
  destruct (wf_dir aes1 (Hsub1 _ Hin1)) as (Hn1' & _ & _).
  destruct (wf_dir aes2 (Hsub2 _ Hin2)) as (Hn2' & _ & _).
  pose proof (scan_asset_directory_spec usd_order1 thumb_order1 (name a1) aes1
                case_insensitive Hp1 (Hne1 _ Hin1) Hn1') as Hsp1.
  pose proof (scan_asset_directory_spec usd_order2 thumb_order2 (name a2) aes2
                case_insensitive Hp2 (Hne2 _ Hin2) Hn2') as Hsp2.
  rewrite Hscan1 in Hsp1. rewrite Hscan2 in Hsp2.
  destruct Hsp1 as (_ & Hf1 & Hprim1 & Hth1 & Hv1).
  destruct Hsp2 as (_ & Hf2 & Hprim2 & Hth2 & Hv2).
  assert (Hc : same_contents (Dir aes1) (Dir aes2)).
  { destruct (same_contents_entry_l _ _ _ _ Hs Hin1) as (nd2 & Hin2' & Hc).
    rewrite Hname in Hin2'.
    apply (lookup_entry_spec es2 _ _ Hnd2) in Hin2', Hin2.
    rewrite Hin2 in Hin2'. injection Hin2' as <-. exact Hc. }
  assert (Hcv : same_contents (Dir (variants_listing aes1))
                              (Dir (variants_listing aes2))).
  { apply variants_listing_same; assumption. }
  exists aes1. split; [exact Hin1|]. split; [|split; [|split]].
  - rewrite Hv1, Hv2, !scan_variants_files. apply usd_files_same. exact Hcv.
  - intros Hone. apply Hone; [exact Hf1| |exact Hprim1|].
    + apply (same_contents_file aes1 aes2 _ Hc). exact Hf2.
    + rewrite Hname. exact Hprim2.
  - intros Hone. rewrite Hth1, Hth2.
    apply find_thumbnail_same; assumption.
  - intros v t1 t2 Hvt1 Hvt2 Hone.
    rewrite Hv1 in Hvt1. rewrite Hv2 in Hvt2.
    fold (variants_listing aes1) in Hvt1. fold (variants_listing aes2) in Hvt2.
    apply scan_variants_in in Hvt1, Hvt2.
    destruct Hvt1 as (_ & _ & ->). destruct Hvt2 as (_ & _ & ->).
    apply find_thumbnail_same; try assumption.
    + apply variants_listing_NoDup. apply (Hsub1 _ Hin1).
    + apply variants_listing_NoDup. apply (Hsub2 _ Hin2).
Qed.

Lemma mixed_case_trees_same_contents :
  same_contents mixed_case_tree mixed_case_tree_reordered.
Proof.
  apply (same_dir _ [ (py "chair", Dir [ (py "Chair.usd", File); (py "CHAIR.usdc", File);
                                         (py "Thumbnail.jpg", File);
                                         (py "THUMBNAIL.png", File) ]) ]);
    [reflexivity|].
  constructor; [|constructor]. split; [reflexivity|]. cbn [snd].
  apply (same_dir _ [ (py "CHAIR.usdc", File); (py "Chair.usd", File);
                      (py "THUMBNAIL.png", File); (py "Thumbnail.jpg", File) ]).
  { etransitivity; [apply perm_swap|]. do 2 apply perm_skip. apply perm_swap. }
  repeat (constructor; [split; [reflexivity|apply same_file]|]). constructor.
Qed.

(** C6, counterexamples.  The variants of a record come in the order in
    which the file system lists the [variants] directory: two listings of
    one tree give the chair its variants in two orders.  In
    case-insensitive mode the first file listed that matches the asset's
    name without regard to case is the primary file, and likewise for the
    thumbnail: two listings of one tree give [Chair.usd] with
    [Thumbnail.jpg] and [CHAIR.usdc] with [THUMBNAIL.png].  And of two
    primary files that differ in their extension the one whose extension
    the run iterates first is taken: one listing gives [lamp.usd] in one
    run and [lamp.usdc] in another. *)
Lemma scan_listing_order_counterexample :
  (same_contents small_tree small_tree_reordered /\
   scan_assets_directory USD_EXTENSIONS THUMBNAIL_EXTENSIONS (Some small_tree) true =
     [ mkAssetInfo (py "book") (py "book.usdc") None [];
       mkAssetInfo (py "chair") (py "chair.usd") None
         [ (py "chair_red.usd", None); (py "chair_oak.usda", None) ] ] /\
   scan_assets_directory USD_EXTENSIONS THUMBNAIL_EXTENSIONS
       (Some small_tree_reordered) true =
     [ mkAssetInfo (py "book") (py "book.usdc") None [];
       mkAssetInfo (py "chair") (py "chair.usd") None
         [ (py "chair_oak.usda", None); (py "chair_red.usd", None) ] ]) /\
  (same_contents mixed_case_tree mixed_case_tree_reordered /\
   scan_assets_directory USD_EXTENSIONS THUMBNAIL_EXTENSIONS
       (Some mixed_case_tree) true =
     [ mkAssetInfo (py "chair") (py "Chair.usd") (Some (py "Thumbnail.jpg")) [] ] /\
   scan_assets_directory USD_EXTENSIONS THUMBNAIL_EXTENSIONS
       (Some mixed_case_tree_reordered) true =
     [ mkAssetInfo (py "chair") (py "CHAIR.usdc") (Some (py "THUMBNAIL.png")) [] ]) /\
  (scan_assets_directory USD_EXTENSIONS THUMBNAIL_EXTENSIONS
       (Some two_formats_tree) false =
     [ mkAssetInfo (py "lamp") (py "lamp.usd") None [] ] /\
   scan_assets_directory (rev USD_EXTENSIONS) THUMBNAIL_EXTENSIONS
       (Some two_formats_tree) false =
     [ mkAssetInfo (py "lamp") (py "lamp.usdc") None [] ]).
Proof.
  split; [|split].
  - split; [exact small_trees_same_contents|].
    split; vm_compute; reflexivity.
  - split; [exact mixed_case_trees_same_contents|].
    split; vm_compute; reflexivity.
  - split; vm_compute; reflexivity.
Qed.

Lemma scan_same_contents_witness :
  let r1 := scan_assets_directory USD_EXTENSIONS THUMBNAIL_EXTENSIONS
              (Some small_tree) true in
  let r2 := scan_assets_directory (rev USD_EXTENSIONS) (rev THUMBNAIL_EXTENSIONS)
              (Some small_tree_reordered) true in
  map name r1 = map name r2 /\
  forall a1 a2, a1 ∈ r1 -> a2 ∈ r2 -> name a1 = name a2 ->
    exists aes1,
      (name a1, Dir aes1) ∈ (match small_tree with Dir es => es | File => [] end) /\
      Permutation (map fst (variants a1)) (map fst (variants a2)) /\
      (one_primary true (name a1) aes1 -> primary_file a1 = primary_file a2) /\
      (one_thumbnail true THUMBNAIL aes1 -> thumbnail a1 = thumbnail a2) /\
      (forall v t1 t2,
         (v, t1) ∈ variants a1 -> (v, t2) ∈ variants a2 ->
         one_thumbnail true (stem v ++ _THUMBNAIL) (variants_listing aes1) ->
         t1 = t2).
Proof.
  apply (scan_same_contents USD_EXTENSIONS THUMBNAIL_EXTENSIONS
           (rev USD_EXTENSIONS) (rev THUMBNAIL_EXTENSIONS)).
  - reflexivity.
  - symmetry. apply Permutation_rev.
  - reflexivity.
  - symmetry. apply Permutation_rev.
  - vm_compute. reflexivity.
  - vm_compute. reflexivity.
  - exact small_trees_same_contents.
Defined.

End ScanFacts.

(** ** More of the DAG renamer *)

Module DagRenamerMoreFacts.
Import DagRenamer DagRenamerSpec DagRenamerMore DagRenamerFacts.

Lemma item_text_set_programmatic b u i :
  item_text (set_programmatic b u) i = item_text u i.
Proof. reflexivity. Qed.

(** An edit by the user to a text that is not blank: the item shows the
    text without the white space around it, that text becomes the item's
    stored previous name, one [RenameCommand] from the stored previous name
    to it is pushed, the signals are unblocked again, and undoing the
    command brings the previous name back. *)
Theorem user_edit_recorded (u : Ui) (item : nat) (t : str) :
  programmaticTextChange u = false ->
  signalsBlocked u = false ->
  item_text u item <> t ->
  nonblank t ->
  let u' := user_edit u item t in
  let command := RenameCommand item (strip t) (item_oldName u item) in
  item_text u' item = strip t /\
  item_oldName u' item = strip t /\
  undoStack u' = command :: undoStack u /\
  signalsBlocked u' = false /\
  programmaticTextChange u' = false /\
  (nonblank (item_oldName u item) ->
   item_text (undo command u') item = item_oldName u item).
Proof.
  intros Hprog Hblocked Hchanged Hnb u' command.
  assert (Hu' : u' =
    blockSignals false
      (set_programmatic false
         (set_text item (strip t)
            (set_programmatic true
               (stack_push command
                  (set_oldName item (strip t)
                     (set_colour item
                        (negb (bool_decide (strip t = strip (item_origText u item))))
                        (blockSignals true (set_text item t u))))))))).
  { unfold u', user_edit, item_setText.
    rewrite (bool_decide_eq_false_2 _ Hchanged), Hblocked. cbn [negb andb].
    unfold onItemChanged, onItemChanged_body.
    rewrite item_text_set_text.
    rewrite (bool_decide_eq_false_2 (strip t = [])) by exact Hnb.
    cbn [programmaticTextChange set_oldName set_colour blockSignals set_text].
    rewrite Hprog.
    unfold stack_push_redo, cmd_redo, setTextProgrammatic, item_setText.
    cbn [signalsBlocked set_programmatic stack_push negb].
    rewrite andb_false_r. reflexivity. }
  split; [|split; [|split; [|split; [|split]]]].
  - rewrite Hu'. unfold item_text. cbn. rewrite lookup_insert_eq. reflexivity.
  - rewrite Hu'. unfold item_oldName. cbn. rewrite lookup_insert_eq. reflexivity.
  - rewrite Hu'. reflexivity.
  - rewrite Hu'. reflexivity.
  - rewrite Hu'. reflexivity.
  - intros Hold.
    destruct (undo_text command u') as [Ht _].
    { intros ch Hin. cbn in Hin. apply elem_of_cons in Hin.
      destruct Hin as [->|Hin]; [exact Hold|].
      apply elem_of_nil in Hin. destruct Hin. }
    rewrite Ht. cbn. rewrite Nat.eqb_refl. reflexivity.
Qed.

Lemma user_edit_recorded_witness :
  let u' := user_edit example_ui 2 (py " arm_L ") in
  let command := RenameCommand 2 (py "arm_L") (py "a") in
  item_text u' 2 = py "arm_L" /\
  item_oldName u' 2 = py "arm_L" /\
  undoStack u' = command :: [] /\
  signalsBlocked u' = false /\
  programmaticTextChange u' = false /\
  (nonblank (py "a") -> item_text (undo command u') 2 = py "a").
Proof.
  apply (user_edit_recorded example_ui 2 (py " arm_L ")).
  - reflexivity.
  - reflexivity.
  - vm_compute. discriminate.
  - vm_compute. discriminate.
Defined.

(** An edit by the user to a blank text is turned back: the item shows
    its stored previous name again and no command is pushed.  The handler
    returns without unblocking the signals, so from then on a further edit
    is neither trimmed nor recorded on the undo stack. *)
Theorem blank_edit_reverted (u : Ui) (item : nat) (t : str) :
  signalsBlocked u = false ->
  item_text u item <> t ->
  strip t = [] ->
  let u' := user_edit u item t in
  item_text u' item = item_oldName u item /\
  undoStack u' = undoStack u /\
  signalsBlocked u' = true /\
  forall (j : nat) (t' : str),
    item_text (user_edit u' j t') j = t' /\
    undoStack (user_edit u' j t') = undoStack u.
Proof.
  intros Hblocked Hchanged Hblank u'.
  assert (Hu' : u' = set_text item (item_oldName u item)
                       (blockSignals true (set_text item t u))).
  { unfold u', user_edit, item_setText.
    rewrite (bool_decide_eq_false_2 _ Hchanged), Hblocked. cbn [negb andb].
    unfold onItemChanged, onItemChanged_body.
    rewrite item_text_set_text.
    rewrite (bool_decide_eq_true_2 (strip t = [])) by exact Hblank.
    unfold item_setText. cbn [signalsBlocked blockSignals negb].
    rewrite andb_false_r. reflexivity. }
  split; [|split; [|split]].
  - rewrite Hu'. apply item_text_set_text.
  - rewrite Hu'. reflexivity.
  - rewrite Hu'. reflexivity.
  - intros j t'.
    assert (He : user_edit u' j t' = set_text j t' u').
    { unfold user_edit, item_setText.
      replace (signalsBlocked u') with true by (rewrite Hu'; reflexivity).
      cbn [negb]. rewrite andb_false_r. reflexivity. }
    rewrite He. split; [apply item_text_set_text|]. rewrite Hu'. reflexivity.
Qed.

Lemma blank_edit_reverted_witness :
  let u' := user_edit example_ui 2 (py "   ") in
  item_text u' 2 = py "a" /\
  undoStack u' = [] /\
  signalsBlocked u' = true /\
  forall (j : nat) (t' : str),
    item_text (user_edit u' j t') j = t' /\
    undoStack (user_edit u' j t') = [].
Proof.
  apply (blank_edit_reverted example_ui 2 (py "   ")).
  - reflexivity.
  - vm_compute. discriminate.
  - vm_compute. reflexivity.
Defined.

(** *** Populating the tree *)

(** Where row [k] of depth [d] goes, read off the whole listing. *)
Definition place_of (depths : list Z) (k : nat) (d : Z) : Place :=
  if d =? 1 then TopLevel
  else match latest_at_depth depths k (d - 1) with
       | Some parent => ChildOf parent
       | None => Detached
       end.

Lemma latest_at_depth_S depths k d :
  latest_at_depth depths (S k) d =
    if bool_decide (depths !! k = Some d) then Some k
    else latest_at_depth depths k d.
Proof.
  unfold latest_at_depth. rewrite seq_S, List.filter_app. cbn [List.filter Nat.add].
  destruct (bool_decide (depths !! k = Some d)).
  - apply last_snoc.
  - rewrite app_nil_r. reflexivity.
Qed.

Lemma populate_rows_spec (full : list Z) : forall later earlier stack,
  full = earlier ++ later ->
  (forall d, stack !! d = latest_at_depth full (length earlier) d) ->
  forall k d, later !! k = Some d ->
    populate_rows later (length earlier) stack !! k =
      Some (place_of full (length earlier + k) d).
Proof.
  intros later. induction later as [|x later IH];
    intros earlier stack Hfull Hstack k d Hk.
  - discriminate.
  - destruct k as [|k].
    + injection Hk as ->. cbn [populate_rows]. rewrite Nat.add_0_r.
      unfold place_of. rewrite Hstack. reflexivity.
    + cbn [populate_rows].
      change ((?p :: ?l) !! S k) with (l !! k).
      change ((x :: later) !! S k = Some d) with (later !! k = Some d) in Hk.
      replace (S (length earlier)) with (length (earlier ++ [x]))
        by (rewrite length_app; cbn; lia).
      replace (length earlier + S k)%nat with (length (earlier ++ [x]) + k)%nat
        by (rewrite length_app; cbn; lia).
      apply IH; [rewrite <- app_assoc; exact Hfull| |exact Hk].
      intros d'. rewrite length_app. cbn [length]. rewrite Nat.add_1_r.
      rewrite latest_at_depth_S.
      assert (Hx : full !! length earlier = Some x).
      { rewrite Hfull. rewrite lookup_app_r by lia.
        rewrite Nat.sub_diag. reflexivity. }
      rewrite Hx. destruct (decide (x = d')) as [->|Hne].
      * rewrite bool_decide_eq_true_2 by reflexivity. apply lookup_insert_eq.
      * rewrite bool_decide_eq_false_2 by congruence.
        rewrite lookup_insert_ne by exact Hne. apply Hstack.
Qed.

(** [_populateTree] puts a row of depth 1 at the top level and any other
    row under the latest earlier row that is one level up - whatever lies
    in between -, and leaves it out of the tree when there is no such
    row. *)
Theorem populateTree_places (depths : list Z) (k : nat) (d : Z) :
  depths !! k = Some d ->
  populateTree depths !! k =
    Some (if d =? 1 then TopLevel
          else match latest_at_depth depths k (d - 1) with
               | Some parent => ChildOf parent
               | None => Detached
               end).
Proof.
  intros Hk. unfold populateTree.
  apply (populate_rows_spec depths depths [] ∅ eq_refl); [|exact Hk].
  intros d'. reflexivity.
Qed.

Lemma populateTree_places_witness :
  populateTree [1; 2; 3; 2; 1; 3] !! 5%nat =
    Some (if 3 =? 1 then TopLevel
          else match latest_at_depth [1; 2; 3; 2; 1; 3] 5 (3 - 1) with
               | Some parent => ChildOf parent
               | None => Detached
               end).
Proof. apply (populateTree_places [1; 2; 3; 2; 1; 3] 5 3). reflexivity. Defined.

(** *** The traversals *)

Lemma pre_post_item_perm : forall t,
  Permutation (traversePreOrderItem t) (traversePostOrderItem t).
Proof.
  fix IH 1. intros [i children]. cbn [traversePreOrderItem traversePostOrderItem].
  rewrite (Permutation_app_comm _ [i]). cbn [app]. apply perm_skip.
  induction children as [|c children IHc]; cbn [flat_map]; [reflexivity|].
  apply Permutation_app; [apply IH|exact IHc].
Qed.

Lemma traverse_item_length : forall t,
  length (traversePreOrderItem t) = item_count t.
Proof.
  fix IH 1. intros [i children]. cbn [traversePreOrderItem item_count length].
  f_equal. induction children as [|c children IHc]; cbn [flat_map map list_sum];
    [reflexivity|].
  rewrite length_app, IH, IHc. reflexivity.
Qed.

Lemma pre_post_perm (top : list QTreeWidgetItem) :
  Permutation (traversePreOrder top) (traversePostOrder top).
Proof.
  unfold traversePreOrder, traversePostOrder.
  induction top as [|t top IH]; cbn [flat_map]; [reflexivity|].
  apply Permutation_app; [apply pre_post_item_perm|exact IH].
Qed.

Lemma traversePreOrder_length (top : list QTreeWidgetItem) :
  length (traversePreOrder top) = list_sum (map item_count top).
Proof.
  unfold traversePreOrder.
  induction top as [|t top IH]; cbn [flat_map map list_sum]; [reflexivity|].
  rewrite length_app, traverse_item_length, IH. reflexivity.
Qed.

(** The two traversals of a tree widget visit the same items, each as
    often as it occurs in the tree, once for each node. *)
Theorem traversals_same_items (top : list QTreeWidgetItem) :
  Permutation (traversePreOrder top) (traversePostOrder top) /\
  length (traversePostOrder top) = list_sum (map item_count top).
Proof.
  split; [apply pre_post_perm|].
  rewrite <- (Permutation_length (pre_post_perm top)).
  apply traversePreOrder_length.
Qed.

(** *** Reset *)

Lemma recorded_new_app l1 l2 i :
  recorded_new (l1 ++ l2) i =
    match recorded_new l2 i with
    | Some n => Some n
    | None => recorded_new l1 i
    end.
Proof.
  induction l1 as [|c l1 IH]; cbn [app recorded_new].
  - destruct (recorded_new l2 i); reflexivity.
  - rewrite IH. destruct (recorded_new l2 i); reflexivity.
Qed.

(** The changes of a reset, from the pairs of the two traversals. *)
Definition reset_changes_of (u : Ui) (origTexts : gmap nat str)
    (pairs : list (nat * nat)) : list Change :=
  flat_map (fun p : nat * nat =>
    let (editableItem, originalItem) := p in
    let originalText := default [] (origTexts !! originalItem) in
    if bool_decide (item_text u editableItem <> originalText)
    then [mkChange editableItem (item_text u editableItem) originalText]
    else []) pairs.

Lemma reset_changes_other u origTexts pairs e :
  e ∉ map fst pairs -> recorded_new (reset_changes_of u origTexts pairs) e = None.
Proof.
  induction pairs as [|[e' o'] pairs IH]; intros Hnot; [reflexivity|].
  cbn [map fst] in Hnot. apply not_elem_of_cons in Hnot. destruct Hnot as [Hne Hnot].
  unfold reset_changes_of in *. cbn [flat_map].
  rewrite recorded_new_app, (IH Hnot).
  destruct (bool_decide _); [|reflexivity].
  cbn [recorded_new ch_item].
  destruct (Nat.eqb_spec e' e); [congruence|reflexivity].
Qed.

Lemma reset_changes_paired u origTexts pairs e o :
  NoDup (map fst pairs) -> (e, o) ∈ pairs ->
  recorded_new (reset_changes_of u origTexts pairs) e =
    if bool_decide (item_text u e <> default [] (origTexts !! o))
    then Some (default [] (origTexts !! o)) else None.
Proof.
  induction pairs as [|[e' o'] pairs IH]; intros Hnd Hin.
  { apply elem_of_nil in Hin. destruct Hin. }
  cbn [map fst] in Hnd. apply NoDup_cons in Hnd. destruct Hnd as [Hnot Hnd].
  unfold reset_changes_of in *. cbn [flat_map]. rewrite recorded_new_app.
  apply elem_of_cons in Hin. destruct Hin as [[= <- <-]|Hin].
  - fold (reset_changes_of u origTexts pairs).
    rewrite (reset_changes_other u origTexts pairs e Hnot).
    destruct (bool_decide _); [|reflexivity].
    cbn [recorded_new ch_item ch_newName]. rewrite Nat.eqb_refl. reflexivity.
  - rewrite (IH Hnd Hin).
    destruct (bool_decide (item_text u e <> default [] (origTexts !! o))) eqn:Hd;
      [reflexivity|].
    destruct (bool_decide (item_text u e' <> default [] (origTexts !! o')));
      [|reflexivity].
    cbn [recorded_new ch_item].
    destruct (Nat.eqb_spec e' e) as [->|]; [|reflexivity].
    exfalso. apply Hnot. apply StrFacts.elem_of_map. exists (e, o). auto.
Qed.

Lemma reset_changes_nonblank u origTexts pairs :
  (forall p, p ∈ pairs -> nonblank (default [] (origTexts !! snd p))) ->
  forall ch, ch ∈ reset_changes_of u origTexts pairs -> nonblank (ch_newName ch).
Proof.
  intros Hnb ch Hin. unfold reset_changes_of in Hin.
  apply list_elem_of_In, in_flat_map in Hin. destruct Hin as ([e o] & Hp & Hch).
  destruct (bool_decide _); [|destruct Hch].
  destruct Hch as [<-|[]]. cbn [ch_newName].
  apply (Hnb (e, o)). apply list_elem_of_In. exact Hp.
Qed.

(** A reset of the editable tree: when no item occurs twice in the tree
    and every original name has a character that is not white space, every
    editable item shows the name of the original item it is paired with,
    the other items keep their texts, and one command is pushed exactly
    when some name differed. *)
Theorem reset_restores_names (u : Ui) (origTop : list QTreeWidgetItem)
    (origTexts : gmap nat str) :
  let pairs :=
    combine (traversePostOrder (topLevel u)) (traversePostOrder origTop) in
  NoDup (traversePostOrder (topLevel u)) ->
  (forall o, o ∈ traversePostOrder origTop ->
             nonblank (default [] (origTexts !! o))) ->
  let u' := resetNodes u origTop origTexts in
  (forall e o, (e, o) ∈ pairs -> item_text u' e = default [] (origTexts !! o)) /\
  (forall e, e ∉ map fst pairs -> item_text u' e = item_text u e) /\
  undoStack u' =
    match reset_changes u origTop origTexts with
    | [] => undoStack u
    | changes => MultiRenameCommand changes :: undoStack u
    end.
Proof.
  intros pairs Hnd Hnb u'.
  assert (Hnd' : NoDup (map fst pairs)).
  { unfold pairs. clear -Hnd. revert Hnd.
    generalize (traversePostOrder (topLevel u)) (traversePostOrder origTop).
    induction l as [|a l IH]; intros l0 Hnd; [constructor|].
    destruct l0 as [|b l0]; [constructor|].
    apply NoDup_cons in Hnd. destruct Hnd as [Ha Hnd].
    cbn [combine map fst]. apply NoDup_cons. split; [|apply IH; exact Hnd].
    intros Hin. apply Ha. apply StrFacts.elem_of_map in Hin.
    destruct Hin as ([a' b'] & Hin & ->). cbn [fst].
    apply list_elem_of_In in Hin. apply in_combine_l in Hin.
    apply list_elem_of_In. exact Hin. }
  assert (Hnb' : forall p, p ∈ pairs -> nonblank (default [] (origTexts !! snd p))).
  { intros [e o] Hin. apply Hnb. unfold pairs in Hin.
    apply list_elem_of_In in Hin. apply in_combine_r in Hin.
    apply list_elem_of_In. exact Hin. }
  assert (Hch : reset_changes u origTop origTexts = reset_changes_of u origTexts pairs)
    by reflexivity.
  assert (Htext : forall i, item_text u' i =
            match recorded_new (reset_changes_of u origTexts pairs) i with
            | Some n => n
            | None => item_text u i
            end).
  { intros i. unfold u', resetNodes. rewrite Hch.
    destruct (reset_changes_of u origTexts pairs) as [|c cs] eqn:Hcs; [reflexivity|].
    rewrite <- Hcs.
    change (push (MultiRenameCommand (reset_changes_of u origTexts pairs)) u)
      with (redo (MultiRenameCommand (reset_changes_of u origTexts pairs))
              (stack_push (MultiRenameCommand (reset_changes_of u origTexts pairs)) u)).
    rewrite (proj1 (redo_text (MultiRenameCommand (reset_changes_of u origTexts pairs))
                      _ (reset_changes_nonblank u origTexts pairs Hnb'))).
    reflexivity. }
  split; [|split].
  - intros e o Hin. rewrite Htext, (reset_changes_paired u origTexts pairs e o Hnd' Hin).
    destruct (bool_decide (item_text u e <> default [] (origTexts !! o))) eqn:Hd;
      [reflexivity|].
    apply bool_decide_eq_false in Hd. destruct (decide (item_text u e = default [] (origTexts !! o)));
      [assumption|contradiction].
  - intros e Hnot. rewrite Htext, (reset_changes_other u origTexts pairs e Hnot).
    reflexivity.
  - unfold u', resetNodes.
    destruct (reset_changes u origTop origTexts) as [|c cs]; [reflexivity|].
    apply push_undoStack.
Qed.

Lemma reset_restores_names_witness :
  let u' := resetNodes (redo example_command example_ui) (topLevel example_ui)
              (text example_ui) in
  item_text (redo example_command example_ui) 3 = py "x_02" /\
  item_text u' 3 = py "b" /\
  item_text u' 2 = py "a" /\
  undoStack u' =
    [MultiRenameCommand [mkChange 2 (py "x_01") (py "a");
                         mkChange 3 (py "x_02") (py "b")]].
Proof.
  destruct (reset_restores_names (redo example_command example_ui)
              (topLevel example_ui) (text example_ui)) as (Hp & Ho & Hs).
  - apply (bool_decide_unpack _). vm_compute. exact I.
  - intros o Ho.
    repeat (apply elem_of_cons in Ho; destruct Ho as [->|Ho];
            [vm_compute; discriminate|]).
    apply elem_of_nil in Ho. destruct Ho.
  - split; [vm_compute; reflexivity|].
    split; [|split].
    + apply (Hp 3%nat 3%nat). vm_compute.
      do 2 (apply elem_of_cons; right). apply elem_of_cons. left. reflexivity.
    + apply (Hp 2%nat 2%nat). vm_compute. apply elem_of_cons. left. reflexivity.
    + cbv zeta. rewrite Hs. vm_compute. reflexivity.
Defined.

End DagRenamerMoreFacts.

(** ** More of the rig colour tool *)

Module RigColorMoreFacts.
Import RigColor RigColorMore RigColorFacts.

(** Saving and loading agree: when [saveColorBookmarks] returns, loading
    with as many default colours as were saved returns the saved list and
    changes nothing. *)
Theorem save_then_load (sc sc' : Scene) (n a : str)
    (bookmarklist defaults : list json) :
  saveColorBookmarks sc n a bookmarklist = (Ok tt, sc') ->
  length defaults = length bookmarklist ->
  loadOrCreateColorBookmarks sc' n a defaults = (Ok (JArr bookmarklist), sc').
Proof.
  unfold saveColorBookmarks. intros Hsave Hlen.
  destruct (loadOrCreateColorBookmarks sc n a bookmarklist) as [[v|e] sc1] eqn:Hload;
    [|discriminate].
  injection Hsave as <-.
  destruct (load_bookmarks_post _ _ _ _ _ _ Hload) as (Hex & _).
  apply load_bookmarks_stored.
  - exact Hex.
  - cbn. apply lookup_insert_eq.
  - symmetry. exact Hlen.
Qed.

Lemma save_then_load_witness :
  loadOrCreateColorBookmarks
    (snd (saveColorBookmarks stored_scene DATA_NODE LAYER_ATTR layer_defaults))
    DATA_NODE LAYER_ATTR stored_colours
  = (Ok (JArr layer_defaults),
     snd (saveColorBookmarks stored_scene DATA_NODE LAYER_ATTR layer_defaults)).
Proof.
  apply (save_then_load stored_scene _ DATA_NODE LAYER_ATTR layer_defaults
           stored_colours).
  - vm_compute. reflexivity.
  - reflexivity.
Defined.

(** Saving recreates what is missing: on a scene without the data node, or
    without the attribute, it returns and the attribute holds the saved
    list. *)
Theorem save_recreates (sc : Scene) (n a : str) (bookmarklist : list json) :
  objExists sc n = false \/ stringAttrs sc !! (n, a) = None ->
  exists sc',
    saveColorBookmarks sc n a bookmarklist = (Ok tt, sc') /\
    objExists sc' n = true /\
    stringAttrs sc' !! (n, a) = Some (JsonText (JArr bookmarklist)).
Proof.
  intros H.
  destruct (load_bookmarks_defaults sc n a bookmarklist) as (sc1 & Hload & _).
  { destruct H as [H|H]; [left|right; left]; exact H. }
  destruct (load_bookmarks_post _ _ _ _ _ _ Hload) as (Hex & _).
  unfold saveColorBookmarks. rewrite Hload.
  eexists. split; [reflexivity|]. split; [exact Hex|].
  cbn. apply lookup_insert_eq.
Qed.

Lemma save_recreates_witness :
  exists sc',
    saveColorBookmarks (mkScene ∅ ∅ []) DATA_NODE LAYER_ATTR layer_defaults
      = (Ok tt, sc') /\
    objExists sc' DATA_NODE = true /\
    stringAttrs sc' !! (DATA_NODE, LAYER_ATTR) = Some (JsonText (JArr layer_defaults)).
Proof.
  apply (save_recreates (mkScene ∅ ∅ []) DATA_NODE LAYER_ATTR layer_defaults).
  left. reflexivity.
Defined.

(** *** The checkable buttons *)

(** Exactly the selected button is checked. *)
Definition one_selected (b : BarState) : Prop :=
  forall j, checked b !! j = Some true <-> selectedColorButton b = Some j.

Lemma initial_bar_one_selected n : one_selected (initial_bar n).
Proof.
  intros j. cbn. split; [|discriminate].
  intros H. apply lookup_replicate in H. destruct H. discriminate.
Qed.

(** A click keeps the buttons exclusive: afterwards exactly the selected
    button is checked; a click on an unchecked button selects it, a click
    on the checked button leaves none selected. *)
Theorem click_keeps_one_selected (b : BarState) (i : nat) :
  one_selected b ->
  (i < length (checked b))%nat ->
  one_selected (click b i) /\
  length (checked (click b i)) = length (checked b) /\
  getSelected (click b i) =
    (if bool_decide (getSelected b = Some i) then None else Some i).
Proof.
  intros Hinv Hi. unfold click, selectColorButton, getSelected.
  cbn [checked selectedColorButton].
  destruct (lookup_lt_is_Some_2 (checked b) i Hi) as [c Hc].
  rewrite list_lookup_alter_eq, Hc.
  cbn [fmap option_fmap option_map default from_option id].
  destruct c; cbn [negb].
  - (* the checked button is clicked: it is unchecked *)
    assert (Hsel : selectedColorButton b = Some i) by (apply Hinv; exact Hc).
    rewrite Hsel, !bool_decide_eq_true_2 by reflexivity.
    cbn [checked selectedColorButton].
    split; [|split; [apply length_alter|reflexivity]].
    intros j. cbn [checked selectedColorButton]. split; [|discriminate].
    destruct (decide (j = i)) as [->|Hne].
    + rewrite list_lookup_alter_eq, Hc. discriminate.
    + rewrite list_lookup_alter_ne by congruence.
      intros Hj. apply Hinv in Hj. congruence.
  - (* an unchecked button is clicked: it becomes the only one checked *)
    assert (Hsel : selectedColorButton b <> Some i).
    { intros H. apply Hinv in H. congruence. }
    rewrite (bool_decide_eq_false_2 _ Hsel).
    cbn [checked selectedColorButton].
    split; [|split; [rewrite length_imap; apply length_alter|reflexivity]].
    intros j. cbn [checked selectedColorButton].
    rewrite list_lookup_imap.
    destruct (decide (j = i)) as [->|Hne].
    + rewrite list_lookup_alter_eq, Hc. cbn. rewrite Nat.eqb_refl. cbn.
      split; reflexivity.
    + rewrite list_lookup_alter_ne by congruence.
      replace (j =? i)%nat with false by (symmetry; apply Nat.eqb_neq; exact Hne).
      cbn [negb andb]. split; [|congruence].
      destruct (checked b !! j) as [[]|]; cbn; discriminate.
Qed.

Lemma click_keeps_one_selected_witness :
  one_selected (click (click (initial_bar 8) 2) 5) /\
  length (checked (click (click (initial_bar 8) 2) 5)) = 8%nat /\
  getSelected (click (click (initial_bar 8) 2) 5) = Some 5%nat.
Proof.
  apply (click_keeps_one_selected (click (initial_bar 8) 2) 5).
  - apply (click_keeps_one_selected (initial_bar 8) 2).
    + apply initial_bar_one_selected.
    + vm_compute. lia.
  - vm_compute. lia.
Defined.

End RigColorMoreFacts.

(** ** More of the importer: what is read, what is counted *)

Module ImportMoreFacts.
Import ImportAssets ImportFacts.

(** Every path collected is one that was there or the absolute path of an
    item with a path that is not empty. *)
Lemma collect_paths_sound env : forall its acc r acc',
  collect_paths env its acc = (r, acc') ->
  forall p, p ∈ acc' ->
    p ∈ acc \/ exists it, it ∈ its /\ it_path it <> [] /\
                          p = abspath env (it_path it).
Proof.
  induction its as [|it its IH]; intros acc r acc' H p Hp; cbn [collect_paths] in H.
  - injection H as <- <-. left. exact Hp.
  - destruct (filePath_error env (it_id it)).
    + injection H as <- <-. left. exact Hp.
    + destruct (IH _ _ _ H p Hp) as [Hacc|(it' & Hin & Hne & ->)].
      * destruct (it_path it) as [|c q] eqn:Hpath; [left; exact Hacc|].
        apply elem_of_union in Hacc. destruct Hacc as [Hacc|Hacc]; [|left; exact Hacc].
        apply elem_of_singleton in Hacc. right. exists it.
        split; [apply elem_of_cons; left; reflexivity|].
        split; [congruence|]. rewrite Hpath. exact Hacc.
      * right. exists it'. split; [apply elem_of_cons; right; exact Hin|]. auto.
Qed.


(** Code that adds nothing: it may make calls, but no [addItem] call, and
    leaves the database as it is. *)
Definition quiet {A} (m : M A) : Prop :=
  forall w r w', m w = (r, w') ->
    db w' = db w /\ exists new, calls w' = calls w ++ new /\ added_paths new = [].

Lemma quiet_ret {A} (a : A) : quiet (mret a).
Proof.
  intros w r w' [= <- <-]. split; [reflexivity|].
  exists []. rewrite app_nil_r. auto.
Qed.

Lemma quiet_lift {A} (x : res A) : quiet (lift x).
Proof.
  intros w r w' [= <- <-]. split; [reflexivity|].
  exists []. rewrite app_nil_r. auto.
Qed.

Lemma quiet_bind {A B} (m : M A) (k : A -> M B) :
  quiet m -> (forall a, quiet (k a)) -> quiet (mbind k m).
Proof.
  intros Hm Hk w r w' H. unfold mbind, M_bind in H.
  destruct (m w) as [[a|e] w1] eqn:Hmw.
  - destruct (Hm _ _ _ Hmw) as (D1 & n1 & C1 & A1).
    destruct (Hk _ _ _ _ H) as (D2 & n2 & C2 & A2).
    split; [congruence|]. exists (n1 ++ n2).
    rewrite C2, C1, app_assoc. split; [reflexivity|].
    unfold added_paths in *. rewrite flat_map_app, A1, A2. reflexivity.
  - injection H as <- <-. eapply Hm; eassumption.
Qed.

Lemma quiet_raise_if e : quiet (raise_if e).
Proof. destruct e; [apply quiet_lift|apply quiet_ret]. Qed.

Lemma quiet_log c : added_paths [c] = [] -> quiet (log_call c).
Proof.
  intros Hc w r w' [= <- <-]. split; [reflexivity|]. exists [c]. auto.
Qed.

Lemma quiet_setMetadata env id m : quiet (setMetadata env id m).
Proof.
  unfold setMetadata. apply quiet_bind; [apply quiet_log; reflexivity|].
  intros _. apply quiet_raise_if.
Qed.

Lemma quiet_addTags env id tags : quiet (addTags env id tags).
Proof.
  induction tags as [|t tags IH]; cbn [addTags]; [apply quiet_ret|].
  apply quiet_bind; [|intros _; exact IH].
  unfold addTag. apply quiet_bind; [apply quiet_log; reflexivity|].
  intros _. apply quiet_raise_if.
Qed.


Local Open Scope nat_scope.

(** *** The counts of a run *)

Lemma quiet_counts {A} (m : M A) w r w' :
  quiet m -> m w = (r, w') -> ncalls w' = ncalls w /\ nitems w' = nitems w.
Proof.
  intros Hq Hm. destruct (Hq _ _ _ Hm) as (Hdb & new & Hc & Ha).
  unfold ncalls, nitems. rewrite Hdb, Hc. split; [|reflexivity].
  unfold added_paths in *. rewrite flat_map_app, Ha, app_nil_r. reflexivity.
Qed.

Lemma quiet_load_thumbnail env p g f : quiet (load_thumbnail env p g f).
Proof.
  unfold load_thumbnail.
  assert (Ho : quiet (if g then lift (generate_thumbnail_from_usd env f)
                      else mret [])).
  { destruct g; [apply quiet_lift|apply quiet_ret]. }
  destruct p as [p|]; [|exact Ho].
  destruct (path_exists env p); [|exact Ho].
  destruct (read_bytes env p) as [d|e]; [apply quiet_ret|].
  destruct (is_Exception e); [exact Ho|apply quiet_lift].
Qed.

(** [addItem] is one call; it adds one item when it returns an id and none
    otherwise. *)
Lemma addItem_counts env label path thumb date w r w' :
  addItem env label path thumb date w = (r, w') ->
  ncalls w' = ncalls w + 1 /\
  match r with
  | Ok (Some _) => nitems w' = nitems w + 1
  | _ => nitems w' = nitems w
  end.
Proof.
  unfold addItem, mbind, M_bind, log_call, lift, update_db, mret, M_ret.
  unfold ncalls, nitems.
  destruct (addItem_result env label path) as [[i|]|e]; intros [= <- <-];
    cbn [calls db items]; unfold added_paths;
    rewrite ?flat_map_app, ?length_app; cbn; split; lia.
Qed.

(** An [addItem] call followed by code that adds nothing, inside a [try]
    whose handler returns [x]: one call, at most one item, and no item only
    if the result is what a false id gives or what the handler returns. *)
Lemma try_add_counts {A} env label path thumb date (k : option nat -> M A)
    (x : A) w r w' :
  (forall id, quiet (k id)) ->
  try_except (mbind k (addItem env label path thumb date)) (fun _ => mret x) w
    = (r, w') ->
  ncalls w' = ncalls w + 1 /\
  (nitems w' = nitems w + 1 \/
   nitems w' = nitems w /\
   forall a, r = Ok a -> a = x \/ exists w1 w2, k None w1 = (Ok a, w2)).
Proof.
  intros Hk. unfold try_except, mbind at 1, M_bind.
  destruct (addItem env label path thumb date w) as [[id|e] w1] eqn:Hadd.
  - destruct (addItem_counts _ _ _ _ _ _ _ _ Hadd) as [Hc1 Hi1].
    destruct (k id w1) as [[a|e] w2] eqn:Hkid.
    + destruct (quiet_counts _ _ _ _ (Hk id) Hkid) as [Hc2 Hi2].
      intros [= <- <-]. split; [lia|].
      destruct id as [i|]; [left; lia|right].
      split; [lia|]. intros a' [= <-]. right. eauto.
    + destruct (quiet_counts _ _ _ _ (Hk id) Hkid) as [Hc2 Hi2].
      destruct (is_Exception e); intros [= <- <-]; (split; [lia|]).
      * destruct id as [i|]; [left; lia|right].
        split; [lia|]. intros a' [= <-]. left. reflexivity.
      * destruct id as [i|]; [left; lia|right].
        split; [lia|]. intros a' [=].
  - destruct (addItem_counts _ _ _ _ _ _ _ _ Hadd) as [Hc1 Hi1].
    destruct (is_Exception e); intros [= <- <-]; (split; [lia|]); right.
    + split; [lia|]. intros a' [= <-]. left. reflexivity.
    + split; [lia|]. intros a' [=].
Qed.

(** The counts of a step and what it did to the data source agree: every
    [addItem] call is one more success or failure, and every success is an
    item added. *)
Definition counted (c c' : Counts) (w w' : World) : Prop :=
  let '(s, f, sk) := c in
  let '(s', f', sk') := c' in
  s <= s' /\ f <= f' /\ sk <= sk' /\
  s' + f' + ncalls w = s + f + ncalls w' /\
  s' + nitems w <= s + nitems w' /\
  nitems w' + s + f <= nitems w + s' + f'.

Lemma counted_refl c w : counted c c w w.
Proof. destruct c as [[s f] sk]. unfold counted. lia. Qed.

Lemma counted_trans c1 c2 c3 w1 w2 w3 :
  counted c1 c2 w1 w2 -> counted c2 c3 w2 w3 -> counted c1 c3 w1 w3.
Proof.
  destruct c1 as [[s1 f1] k1], c2 as [[s2 f2] k2], c3 as [[s3 f3] k3].
  unfold counted. lia.
Qed.

Lemma import_variant_counted env a existing g tags v c w c' w' :
  import_variant env a existing g tags v c w = (Ok c', w') ->
  counted c c' w w' /\
  (let '(s, f, sk) := c in let '(s', f', sk') := c' in
   s' + f' + sk' = s + f + sk + 1).
Proof.
  unfold import_variant. destruct c as [[s f] sk].
  unfold mbind at 1. unfold M_bind at 1. unfold lift at 1.
  destruct (resolve env (variant_path_of a (fst v))) as [vp|e]; [|discriminate].
  destruct (bool_decide (vp ∈ existing)).
  { intros [= <- <-]. unfold counted. lia. }
  unfold mbind at 1. unfold M_bind at 1.
  destruct (load_thumbnail env _ g _ w) as [[td|e] w1] eqn:Hth; [|discriminate].
  destruct (quiet_counts _ _ _ _ (quiet_load_thumbnail _ _ _ _) Hth) as [Hc1 Hi1].
  unfold mbind at 1. unfold M_bind at 1. unfold lift at 1.
  destruct (getctime env vp) as [cd|e]; [|discriminate].
  intros Htry.
  pose proof Htry as Htry'.
  apply try_add_counts in Htry'.
  2:{ intros [id|]; [|apply quiet_ret].
      apply quiet_bind; [apply quiet_lift|]. intros sz.
      apply quiet_bind; [apply quiet_setMetadata|]. intros _.
      apply quiet_bind; [apply quiet_addTags|]. intros _. apply quiet_ret. }
  destruct Htry' as [Hc2 Hi2].
  assert (Hres : c' = (S s, f, sk) \/ c' = (s, S f, sk)).
  { revert Htry. unfold try_except, mbind at 1, M_bind at 1.
    destruct (addItem env _ vp td cd w1) as [[[id|]|e] w2].
    - unfold mbind, M_bind, lift.
      destruct (getsize env vp) as [sz|e].
      + destruct (setMetadata env id _ w2) as [[[]|e] w3].
        * destruct (addTags env id tags w3) as [[[]|e] w4].
          -- intros [= <- <-]. left. reflexivity.
          -- destruct (is_Exception e); [|discriminate].
             intros [= <- <-]. right. reflexivity.
        * destruct (is_Exception e); [|discriminate].
          intros [= <- <-]. right. reflexivity.
      + destruct (is_Exception e); [|discriminate].
        intros [= <- <-]. right. reflexivity.
    - intros [= <- <-]. right. reflexivity.
    - destruct (is_Exception e); [|discriminate].
      intros [= <- <-]. right. reflexivity. }
  destruct Hres as [-> | ->]; unfold counted.
  - destruct Hi2 as [Hi2|[Hi2 Hx]]; [lia|].
    exfalso. destruct (Hx _ eq_refl) as [Heq|(w3 & w4 & Heq)].
    + injection Heq. lia.
    + injection Heq. lia.
  - destruct Hi2 as [Hi2|[Hi2 _]]; lia.
Qed.

Definition count_sum (c : Counts) : nat := let '(s, f, sk) := c in s + f + sk.

Lemma import_variants_loop_counted env a existing g tags : forall vs c w c' w',
  import_variants_loop env a existing g tags vs c w = (Ok c', w') ->
  counted c c' w w' /\ count_sum c' = count_sum c + length vs.
Proof.
  induction vs as [|v vs IH]; intros c w c' w'; cbn [import_variants_loop].
  - intros [= <- <-]. split; [apply counted_refl|]. cbn [length]. lia.
  - unfold mbind, M_bind.
    destruct (import_variant env a existing g tags v c w) as [[c1|e] w1] eqn:Hv;
      [|discriminate].
    intros Hloop. destruct (import_variant_counted _ _ _ _ _ _ _ _ _ _ Hv) as [H1 S1].
    destruct (IH _ _ _ _ Hloop) as [H2 S2].
    split; [eapply counted_trans; eassumption|].
    rewrite S2. cbn [length]. destruct c as [[s f] sk], c1 as [[s1 f1] sk1].
    unfold count_sum in *. lia.
Qed.

Lemma import_asset_counted env a existing iv g tags w c' w' :
  import_asset env a existing iv g tags w = (Ok c', w') ->
  counted (0, 0, 0) c' w w' /\
  1 <= count_sum c' <= 1 + length (variants a) /\
  (iv = false -> count_sum c' = 1).
Proof.
  unfold import_asset.
  unfold mbind at 1. unfold M_bind at 1. unfold lift at 1.
  destruct (resolve env (primary_path_of a)) as [pp|e]; [|discriminate].
  destruct (bool_decide (pp ∈ existing)).
  { intros [= <- <-]. unfold counted, count_sum. lia. }
  unfold mbind at 1. unfold M_bind at 1.
  destruct (load_thumbnail env _ g _ w) as [[td|e] w1] eqn:Hth; [|discriminate].
  destruct (quiet_counts _ _ _ _ (quiet_load_thumbnail _ _ _ _) Hth) as [Hc1 Hi1].
  unfold mbind at 1. unfold M_bind at 1. unfold lift at 1.
  destruct (getctime env pp) as [cd|e]; [|discriminate].
  unfold mbind at 1. unfold M_bind at 1.
  match goal with
  | |- context [try_except ?b ?h w1] =>
      destruct (try_except b h w1) as [[added|e] w2] eqn:Htry; [|discriminate]
  end.
  pose proof Htry as Htry'.
  apply try_add_counts in Htry'.
  2:{ intros [id|]; [|apply quiet_ret].
      apply quiet_bind; [apply quiet_lift|]. intros sz.
      apply quiet_bind; [apply quiet_setMetadata|]. intros _.
      apply quiet_bind; [apply quiet_addTags|]. intros _. apply quiet_ret. }
  destruct Htry' as [Hc2 Hi2].
  destruct added.
  - assert (Hi : nitems w2 = nitems w1 + 1).
    { destruct Hi2 as [Hi2|[_ Hx]]; [exact Hi2|].
      exfalso. destruct (Hx _ eq_refl) as [Heq|(w3 & w4 & Heq)]; discriminate. }
    assert (H1 : counted (0, 0, 0) (1, 0, 0) w w2) by (unfold counted; lia).
    destruct (iv && negb (bool_decide (variants a = []))) eqn:Hiv.
    + intros Hloop.
      destruct (import_variants_loop_counted _ _ _ _ _ _ _ _ _ _ Hloop) as [H2 S2].
      split; [eapply counted_trans; eassumption|].
      rewrite S2. unfold count_sum. split; [lia|].
      intros ->. discriminate.
    + intros [= <- <-]. split; [exact H1|]. unfold count_sum. lia.
  - intros [= <- <-]. unfold counted, count_sum.
    destruct Hi2 as [Hi2|[Hi2 _]]; lia.
Qed.

Lemma import_loop_counted env existing iv g tags : forall assets st w st' w',
  import_loop env assets existing iv g tags st w = (Ok tt, st', w') ->
  st_total st' = st_total st + length assets /\
  counted (st_success st, st_failed st, st_skipped st)
          (st_success st', st_failed st', st_skipped st') w w' /\
  st_success st + st_failed st + st_skipped st + length assets
    <= st_success st' + st_failed st' + st_skipped st' /\
  (iv = false ->
   st_success st' + st_failed st' + st_skipped st'
     = st_success st + st_failed st + st_skipped st + length assets).
Proof.
  induction assets as [|a assets IH]; intros st w st' w'; cbn [import_loop].
  - intros [= <- <-]. cbn [length]. split; [lia|].
    split; [apply counted_refl|]. lia.
  - destruct (import_asset env a existing iv g tags w) as [[c|e] w1] eqn:Ha;
      [|discriminate].
    intros Hloop.
    destruct (import_asset_counted _ _ _ _ _ _ _ _ _ Ha) as (H1 & S1 & V1).
    destruct (IH _ _ _ _ Hloop) as (T2 & H2 & S2 & V2).
    destruct c as [[s f] sk]. unfold add_counts in *.
    cbn [st_success st_failed st_skipped st_total] in *.
    unfold counted, count_sum in *. cbn [length].
    split; [lia|]. split; [lia|]. split; [lia|].
    intros Hiv. specialize (V1 Hiv). specialize (V2 Hiv). lia.
Qed.



End ImportMoreFacts.
